(** * kogs-utils: recursive copy, directory listing and stream helpers

    A shallow embedding of the functions of [@kogs/utils]
    ([copy], [copySync], [collectFiles], [arrayToStream], [streamToArray],
    [streamToBuffer], [filterStream], [mergeStreams]) together with the part
    of [node:fs] and [node:stream] they call, the properties of the
    specification stated over it, and further properties of the code. *)

From Stdlib Require Import ZArith List String Bool Lia Arith PeanoNat.
From Stdlib Require Import Permutation.
From Stdlib.Strings Require Import Byte.
Import ListNotations.
Open Scope string_scope.
Open Scope list_scope.

Set Implicit Arguments.
Set Warnings "-register-all".

(* ================================================================== *)
(** * The file system the functions run against *)
(* ================================================================== *)

Module FS.

(** A path is the list of its components, already normalised (no empty, [.]
    or [..] segment): the root is [[]] and [path.join(dir, name)], for a name
    that [readdir] returned, appends one component. *)
Definition path := list string.

Definition join (dir : path) (name : string) : path := dir ++ [name].

(** Error codes of the [node:fs] calls used by the library. *)
Inductive errno :=
  ENOENT | ENOTDIR | EACCES | EISDIR | EEXIST | EBUSY | EINVAL.

Inductive result (A : Type) :=
| Ok (a : A)
| Err (e : errno).
Arguments Ok {A} a.
Arguments Err {A} e.

(** A node of the tree.  [Special] stands for whatever [fs.Stats] reports as
    neither [isFile()] nor [isDirectory()] (FIFO, socket, device).  [Locked]
    is an empty directory whose permissions deny reading, writing and
    searching it: [stat] sees a directory, every path through it is refused
    with [EACCES].  Every node carries the modification time that [stat]
    reports as [mtimeMs]. *)
Inductive node :=
| File (content : string) (mtime : Z)
| Dir (entries : list (string * node)) (mtime : Z)
| Special (mtime : Z)
| Locked (mtime : Z).

Definition entries_t := list (string * node).

Definition is_dir (n : node) : bool :=
  match n with Dir _ _ | Locked _ => true | _ => false end.

(** ** Directory entries: an association list in directory order *)

Fixpoint alookup (x : string) (es : entries_t) : option node :=
  match es with
  | [] => None
  | (y, n) :: es' => if String.eqb x y then Some n else alookup x es'
  end.

Fixpoint areplace (x : string) (c : node) (es : entries_t) : entries_t :=
  match es with
  | [] => []
  | (y, n) :: es' =>
      (y, if String.eqb x y then c else n) :: areplace x c es'
  end.

Fixpoint aremove (x : string) (es : entries_t) : entries_t :=
  match es with
  | [] => []
  | (y, n) :: es' =>
      if String.eqb x y then aremove x es' else (y, n) :: aremove x es'
  end.

(** ** Path resolution *)

Fixpoint resolve (n : node) (p : path) : result node :=
  match p with
  | [] => Ok n
  | x :: p' =>
      match n with
      | Dir es _ =>
          match alookup x es with
          | Some c => resolve c p'
          | None => Err ENOENT
          end
      | Locked _ => Err EACCES
      | _ => Err ENOTDIR
      end
  end.

(** [update_dir p f n] walks [n] along [p] to a directory and replaces that
    directory by what [f] makes of its entries and modification time. *)
Fixpoint update_dir (p : path) (f : entries_t -> Z -> result node) (n : node)
  : result node :=
  match n with
  | Dir es m =>
      match p with
      | [] => f es m
      | x :: p' =>
          match alookup x es with
          | None => Err ENOENT
          | Some c =>
              match update_dir p' f c with
              | Ok c' => Ok (Dir (areplace x c' es) m)
              | Err e => Err e
              end
          end
      end
  | Locked _ => Err EACCES
  | _ => Err ENOTDIR
  end.

(** [f] touches nothing but the entry [x] of the directory it is given. *)
Definition local_to (x : string) (f : entries_t -> Z -> result node) : Prop :=
  forall es m n', f es m = Ok n' ->
    exists es' m', n' = Dir es' m' /\
      forall y, String.eqb x y = false -> alookup y es' = alookup y es.

(** Splits a non-empty path into its directory and its last component. *)
Fixpoint split_last (p : path) : option (path * string) :=
  match p with
  | [] => None
  | [x] => Some ([], x)
  | x :: p' =>
      match split_last p' with
      | Some (d, l) => Some (x :: d, l)
      | None => None
      end
  end.

(** ** The mutating calls *)

(** [fs.unlink(p)]: removes a non-directory entry. *)
Definition do_unlink (now : Z) (p : path) (r : node) : result node :=
  match split_last p with
  | None => Err EISDIR
  | Some (d, x) =>
      update_dir d (fun es _ =>
        match alookup x es with
        | None => Err ENOENT
        | Some n =>
            if is_dir n then Err EISDIR else Ok (Dir (aremove x es) now)
        end) r
  end.

(** [fs.rm(p, { recursive: true })]: removes the entry with everything below
    it; the root itself cannot be removed. *)
Definition do_rm (now : Z) (p : path) (r : node) : result node :=
  match split_last p with
  | None => Err EBUSY
  | Some (d, x) =>
      update_dir d (fun es _ =>
        match alookup x es with
        | None => Err ENOENT
        | Some _ => Ok (Dir (aremove x es) now)
        end) r
  end.

(** [fs.copyFile(src, dest)]: reads the bytes of the regular file [src] and
    writes them to [dest], creating it or replacing the bytes of the file
    already there.  Bytes written to a special node leave the tree as it is. *)
Definition do_copyFile (now : Z) (src dest : path) (r : node) : result node :=
  match resolve r src with
  | Err e => Err e
  | Ok (Dir _ _) | Ok (Locked _) => Err EISDIR
  | Ok (Special _) => Err EINVAL
  | Ok (File c _) =>
      match split_last dest with
      | None => Err EISDIR
      | Some (d, x) =>
          update_dir d (fun es m =>
            match alookup x es with
            | None => Ok (Dir (es ++ [(x, File c now)]) now)
            | Some (File _ _) => Ok (Dir (areplace x (File c now) es) m)
            | Some (Dir _ _) | Some (Locked _) => Err EISDIR
            | Some (Special _) => Ok (Dir es m)
            end) r
      end
  end.

(** The chain of fresh directories [mkdir -p] creates for the missing tail of
    a path. *)
Fixpoint mkchain (now : Z) (p : path) : node :=
  match p with
  | [] => Dir [] now
  | x :: p' => Dir [(x, mkchain now p')] now
  end.

(** [fs.mkdir(p, { recursive: true })]. *)
Fixpoint do_mkdirp (now : Z) (p : path) (n : node) : result node :=
  match p with
  | [] => if is_dir n then Ok n else Err EEXIST
  | x :: p' =>
      match n with
      | Dir es m =>
          match alookup x es with
          | Some c =>
              match do_mkdirp now p' c with
              | Ok c' => Ok (Dir (areplace x c' es) m)
              | Err e => Err e
              end
          | None => Ok (Dir (es ++ [(x, mkchain now p')]) now)
          end
      | Locked _ => Err EACCES
      | _ => Err ENOTDIR
      end
  end.

(** [fs.readdir(p)]: the names of the entries, in directory order. *)
Definition do_readdir (p : path) (r : node) : result (list string) :=
  match resolve r p with
  | Ok (Dir es _) => Ok (map fst es)
  | Ok (Locked _) => Err EACCES
  | Ok _ => Err ENOTDIR
  | Err e => Err e
  end.

(** [fs.readdir(p, { withFileTypes: true })]: name and [isDirectory()] of
    each entry. *)
Definition do_readdir_types (p : path) (r : node)
  : result (list (string * bool)) :=
  match resolve r p with
  | Ok (Dir es _) => Ok (map (fun e => (fst e, is_dir (snd e))) es)
  | Ok (Locked _) => Err EACCES
  | Ok _ => Err ENOTDIR
  | Err e => Err e
  end.

(** ** [fs.Stats] *)

Inductive kind := KFile | KDir | KOther.

Record Stats := mkStats { st_kind : kind; mtimeMs : Z }.

Definition isFile (s : Stats) : bool :=
  match st_kind s with KFile => true | _ => false end.

Definition isDirectory (s : Stats) : bool :=
  match st_kind s with KDir => true | _ => false end.

Definition stats_of (n : node) : Stats :=
  match n with
  | File _ m => mkStats KFile m
  | Dir _ m => mkStats KDir m
  | Special m => mkStats KOther m
  | Locked m => mkStats KDir m
  end.

Definition do_stat (p : path) (r : node) : result Stats :=
  match resolve r p with
  | Ok n => Ok (stats_of n)
  | Err e => Err e
  end.

(** ** The calls as effects on a state *)

Inductive fs_call :=
| CallStat (p : path)
| CallReaddir (p : path)
| CallRm (p : path)
| CallUnlink (p : path)
| CallMkdir (p : path)
| CallCopyFile (src dest : path).

(** The state threads the tree, the clock that stamps what is written, and
    the calls issued so far, oldest first. *)
Record state := mkState { root : node; clock : Z; log : list fs_call }.

Inductive outcome (A : Type) :=
| Done (a : A) (s : state)
| Fail (e : errno) (s : state)
| Timeout.
Arguments Done {A} a s.
Arguments Fail {A} e s.
Arguments Timeout {A}.

Definition M (A : Type) := state -> outcome A.

Definition ret {A} (a : A) : M A := fun s => Done a s.

Definition bind {A B} (m : M A) (k : A -> M B) : M B :=
  fun s =>
    match m s with
    | Done a s' => k a s'
    | Fail e s' => Fail e s'
    | Timeout => Timeout
    end.

Definition timeout {A} : M A := fun _ => Timeout.

Definition logged (c : fs_call) (s : state) : state :=
  mkState (root s) (clock s) (log s ++ [c]).

(** A call that only reads the tree. *)
Definition query {A} (c : fs_call) (f : node -> result A) : M A :=
  fun s =>
    match f (root s) with
    | Ok a => Done a (logged c s)
    | Err e => Fail e (logged c s)
    end.

(** A call that replaces the tree; a failing call leaves it as it was. *)
Definition command (c : fs_call) (f : Z -> node -> result node) : M unit :=
  fun s =>
    match f (clock s) (root s) with
    | Ok r' => Done tt (mkState r' (clock s) (log s ++ [c]))
    | Err e => Fail e (logged c s)
    end.

Definition stat (p : path) : M Stats := query (CallStat p) (do_stat p).
Definition readdir (p : path) : M (list string) :=
  query (CallReaddir p) (do_readdir p).
Definition readdir_types (p : path) : M (list (string * bool)) :=
  query (CallReaddir p) (do_readdir_types p).
Definition rm_recursive (p : path) : M unit :=
  command (CallRm p) (fun now => do_rm now p).
Definition unlink (p : path) : M unit :=
  command (CallUnlink p) (fun now => do_unlink now p).
Definition mkdir_recursive (p : path) : M unit :=
  command (CallMkdir p) (fun now => do_mkdirp now p).
Definition copyFile (src dest : path) : M unit :=
  command (CallCopyFile src dest) (fun now => do_copyFile now src dest).

(** [fs.promises.stat(p).catch(() => null)]: every rejection becomes
    [null]. *)
Definition stat_catch_null (p : path) : M (option Stats) :=
  fun s =>
    match stat p s with
    | Done a s' => Done (Some a) s'
    | Fail _ s' => Done None s'
    | Timeout => Timeout
    end.

(** [fs.statSync(p, { throwIfNoEntry: false })]: [undefined] when there is no
    entry, every other error is still thrown.  [ENOENT] always counts as "no
    entry", [EACCES] never; whether [ENOTDIR] does is left to the platform
    ([enotdir_absent]). *)
Definition no_entry (enotdir_absent : bool) (e : errno) : bool :=
  match e with
  | ENOENT => true
  | ENOTDIR => enotdir_absent
  | _ => false
  end.

Definition statSync_noThrow (enotdir_absent : bool) (p : path)
  : M (option Stats) :=
  fun s =>
    match stat p s with
    | Done a s' => Done (Some a) s'
    | Fail e s' =>
        if no_entry enotdir_absent e then Done None s' else Fail e s'
    | Timeout => Timeout
    end.

End FS.

Module FSNotations.
Notation "x <- m ;; k" := (FS.bind m (fun x => k))
  (at level 61, m at next level, right associativity).
Notation "m ;; k" := (FS.bind m (fun _ => k))
  (at level 61, right associativity).
End FSNotations.

(* ================================================================== *)
(** * [copy] and [copySync] *)
(* ================================================================== *)

Module Copy.
Import FS FSNotations.

(** The [overwrite] field: ['always' | 'never' | 'newer' | true | false]. *)
Inductive Overwrite := Always | Never | Newer | OTrue | OFalse.

(** [CopyOptions]: the field may be missing. *)
Record CopyOptions := mkOptions { overwrite : option Overwrite }.

(** [options?.overwrite] *)
Definition options_overwrite (options : option CopyOptions)
  : option Overwrite :=
  match options with
  | Some o => overwrite o
  | None => None
  end.

(** [srcStat.mtimeMs > destStat?.mtimeMs]: false when [destStat] is null. *)
Definition mtime_gt (srcStat : Stats) (destStat : option Stats) : bool :=
  match destStat with
  | Some d => (mtimeMs srcStat >? mtimeMs d)%Z
  | None => false
  end.

(** The value of the local [overwrite] after lines 24-28. *)
Definition overwrite_flag (options : option CopyOptions)
    (srcStat : Stats) (destStat : option Stats) : bool :=
  let ow :=
    match options_overwrite options with
    | Some Always | Some OTrue => true
    | _ => false
    end in
  match options_overwrite options with
  | Some Newer => if mtime_gt srcStat destStat then true else ow
  | _ => ow
  end.

(** [for (const file of files) await body(file)] *)
Fixpoint for_each {A} (l : list A) (body : A -> M unit) : M unit :=
  match l with
  | [] => ret tt
  | x :: l' => body x ;; for_each l' body
  end.

(** [copy(src, dest, options)].  The recursive call of line 57 passes no
    options. *)
Fixpoint copy (fuel : nat) (src dest : path) (options : option CopyOptions)
  : M unit :=
  match fuel with
  | O => timeout
  | S fuel' =>
      srcStat <- stat src ;;
      destStat <- stat_catch_null dest ;;
      let overwrite := overwrite_flag options srcStat destStat in
      if isFile srcStat then
        match destStat with
        | Some d =>
            if overwrite then
              (if isDirectory d then rm_recursive dest else ret tt) ;;
              copyFile src dest
            else ret tt
        | None => copyFile src dest
        end
      else if isDirectory srcStat then
        let is_file_dest :=
          match destStat with Some d => isFile d | None => false end in
        let continue :=
          mkdir_recursive dest ;;
          files <- readdir src ;;
          for_each files (fun file =>
            copy fuel' (join src file) (join dest file) None) in
        if is_file_dest then
          if overwrite then unlink dest ;; continue else ret tt
        else continue
      else ret tt
  end.

(** [copySync(src, dest, options)], on a platform whose [statSync] treats
    [ENOTDIR] as [enotdir_absent] says. *)
Fixpoint copySync (enotdir_absent : bool) (fuel : nat) (src dest : path)
    (options : option CopyOptions) : M unit :=
  match fuel with
  | O => timeout
  | S fuel' =>
      srcStat <- stat src ;;
      destStat <- statSync_noThrow enotdir_absent dest ;;
      let overwrite := overwrite_flag options srcStat destStat in
      if isFile srcStat then
        match destStat with
        | Some d =>
            if overwrite then
              (if isDirectory d then rm_recursive dest else ret tt) ;;
              copyFile src dest
            else ret tt
        | None => copyFile src dest
        end
      else if isDirectory srcStat then
        let is_file_dest :=
          match destStat with Some d => isFile d | None => false end in
        let continue :=
          mkdir_recursive dest ;;
          files <- readdir src ;;
          for_each files (fun file =>
            copySync enotdir_absent fuel' (join src file) (join dest file)
              None) in
        if is_file_dest then
          if overwrite then unlink dest ;; continue else ret tt
        else continue
      else ret tt
  end.

End Copy.

(* ================================================================== *)
(** * [collectFiles] *)
(* ================================================================== *)

Module Collect.
Import FS FSNotations.

(** [type FileFilter = (entryPath: string) => boolean] *)
Definition FileFilter := path -> bool.

(** [!filter || filter(entryPath)] *)
Definition accepts (filter : option FileFilter) (entryPath : path) : bool :=
  match filter with
  | None => true
  | Some f => f entryPath
  end.

(** A [for ... of] loop that updates a local value. *)
Fixpoint for_each_acc {A B} (l : list A) (acc : B) (body : A -> B -> M B)
  : M B :=
  match l with
  | [] => ret acc
  | x :: l' => acc' <- body x acc ;; for_each_acc l' acc' body
  end.

(** The inner [collect(dir)]; the array [entries] it pushes to is threaded
    through. *)
Fixpoint collect (fuel : nat) (filter : option FileFilter) (dir : path)
    (entries : list path) : M (list path) :=
  match fuel with
  | O => timeout
  | S fuel' =>
      dirEntries <- readdir_types dir ;;
      for_each_acc dirEntries entries (fun entry entries =>
        let entryPath := join dir (fst entry) in
        if snd entry then collect fuel' filter entryPath entries
        else if accepts filter entryPath then ret (entries ++ [entryPath])
        else ret entries)
  end.

(** [collectFiles(dir, filter)] *)
Definition collectFiles (fuel : nat) (dir : path)
    (filter : option FileFilter) : M (list path) :=
  collect fuel filter dir [].

(** ** What the properties count *)

(** The number of entries below a node that are not directories. *)
Fixpoint count_files (n : node) : nat :=
  match n with
  | Dir es _ =>
      (fix go (es : entries_t) : nat :=
         match es with
         | [] => 0
         | (_, c) :: es' => count_files c + go es'
         end) es
  | Locked _ => 0
  | _ => 1
  end.

(** The number of directories of a tree, its root included. *)
Fixpoint count_dirs (n : node) : nat :=
  match n with
  | Dir es _ =>
      S ((fix go (es : entries_t) : nat :=
            match es with
            | [] => 0
            | (_, c) :: es' => count_dirs c + go es'
            end) es)
  | Locked _ => 1
  | _ => 0
  end.

(** Nesting depth of directories. *)
Fixpoint depth (n : node) : nat :=
  match n with
  | Dir es _ =>
      S ((fix go (es : entries_t) : nat :=
            match es with
            | [] => 0
            | (_, c) :: es' => Nat.max (depth c) (go es')
            end) es)
  | _ => 0
  end.

Fixpoint name_in (x : string) (l : list string) : bool :=
  match l with
  | [] => false
  | y :: l' => String.eqb x y || name_in x l'
  end.

Fixpoint distinct (l : list string) : bool :=
  match l with
  | [] => true
  | x :: l' => negb (name_in x l') && distinct l'
  end.

(** A directory never lists one name twice and can be read, at any depth. *)
Fixpoint well_formed (n : node) : bool :=
  match n with
  | Dir es _ =>
      distinct (map fst es) &&
      (fix go (es : entries_t) : bool :=
         match es with
         | [] => true
         | (_, c) :: es' => well_formed c && go es'
         end) es
  | Locked _ => false
  | _ => true
  end.

(** No directory lists one name twice, at any depth. *)
Fixpoint names_distinct (n : node) : bool :=
  match n with
  | Dir es _ =>
      distinct (map fst es) &&
      (fix go (es : entries_t) : bool :=
         match es with
         | [] => true
         | (_, c) :: es' => names_distinct c && go es'
         end) es
  | _ => true
  end.

(** Some directory of the tree cannot be read. *)
Fixpoint unreadable (n : node) : bool :=
  match n with
  | Dir es _ =>
      (fix go (es : entries_t) : bool :=
         match es with
         | [] => false
         | (_, c) :: es' => unreadable c || go es'
         end) es
  | Locked _ => true
  | _ => false
  end.

(** The paths of the non-directory entries below [n], depth first in
    directory order, each prefixed by [dir]. *)
Fixpoint files_under (dir : path) (n : node) : list path :=
  match n with
  | Dir es _ =>
      (fix go (es : entries_t) : list path :=
         match es with
         | [] => []
         | (x, c) :: es' =>
             (if is_dir c then files_under (join dir x) c else [join dir x])
             ++ go es'
         end) es
  | _ => []
  end.

(** The directories of the tree at [dir], [dir] first, depth first in
    directory order. *)
Fixpoint dirs_under (dir : path) (n : node) : list path :=
  match n with
  | Dir es _ =>
      dir ::
      (fix go (es : entries_t) : list path :=
         match es with
         | [] => []
         | (x, c) :: es' => dirs_under (join dir x) c ++ go es'
         end) es
  | Locked _ => [dir]
  | _ => []
  end.

End Collect.

(* ================================================================== *)
(** * Streams: [arrayToStream], [streamToArray], [streamToBuffer],
      [filterStream], [mergeStreams] *)
(* ================================================================== *)

Module Stream.

(** [type ReadableChunk = string | Buffer | Uint8Array | null] *)
Inductive chunk :=
| Str (s : string)
| Buf (b : list byte)
| U8 (b : list byte).

(** [None] is [null]. *)
Definition ReadableChunk := option chunk.

Inductive stream_error :=
| ERR_STREAM_PUSH_AFTER_EOF
| ERR_STREAM_PREMATURE_CLOSE.

(** The state of a [stream.Readable] built by [arrayToStream]: its mode, the
    array its [read()] closes over, and the [_readableState] fields the
    library's behaviour depends on. *)
Record Readable := mkReadable {
  objectMode : bool;
  input : list ReadableChunk;
  buffer : list chunk;
  ended : bool;
  errored : option stream_error;
  destroyed : bool
}.

Definition chunk_length (c : chunk) : nat :=
  match c with
  | Str s => String.length s
  | Buf b => List.length b
  | U8 b => List.length b
  end.

(** Outside object mode a string or [Uint8Array] is stored as a [Buffer]. *)
Definition to_buffer (c : chunk) : chunk :=
  match c with
  | Str s => Buf (list_byte_of_string s)
  | Buf b => Buf b
  | U8 b => Buf b
  end.

Definition has_error (r : Readable) : bool :=
  match errored r with Some _ => true | None => false end.

(** A stream that has neither ended nor failed. *)
Definition live (r : Readable) : Prop :=
  ended r = false /\ errored r = None /\ destroyed r = false.

(** [errorOrDestroy(stream, err)] with the default [autoDestroy]. *)
Definition errorOrDestroy (err : stream_error) (r : Readable) : Readable :=
  if destroyed r then r
  else mkReadable (objectMode r) (input r) (buffer r) (ended r)
         (match errored r with Some e => Some e | None => Some err end) true.

(** [readable.push(chunk)]: [null] marks the end of the stream; a chunk
    pushed after that is an error; outside object mode an empty chunk is
    dropped. *)
Definition push (c : ReadableChunk) (r : Readable) : Readable :=
  match c with
  | None =>
      if ended r then r
      else mkReadable (objectMode r) (input r) (buffer r) true
             (errored r) (destroyed r)
  | Some c0 =>
      let c1 := if objectMode r then c0 else to_buffer c0 in
      if objectMode r || Nat.ltb 0 (chunk_length c1) then
        if ended r then errorOrDestroy ERR_STREAM_PUSH_AFTER_EOF r
        else if destroyed r || has_error r then r
        else mkReadable (objectMode r) (input r) (buffer r ++ [c1])
               (ended r) (errored r) (destroyed r)
      else r
  end.

(** The [read()] given to the constructor (lines 169-174):
    [for (const element of input) this.push(element); this.push(null);] *)
Definition _read (r : Readable) : Readable :=
  push None (fold_left (fun r element => push element r) (input r) r).

(** [arrayToStream(input, objectMode)] *)
Definition arrayToStream (input : list ReadableChunk)
    (objectMode : option bool) : Readable :=
  let objectMode :=
    match objectMode with
    | Some b => b
    | None =>
        (* typeof first === 'object' && first !== null *)
        match input with
        | Some (Buf _) :: _ | Some (U8 _) :: _ => true
        | _ => false
        end
    end in
  mkReadable objectMode input [] false None false.

Fixpoint concat_bytes (l : list chunk) : list byte :=
  match l with
  | [] => []
  | c :: l' =>
      (match c with
       | Str s => list_byte_of_string s
       | Buf b => b
       | U8 b => b
       end) ++ concat_bytes l'
  end.

(** [readable.read()] of a paused stream: calls [_read] unless the stream has
    ended or is destroyed, then hands out one chunk in object mode and the
    whole buffer as one [Buffer] otherwise. *)
Definition read (r : Readable) : option chunk * Readable :=
  let idle :=
    ended r || destroyed r || has_error r in
  let r1 := if idle then r else _read r in
  match buffer r1 with
  | [] => (None, r1)
  | c :: rest =>
      if objectMode r1 then
        (Some c, mkReadable (objectMode r1) (input r1) rest (ended r1)
                   (errored r1) (destroyed r1))
      else
        (Some (Buf (concat_bytes (c :: rest))),
         mkReadable (objectMode r1) (input r1) [] (ended r1)
           (errored r1) (destroyed r1))
  end.

(** How a promise settles; [Pending] is one that never does. *)
Inductive settled (A : Type) :=
| Resolved (a : A)
| Rejected (e : stream_error)
| Pending.
Arguments Resolved {A} a.
Arguments Rejected {A} e.
Arguments Pending {A}.

(** What becomes of a settled promise when its value is passed on. *)
Definition settled_map {A B} (h : A -> B) (p : settled A) : settled B :=
  match p with
  | Resolved a => Resolved (h a)
  | Rejected e => Rejected e
  | Pending => Pending
  end.

(** [for await (const chunk of stream) body(chunk)], on the stream's async
    iterator: [stream.destroyed ? null : stream.read()] until it yields
    [null], then the stream's end or error decides. *)
Fixpoint for_await {S : Type} (fuel : nat) (r : Readable)
    (body : chunk -> S -> S) (s : S) : option (settled S) :=
  match fuel with
  | O => None
  | S fuel' =>
      if destroyed r then
        Some (Rejected (match errored r with
                        | Some e => e
                        | None => ERR_STREAM_PREMATURE_CLOSE
                        end))
      else
        match read r with
        | (Some c, r') => for_await fuel' r' body (body c s)
        | (None, r') =>
            match errored r' with
            | Some e => Some (Rejected e)
            | None => if ended r' then Some (Resolved s) else Some Pending
            end
        end
  end.

(** [streamToArray(input)] *)
Definition streamToArray (fuel : nat) (input : Readable)
  : option (settled (list chunk)) :=
  for_await fuel input (fun chunk output => output ++ [chunk]) [].

(** ** [stream.PassThrough] in object mode: what was written, and whether
    [end()] was called. *)
Record PassThrough := mkPassThrough { written : list chunk; finished : bool }.

Definition new_PassThrough : PassThrough := mkPassThrough [] false.

Definition write (c : chunk) (p : PassThrough) : PassThrough :=
  if finished p then p else mkPassThrough (written p ++ [c]) false.

Definition end_ (p : PassThrough) : PassThrough :=
  mkPassThrough (written p) true.

(** The loop of [mergeStreams] in the module with [copy] (lines 237-246);
    [total] is [streams.length]. *)
Fixpoint merge_loop (fuel : nat) (streams : list Readable)
    (total ended : nat) (merged : PassThrough)
  : option (settled PassThrough) :=
  match streams with
  | [] => Some (Resolved merged)
  | stream :: rest =>
      match for_await fuel stream write merged with
      | Some (Resolved merged') =>
          let ended' := ended + 1 in
          let merged'' :=
            if Nat.eqb ended' total then end_ merged' else merged' in
          merge_loop fuel rest total ended' merged''
      | other => other
      end
  end.

(** [mergeStreams(...streams)] *)
Definition mergeStreams (fuel : nat) (streams : list Readable)
  : option (settled PassThrough) :=
  merge_loop fuel streams (List.length streams) 0 new_PassThrough.

(** ** [streamToBuffer] and [filterStream] *)

(** [streamToBuffer(input)]: every chunk that is not a [Buffer] is turned into
    one with [Buffer.from], and the chunks are joined with [Buffer.concat]. *)
Definition streamToBuffer (fuel : nat) (input : Readable)
  : option (settled (list byte)) :=
  match for_await fuel input
          (fun chunk output => output ++ [to_buffer chunk]) [] with
  | Some (Resolved output) => Some (Resolved (concat_bytes output))
  | Some (Rejected e) => Some (Rejected e)
  | Some Pending => Some Pending
  | None => None
  end.

(** [type StreamFilter = (chunk: ReadableChunk) => Promise<boolean>], for a
    promise that resolves; a transform is never handed [null]. *)
Definition StreamFilter := chunk -> bool.

(** The [stream.Transform] that [filterStream] builds: its mode, the filter
    its [transform] closes over, what its readable side holds, and whether
    [end()] was called. *)
Record Transform := mkTransform {
  t_objectMode : bool;
  t_fn : StreamFilter;
  t_readable : list chunk;
  t_ended : bool
}.

(** [filterStream(fn, objectMode = true)] *)
Definition filterStream (fn : StreamFilter) (objectMode : option bool)
  : Transform :=
  mkTransform (match objectMode with Some b => b | None => true end)
    fn [] false.

(** The [transform(chunk, encoding, callback)] of lines 220-225:
    [if (await fn(chunk)) this.push(chunk); callback();].  Outside object
    mode the readable side drops an empty chunk. *)
Definition transform (chunk : chunk) (t : Transform) : Transform :=
  if t_fn t chunk then
    if t_objectMode t || Nat.ltb 0 (chunk_length chunk) then
      mkTransform (t_objectMode t) (t_fn t) (t_readable t ++ [chunk])
        (t_ended t)
    else t
  else t.

(** [transform.write(chunk)]: outside object mode the writable side hands
    the chunk on as a [Buffer]; after [end()] nothing is accepted. *)
Definition t_write (c : chunk) (t : Transform) : Transform :=
  if t_ended t then t
  else transform (if t_objectMode t then c else to_buffer c) t.

Definition t_end (t : Transform) : Transform :=
  mkTransform (t_objectMode t) (t_fn t) (t_readable t) true.

(** [source.pipe(transform)] for a source that delivers [chunks] and ends:
    every chunk is written in turn, then [end()] is called. *)
Definition pipe_into (chunks : list chunk) (t : Transform) : Transform :=
  t_end (fold_left (fun t c => t_write c t) chunks t).

(** ** [mergeStreams] of [src/index.ts] *)

Module Index.

(** The chunks a source hands to its ['data'] listeners once it flows. *)
Definition delivered (r : Readable) : list chunk :=
  buffer (if ended r then r else _read r).

Fixpoint set_nth {A} (i : nat) (x : A) (l : list A) : list A :=
  match l, i with
  | [], _ => []
  | _ :: l', O => x :: l'
  | y :: l', S i' => y :: set_nth i' x l'
  end.

(** [source.pipe(output, { end: false })] for every source: each arrival
    writes the next chunk of one source to [output]; [arrival] names the
    source of each arrival in turn.  Nothing ever calls [output.end()]. *)
Fixpoint pipe_all (arrival : list nat) (queues : list (list chunk))
    (output : PassThrough) : PassThrough :=
  match arrival with
  | [] => output
  | i :: arrival' =>
      match nth_error queues i with
      | Some (c :: q) =>
          pipe_all arrival' (set_nth i q queues) (write c output)
      | _ => pipe_all arrival' queues output
      end
  end.

(** What each source has yet to deliver after the arrivals of [arrival]:
    every arrival takes the first chunk off the queue of its source. *)
Fixpoint pending (arrival : list nat) (queues : list (list chunk))
  : list (list chunk) :=
  match arrival with
  | [] => queues
  | i :: arrival' =>
      match nth_error queues i with
      | Some (c :: q) => pending arrival' (set_nth i q queues)
      | _ => pending arrival' queues
      end
  end.

(** [mergeStreams(...streams)]: the promise resolves at once with [output];
    the value here is [output] after the arrivals. *)
Definition mergeStreams (arrival : list nat) (streams : list Readable)
  : settled PassThrough :=
  Resolved (pipe_all arrival (map delivered streams) new_PassThrough).

End Index.

(** ** What the properties speak of *)

(** The longest prefix of an array without [null]. *)
Fixpoint null_free_prefix (l : list ReadableChunk) : list chunk :=
  match l with
  | Some c :: l' => c :: null_free_prefix l'
  | _ => []
  end.

(** What follows the first [null] of an array. *)
Fixpoint after_first_null (l : list ReadableChunk) : list ReadableChunk :=
  match l with
  | Some _ :: l' => after_first_null l'
  | None :: l' => l'
  | [] => []
  end.

(** The chunks a stream of the given mode stores for a list of pushes. *)
Fixpoint stored (objectMode : bool) (l : list chunk) : list chunk :=
  match l with
  | [] => []
  | c :: l' =>
      if objectMode then c :: stored objectMode l'
      else if Nat.ltb 0 (chunk_length (to_buffer c))
           then to_buffer c :: stored objectMode l'
           else stored objectMode l'
  end.

(** The mode [arrayToStream] settles on. *)
Definition mode_of (input : list ReadableChunk) (objectMode : option bool)
  : bool :=
  Stream.objectMode (arrayToStream input objectMode).

(** An element whose push after the end of the stream is an error: a chunk
    that is not [null] and, outside object mode, not empty. *)
Definition pushable (objectMode : bool) (c : ReadableChunk) : bool :=
  match c with
  | None => false
  | Some c0 => objectMode || Nat.ltb 0 (chunk_length (to_buffer c0))
  end.

(** Some pushable element follows the first [null]. *)
Definition pushes_after_eof (objectMode : bool) (input : list ReadableChunk)
  : bool :=
  existsb (pushable objectMode) (after_first_null input).

(** What the async iterator yields for the chunks [l] pushed to a stream that
    then ends: in object mode the chunks one by one, otherwise everything
    stored as one [Buffer]. *)
Definition emitted (objectMode : bool) (l : list chunk) : list chunk :=
  if objectMode then l
  else match stored false l with
       | [] => []
       | c :: rest => [Buf (concat_bytes (c :: rest))]
       end.

End Stream.

(* ================================================================== *)
(** * Vocabulary of the properties, and concrete inputs *)
(* ================================================================== *)

Module Scenario.
Import FS Copy Stream.

(** [p] lies at or below [d]. *)
Fixpoint below (d p : path) : bool :=
  match d, p with
  | [], _ => true
  | _ :: _, [] => false
  | x :: d', y :: p' => String.eqb x y && below d' p'
  end.

(** The calls issued between two states. *)
Definition issued (before after : state) : list fs_call :=
  skipn (List.length (log before)) (log after).

(** [options] does not permit overwriting: no options, no [overwrite] field,
    ['never'] or [false]. *)
Definition denies (options : option CopyOptions) : bool :=
  match options_overwrite options with
  | None | Some Never | Some OFalse => true
  | _ => false
  end.

Definition always : option CopyOptions := Some (mkOptions (Some Always)).
Definition never : option CopyOptions := Some (mkOptions (Some Never)).
Definition newer : option CopyOptions := Some (mkOptions (Some Newer)).

(** [s/a.txt = "new"], [s/sub/b.txt = "yo"]; [d/a.txt = "old"]. *)
Definition tree_dirs : node :=
  Dir [("s", Dir [("a.txt", File "new" 5);
                  ("sub", Dir [("b.txt", File "yo" 1)] 1)] 5);
       ("d", Dir [("a.txt", File "old" 1)] 1)] 0.

(** A file [d/f] inside the directory [d]. *)
Definition tree_inside : node :=
  Dir [("d", Dir [("f", File "x" 1); ("g", File "y" 1)] 1)] 0.

(** A file [f], a directory [d] with content, a device node [dev] and a
    directory [locked] without permissions. *)
Definition tree_mixed : node :=
  Dir [("f", File "new" 7);
       ("d", Dir [("old.txt", File "old" 1); ("k", Dir [] 1)] 1);
       ("g", File "gee" 3);
       ("dev", Special 2);
       ("locked", Locked 4)] 0.

Definition at_time (r : node) (now : Z) : state := mkState r now [].

(** A tree of regular files and directories: no node is [Special]. *)
Fixpoint plain (n : node) : bool :=
  match n with
  | Dir es _ =>
      (fix go (es : entries_t) : bool :=
         match es with
         | [] => true
         | (_, c) :: es' => plain c && go es'
         end) es
  | Special _ => false
  | _ => true
  end.

(** Two runs agree: they are the same, or both fail with the same error
    code and leave the same tree. *)
Definition agree {A : Type} (a b : outcome A) : Prop :=
  a = b \/
  exists e s1 s2, a = Fail e s1 /\ b = Fail e s2 /\ root s1 = root s2.

(** Two computations agree from every state with a plain tree. *)
Definition agrees {A : Type} (m1 m2 : M A) : Prop :=
  forall s, plain (root s) = true -> agree (m1 s) (m2 s).

(** A computation that returns leaves a plain tree plain. *)
Definition keeps_plain {A : Type} (m : M A) : Prop :=
  forall s a s', plain (root s) = true -> m s = Done a s' ->
    plain (root s') = true.

(** ** Vocabulary of the further properties *)

(** [q] is neither at or below [d] nor on the way to it. *)
Definition apart (d q : path) : bool := negb (below d q) && negb (below q d).

(** The calls [copy(src, dest)] may issue: it reads at or below either path
    and writes at or below [dest]. *)
Definition within (src dest : path) (c : fs_call) : bool :=
  match c with
  | CallStat p | CallReaddir p => below src p || below dest p
  | CallRm p | CallUnlink p | CallMkdir p => below dest p
  | CallCopyFile a b => below src a && below dest b
  end.

(** A [readdir] at or below [dir]. *)
Definition reads_below (dir : path) (c : fs_call) : bool :=
  match c with
  | CallReaddir p => below dir p
  | _ => false
  end.

(** The state a run ends in, when it ends. *)
Definition final {A : Type} (o : outcome A) : option state :=
  match o with
  | Done _ s => Some s
  | Fail _ s => Some s
  | Timeout => None
  end.

(** However it ends, a computation leaves what is apart from [dest] as it
    was. *)
Definition leaves_apart {A : Type} (dest : path) (m : M A) : Prop :=
  forall s s', final (m s) = Some s' ->
    forall q, apart dest q = true ->
      resolve (root s') q = resolve (root s) q.

(** However it ends, a computation has issued only calls that [P] allows. *)
Definition calls_only {A : Type} (P : fs_call -> bool) (m : M A) : Prop :=
  forall s s', final (m s) = Some s' ->
    exists l, log s' = log s ++ l /\ forallb P l = true.

(** The tree at [dest] mirrors [n]: where [n] has a regular file, there is a
    regular file with the same bytes; where it has a directory, a directory;
    where a path does not resolve in [n], it fails in the same way below
    [dest]. *)
Definition mirrors (r : node) (dest : path) (n : node) : Prop :=
  forall q,
    match resolve n q with
    | Ok (File c _) => exists m, resolve r (dest ++ q) = Ok (File c m)
    | Ok (Dir _ _) => exists es m, resolve r (dest ++ q) = Ok (Dir es m)
    | Ok _ => True
    | Err e => resolve r (dest ++ q) = Err e
    end.

(** The lines that [copy] and [copySync] share, over the way the destination
    is asked for ([statDest]) and the call made for the children
    ([recurse]). *)
Definition copy_body (statDest : path -> M (option Stats))
    (recurse : path -> path -> option CopyOptions -> M unit)
    (src dest : path) (options : option CopyOptions) : M unit :=
  FS.bind (stat src) (fun srcStat =>
  FS.bind (statDest dest) (fun destStat =>
    let overwrite := overwrite_flag options srcStat destStat in
    if isFile srcStat then
      match destStat with
      | Some d =>
          if overwrite then
            FS.bind (if isDirectory d then rm_recursive dest else ret tt)
              (fun _ => copyFile src dest)
          else ret tt
      | None => copyFile src dest
      end
    else if isDirectory srcStat then
      let is_file_dest :=
        match destStat with Some d => isFile d | None => false end in
      let continue :=
        FS.bind (mkdir_recursive dest) (fun _ =>
        FS.bind (readdir src) (fun files =>
        for_each files (fun file =>
          recurse (join src file) (join dest file) None))) in
      if is_file_dest then
        if overwrite then FS.bind (unlink dest) (fun _ => continue)
        else ret tt
      else continue
    else ret tt)).

(** [run] copies every tree of regular files and directories of depth below
    [bound] to a name that an existing directory does not have yet. *)
Definition copies_trees (bound : nat)
    (run : path -> path -> option CopyOptions -> M unit) : Prop :=
  forall src dest options st n d x es m,
    resolve (root st) src = Ok n ->
    plain n = true -> Collect.well_formed n = true ->
    Collect.depth n < bound ->
    dest = d ++ [x] ->
    resolve (root st) d = Ok (Dir es m) -> alookup x es = None ->
    below src dest = false ->
    exists st',
      run src dest options st = Done tt st' /\ mirrors (root st') dest n.

(** Every regular file of [r] is in [r'] as it was, and every directory of
    [r] is still a directory in [r']. *)
Definition keeps_entries (r r' : node) : Prop :=
  forall p,
    match resolve r p with
    | Ok (File c m) => resolve r' p = Ok (File c m)
    | Ok (Dir _ _) => exists es m, resolve r' p = Ok (Dir es m)
    | _ => True
    end.

(** However it ends, a computation keeps the files and directories there
    are. *)
Definition preserving {A : Type} (m : M A) : Prop :=
  forall s s', final (m s) = Some s' -> keeps_entries (root s) (root s').

Definition foo_bar : list chunk := [Str "foo"; Str "bar"].

End Scenario.

(* ================================================================== *)
(** * Facts about the file system *)
(* ================================================================== *)

Module FSFacts.
Import FS Scenario.

Lemma alookup_areplace x c y es :
  alookup y (areplace x c es) =
  if String.eqb x y
  then match alookup y es with Some _ => Some c | None => None end
  else alookup y es.
Proof.
  induction es as [|[z n] es IH]; simpl.
  - now destruct (String.eqb x y).
  - destruct (String.eqb y z) eqn:Eyz.
    + apply String.eqb_eq in Eyz; subst z.
      destruct (String.eqb x y) eqn:Exy; reflexivity.
    + rewrite IH. reflexivity.
Qed.

Lemma alookup_aremove x y es :
  alookup y (aremove x es) = if String.eqb x y then None else alookup y es.
Proof.
  induction es as [|[z n] es IH]; simpl.
  - now destruct (String.eqb x y).
  - destruct (String.eqb x z) eqn:Exz.
    + rewrite IH. apply String.eqb_eq in Exz; subst z.
      destruct (String.eqb x y) eqn:Exy; [reflexivity|].
      rewrite String.eqb_sym, Exy. reflexivity.
    + simpl. destruct (String.eqb y z) eqn:Eyz.
      * apply String.eqb_eq in Eyz; subst z. now rewrite Exz.
      * exact IH.
Qed.

Lemma alookup_app y es es' :
  alookup y (es ++ es') =
  match alookup y es with Some n => Some n | None => alookup y es' end.
Proof.
  induction es as [|[z n] es IH]; simpl; [reflexivity|].
  now destruct (String.eqb y z).
Qed.

Lemma resolve_app r p q :
  resolve r (p ++ q) =
  match resolve r p with Ok n => resolve n q | Err e => Err e end.
Proof.
  revert r; induction p as [|x p IH]; intros r; simpl; [reflexivity|].
  destruct r as [| es m | |]; try reflexivity.
  destruct (alookup x es); [apply IH | reflexivity].
Qed.

Lemma split_last_app d x : split_last (d ++ [x]) = Some (d, x).
Proof.
  induction d as [|y d IH]; simpl; [reflexivity|].
  rewrite IH. destruct (d ++ [x]) eqn:E; [|reflexivity].
  destruct d; discriminate.
Qed.

(** Nothing lies below a node that is not a directory. *)
Lemma resolve_below_leaf n q :
  is_dir n = false -> q <> [] -> resolve n q = Err ENOTDIR.
Proof.
  intros Hn Hq. destruct q as [|x q]; [congruence|].
  destruct n; simpl in *; congruence.
Qed.

(** [update_dir] succeeds where the directory resolves, and puts the new
    directory there. *)
Lemma update_dir_at d f : forall r es m n',
  resolve r d = Ok (Dir es m) -> f es m = Ok n' ->
  exists r', update_dir d f r = Ok r' /\ resolve r' d = Ok n'.
Proof.
  induction d as [|x d IH]; intros r es m n' Hr Hf; simpl in *.
  - inversion Hr; subst. exists n'. now split.
  - destruct r as [| es0 m0 | |]; try discriminate.
    destruct (alookup x es0) as [c|] eqn:Ex; [|discriminate].
    destruct (IH c es m n' Hr Hf) as [c' [Hu Hc']].
    rewrite Hu. eexists; split; [reflexivity|].
    simpl. rewrite alookup_areplace, String.eqb_refl, Ex. exact Hc'.
Qed.

(** Paths that leave the way to [d/x] before its end resolve as before. *)
Lemma update_dir_frame x f (Hf : local_to x f) d : forall r r' q,
  update_dir d f r = Ok r' ->
  below (d ++ [x]) q = false -> below q d = false ->
  resolve r' q = resolve r q.
Proof.
  induction d as [|z d IH]; intros r r' q Hu Hq1 Hq2.
  - destruct r as [| es m | |]; simpl in Hu; try discriminate.
    destruct (Hf _ _ _ Hu) as [es' [m' [-> Hes]]].
    destruct q as [|y q]; [discriminate|].
    simpl in Hq1. rewrite andb_true_r in Hq1.
    simpl. now rewrite (Hes y Hq1).
  - destruct r as [| es m | |]; simpl in Hu; try discriminate.
    destruct (alookup z es) as [c|] eqn:Ez; [|discriminate].
    destruct (update_dir d f c) as [c'|] eqn:Ec; [|discriminate].
    inversion Hu; subst r'; clear Hu.
    destruct q as [|y q]; [discriminate|].
    simpl in Hq1, Hq2. simpl. rewrite alookup_areplace.
    destruct (String.eqb z y) eqn:Ezy.
    + apply String.eqb_eq in Ezy; subst y. rewrite Ez.
      rewrite String.eqb_refl in Hq2. simpl in Hq1, Hq2.
      now apply IH.
    + reflexivity.
Qed.

Lemma below_inv d p : below d p = true -> exists q, p = d ++ q.
Proof.
  revert p; induction d as [|x d IH]; intros p H; simpl in *.
  - now exists p.
  - destruct p as [|y p]; [discriminate|].
    apply andb_prop in H as [H1 H2]. apply String.eqb_eq in H1; subst y.
    destruct (IH p H2) as [q ->]. now exists q.
Qed.

(** A path that resolves to a regular file is below no other path that
    resolves. *)
Lemma file_not_above r p q c m n :
  resolve r p = Ok (File c m) -> resolve r q = Ok n -> is_dir n = true ->
  below p q = false.
Proof.
  intros Hp Hq Hn. destruct (below p q) eqn:E; [|reflexivity].
  apply below_inv in E as [t ->].
  rewrite resolve_app, Hp in Hq.
  destruct t as [|x t]; simpl in Hq; [|discriminate].
  inversion Hq; subst n. discriminate.
Qed.

Lemma do_stat_ok r p n : resolve r p = Ok n -> do_stat p r = Ok (stats_of n).
Proof. unfold do_stat. now intros ->. Qed.

Lemma do_stat_err r p e : resolve r p = Err e -> do_stat p r = Err e.
Proof. unfold do_stat. now intros ->. Qed.

Lemma issued_app st l :
  issued st (mkState (root st) (clock st) (log st ++ l)) = l.
Proof.
  unfold issued; simpl.
  induction (log st) as [|c cs IH]; simpl; [reflexivity | exact IH].
Qed.

Lemma issued_app' st r c l : issued st (mkState r c (log st ++ l)) = l.
Proof.
  unfold issued; simpl.
  induction (log st) as [|x cs IH]; simpl; [reflexivity | exact IH].
Qed.

(** ** The mutating calls on paths that resolve *)

Lemma rm_local now x :
  local_to x (fun es _ =>
    match alookup x es with
    | None => Err ENOENT
    | Some _ => Ok (Dir (aremove x es) now)
    end).
Proof.
  intros es m n' H. destruct (alookup x es); [|discriminate].
  inversion H; subst. do 2 eexists; split; [reflexivity|].
  intros y Hy. now rewrite alookup_aremove, Hy.
Qed.

(** The parent directory of a path that resolves. *)
Lemma resolve_parent r d x n :
  resolve r (d ++ [x]) = Ok n ->
  exists es m, resolve r d = Ok (Dir es m) /\ alookup x es = Some n.
Proof.
  rewrite resolve_app. destruct (resolve r d) as [p|e]; [|discriminate].
  simpl. destruct p as [| es m | |]; try discriminate.
  destruct (alookup x es) as [c|] eqn:E; [|discriminate].
  intros H; inversion H; subst. now exists es, m.
Qed.

(** Removing [d/x] recursively: the entry is gone, the rest resolves as
    before. *)
Lemma do_rm_spec now r d x n :
  resolve r (d ++ [x]) = Ok n ->
  exists r' es m,
    do_rm now (d ++ [x]) r = Ok r' /\
    resolve r d = Ok (Dir es m) /\
    resolve r' d = Ok (Dir (aremove x es) now) /\
    resolve r' (d ++ [x]) = Err ENOENT /\
    forall q, below (d ++ [x]) q = false -> below q d = false ->
      resolve r' q = resolve r q.
Proof.
  intros H. destruct (resolve_parent _ _ _ H) as [es [m [Hd Hx]]].
  unfold do_rm. rewrite split_last_app.
  destruct (@update_dir_at d
              (fun es _ => match alookup x es with
                           | None => Err ENOENT
                           | Some _ => Ok (Dir (aremove x es) now)
                           end) r es m (Dir (aremove x es) now) Hd)
    as [r' [Hu Hr']].
  { now rewrite Hx. }
  exists r', es, m. repeat split; try assumption.
  - rewrite resolve_app, Hr'. simpl.
    now rewrite alookup_aremove, String.eqb_refl.
  - intros q Hq1 Hq2. eapply update_dir_frame; eauto using rm_local.
Qed.

(** Copying a regular file to [d/x]: the bytes arrive there, stamped with the
    clock, whenever [d] is a directory and [x] is absent or a regular file. *)
Lemma do_copyFile_spec now r src c m d x es md :
  resolve r src = Ok (File c m) ->
  resolve r d = Ok (Dir es md) ->
  (alookup x es = None \/ exists c' m', alookup x es = Some (File c' m')) ->
  exists r',
    do_copyFile now src (d ++ [x]) r = Ok r' /\
    resolve r' (d ++ [x]) = Ok (File c now).
Proof.
  intros Hs Hd Hx. unfold do_copyFile. rewrite Hs, split_last_app.
  destruct Hx as [Hx | [c' [m' Hx]]].
  - destruct (@update_dir_at d
                (fun es m =>
                   match alookup x es with
                   | None => Ok (Dir (es ++ [(x, File c now)]) now)
                   | Some (File _ _) =>
                       Ok (Dir (areplace x (File c now) es) m)
                   | Some (Dir _ _) | Some (Locked _) => Err EISDIR
                   | Some (Special _) => Ok (Dir es m)
                   end) r es md (Dir (es ++ [(x, File c now)]) now) Hd)
      as [r' [Hu Hr']].
    { now rewrite Hx. }
    exists r'. split; [exact Hu|].
    rewrite resolve_app, Hr'. simpl.
    now rewrite alookup_app, Hx; simpl; rewrite String.eqb_refl.
  - destruct (@update_dir_at d
                (fun es m =>
                   match alookup x es with
                   | None => Ok (Dir (es ++ [(x, File c now)]) now)
                   | Some (File _ _) =>
                       Ok (Dir (areplace x (File c now) es) m)
                   | Some (Dir _ _) | Some (Locked _) => Err EISDIR
                   | Some (Special _) => Ok (Dir es m)
                   end) r es md (Dir (areplace x (File c now) es) md) Hd)
      as [r' [Hu Hr']].
    { now rewrite Hx. }
    exists r'. split; [exact Hu|].
    rewrite resolve_app, Hr'. simpl.
    now rewrite alookup_areplace, String.eqb_refl, Hx.
Qed.

Lemma nonempty_path_split (p : path) :
  p <> [] -> exists d x, p = d ++ [x].
Proof.
  intros H. destruct (exists_last H) as [d [x E]]. now exists d, x.
Qed.

(** ** Trees of regular files and directories *)

Lemma plain_dir es m :
  plain (Dir es m) = forallb (fun e : string * node => plain (snd e)) es.
Proof.
  simpl. induction es as [|[x c] es IH]; simpl; [reflexivity|].
  now rewrite IH.
Qed.

Lemma plain_alookup es x c :
  forallb (fun e : string * node => plain (snd e)) es = true ->
  alookup x es = Some c -> plain c = true.
Proof.
  induction es as [|[y n] es IH]; simpl; [discriminate|].
  intros H. apply andb_prop in H as [Hn Hes].
  destruct (String.eqb x y); [|now apply IH].
  intros E; inversion E; now subst.
Qed.

Lemma plain_areplace es x c :
  forallb (fun e : string * node => plain (snd e)) es = true -> plain c = true ->
  forallb (fun e : string * node => plain (snd e)) (areplace x c es) = true.
Proof.
  intros Hes Hc. induction es as [|[y n] es IH]; simpl in *; [reflexivity|].
  apply andb_prop in Hes as [Hn Hes]. rewrite (IH Hes), andb_true_r.
  now destruct (String.eqb x y).
Qed.

Lemma plain_aremove es x :
  forallb (fun e : string * node => plain (snd e)) es = true ->
  forallb (fun e : string * node => plain (snd e)) (aremove x es) = true.
Proof.
  intros Hes. induction es as [|[y n] es IH]; simpl in *; [reflexivity|].
  apply andb_prop in Hes as [Hn Hes].
  destruct (String.eqb x y); [now apply IH|].
  simpl. now rewrite Hn, (IH Hes).
Qed.

Lemma plain_snoc es x c :
  forallb (fun e : string * node => plain (snd e)) es = true -> plain c = true ->
  forallb (fun e : string * node => plain (snd e)) (es ++ [(x, c)]) = true.
Proof.
  intros Hes Hc. rewrite forallb_app, Hes. simpl. now rewrite Hc.
Qed.

Lemma plain_resolve p : forall r n,
  plain r = true -> resolve r p = Ok n -> plain n = true.
Proof.
  induction p as [|x p IH]; intros r n Hr H; simpl in H.
  - now inversion H; subst.
  - destruct r as [| es m | |]; try discriminate.
    destruct (alookup x es) as [c|] eqn:E; [|discriminate].
    rewrite plain_dir in Hr. eauto using plain_alookup.
Qed.

Lemma plain_update_dir f d : forall r r',
  (forall es m n', forallb (fun e : string * node => plain (snd e)) es = true ->
     f es m = Ok n' -> plain n' = true) ->
  plain r = true -> update_dir d f r = Ok r' -> plain r' = true.
Proof.
  induction d as [|x d IH]; intros r r' Hf Hr Hu;
    (destruct r as [| es m | |]; simpl in Hu; try discriminate);
    rewrite plain_dir in Hr.
  - eauto.
  - destruct (alookup x es) as [c|] eqn:E; [|discriminate].
    destruct (update_dir d f c) as [c'|] eqn:Ec; [|discriminate].
    inversion Hu; subst r'. rewrite plain_dir.
    apply plain_areplace; [exact Hr|].
    eapply IH; eauto using plain_alookup.
Qed.

Lemma plain_mkchain now p : plain (mkchain now p) = true.
Proof.
  induction p as [|x p IH]; simpl; [reflexivity|]. now rewrite IH.
Qed.

Lemma plain_do_mkdirp now p : forall r r',
  plain r = true -> do_mkdirp now p r = Ok r' -> plain r' = true.
Proof.
  induction p as [|x p IH]; intros r r' Hr H; simpl in H.
  - destruct (is_dir r); [|discriminate]. now inversion H; subst.
  - destruct r as [| es m | |]; try discriminate.
    rewrite plain_dir in Hr.
    destruct (alookup x es) as [c|] eqn:E.
    + destruct (do_mkdirp now p c) as [c'|] eqn:Ec; [|discriminate].
      inversion H; subst r'. rewrite plain_dir.
      apply plain_areplace; [exact Hr|].
      apply (IH c c'); [eapply plain_alookup; eauto | exact Ec].
    + inversion H; subst r'. rewrite plain_dir.
      apply plain_snoc; [exact Hr | apply plain_mkchain].
Qed.

Lemma plain_do_rm now p r r' :
  plain r = true -> do_rm now p r = Ok r' -> plain r' = true.
Proof.
  unfold do_rm. destruct (split_last p) as [[d x]|]; [|discriminate].
  intros Hr. apply plain_update_dir; [|exact Hr].
  intros es m n' Hes H. destruct (alookup x es); [|discriminate].
  inversion H; subst. rewrite plain_dir. now apply plain_aremove.
Qed.

Lemma plain_do_unlink now p r r' :
  plain r = true -> do_unlink now p r = Ok r' -> plain r' = true.
Proof.
  unfold do_unlink. destruct (split_last p) as [[d x]|]; [|discriminate].
  intros Hr. apply plain_update_dir; [|exact Hr].
  intros es m n' Hes H. destruct (alookup x es) as [n|]; [|discriminate].
  destruct (is_dir n); [discriminate|].
  inversion H; subst. rewrite plain_dir. now apply plain_aremove.
Qed.

Lemma plain_do_copyFile now src dest r r' :
  plain r = true -> do_copyFile now src dest r = Ok r' -> plain r' = true.
Proof.
  unfold do_copyFile.
  destruct (resolve r src) as [[c m | | |]|]; try discriminate.
  destruct (split_last dest) as [[d x]|]; [|discriminate].
  intros Hr. apply plain_update_dir; [|exact Hr].
  intros es m' n' Hes H.
  destruct (alookup x es) as [[| | |]|]; inversion H; subst;
    rewrite plain_dir.
  - now apply plain_areplace.
  - exact Hes.
  - now apply plain_snoc.
Qed.

(** ** Calls on a destination that cannot be reached *)

(** Where resolving [d/x] is refused with an error other than [ENOENT],
    updating the directory [d] is refused with the same error. *)
Lemma update_dir_refused f d x : forall r e,
  resolve r (d ++ [x]) = Err e -> e <> ENOENT ->
  update_dir d f r = Err e.
Proof.
  induction d as [|y d IH]; intros r e H He.
  - destruct r as [| es m | |]; simpl in *.
    + exact H.
    + destruct (alookup x es); [discriminate | congruence].
    + exact H.
    + exact H.
  - destruct r as [| es m | |]; simpl in *; try exact H.
    destruct (alookup y es) as [c|]; [|congruence].
    now rewrite (IH c e H He).
Qed.

Lemma do_mkdirp_refused now p : forall r e,
  resolve r p = Err e -> e <> ENOENT -> do_mkdirp now p r = Err e.
Proof.
  induction p as [|x p IH]; intros r e H He; [discriminate|].
  destruct r as [| es m | |]; simpl in *; try exact H.
  destruct (alookup x es) as [c|]; [|congruence].
  now rewrite (IH c e H He).
Qed.

Lemma do_copyFile_refused now r src dest c m e :
  resolve r src = Ok (File c m) ->
  resolve r dest = Err e -> e <> ENOENT ->
  do_copyFile now src dest r = Err e.
Proof.
  intros Hs Hd He. unfold do_copyFile. rewrite Hs.
  assert (Hne : dest <> []) by (intros ->; discriminate).
  destruct (nonempty_path_split Hne) as [d [x ->]].
  rewrite split_last_app. now apply update_dir_refused with (x := x).
Qed.

End FSFacts.

(* ================================================================== *)
(** * Properties of [copy] and [copySync] *)
(* ================================================================== *)

Module CopySpec.
Import FS FSNotations Copy Scenario FSFacts.

(** Brings the log of a final state into the form [log st ++ calls]. *)
Ltac tidy_log :=
  unfold logged; cbn [root clock log];
  repeat rewrite <- app_assoc; try rewrite issued_app'; cbn [app].

(** When [stat(dest)] succeeds the two ways of asking agree. *)
Lemma stat_dest_found b st dest n :
  resolve (root st) dest = Ok n ->
  stat_catch_null dest st = Done (Some (stats_of n)) (logged (CallStat dest) st)
  /\ statSync_noThrow b dest st =
     Done (Some (stats_of n)) (logged (CallStat dest) st).
Proof.
  intros H. unfold stat_catch_null, statSync_noThrow, stat, query.
  now rewrite (do_stat_ok _ _ H).
Qed.

Lemma stat_found st p n :
  resolve (root st) p = Ok n ->
  stat p st = Done (stats_of n) (logged (CallStat p) st).
Proof. intros H. unfold stat, query. now rewrite (do_stat_ok _ _ H). Qed.

Lemma stat_missing st p e :
  resolve (root st) p = Err e ->
  stat p st = Fail e (logged (CallStat p) st).
Proof. intros H. unfold stat, query. now rewrite (do_stat_err _ _ H). Qed.

(** One unfolding of each function. *)
Lemma copy_step fuel src dest options :
  copy (S fuel) src dest options =
  (srcStat <- stat src ;;
   destStat <- stat_catch_null dest ;;
   let overwrite := overwrite_flag options srcStat destStat in
   if isFile srcStat then
     match destStat with
     | Some d =>
         if overwrite then
           (if isDirectory d then rm_recursive dest else ret tt) ;;
           copyFile src dest
         else ret tt
     | None => copyFile src dest
     end
   else if isDirectory srcStat then
     let is_file_dest :=
       match destStat with Some d => isFile d | None => false end in
     let continue :=
       mkdir_recursive dest ;;
       files <- readdir src ;;
       for_each files (fun file =>
         copy fuel (join src file) (join dest file) None) in
     if is_file_dest then
       if overwrite then unlink dest ;; continue else ret tt
     else continue
   else ret tt).
Proof. reflexivity. Qed.

Lemma copySync_step b fuel src dest options :
  copySync b (S fuel) src dest options =
  (srcStat <- stat src ;;
   destStat <- statSync_noThrow b dest ;;
   let overwrite := overwrite_flag options srcStat destStat in
   if isFile srcStat then
     match destStat with
     | Some d =>
         if overwrite then
           (if isDirectory d then rm_recursive dest else ret tt) ;;
           copyFile src dest
         else ret tt
     | None => copyFile src dest
     end
   else if isDirectory srcStat then
     let is_file_dest :=
       match destStat with Some d => isFile d | None => false end in
     let continue :=
       mkdir_recursive dest ;;
       files <- readdir src ;;
       for_each files (fun file =>
         copySync b fuel (join src file) (join dest file) None) in
     if is_file_dest then
       if overwrite then unlink dest ;; continue else ret tt
     else continue
   else ret tt).
Proof. reflexivity. Qed.

(** C3.  When the source path does not exist, [copy] and [copySync] fail
    with the error of the first [stat] ([ENOENT] for a missing entry), which
    is the only call they issue, and the tree (the destination with it) is
    left as it was. *)
Theorem source_absent_fails_at_once
    (b : bool) (fuel : nat) (src dest : path)
    (options : option CopyOptions) (st : state) (e : errno) :
  resolve (root st) src = Err e ->
  (exists st', copy (S fuel) src dest options st = Fail e st' /\
     root st' = root st /\ issued st st' = [CallStat src]) /\
  (exists st', copySync b (S fuel) src dest options st = Fail e st' /\
     root st' = root st /\ issued st st' = [CallStat src]).
Proof.
  intros H. rewrite copy_step, copySync_step. unfold bind.
  rewrite (stat_missing _ _ H).
  split; exists (logged (CallStat src) st);
    (split; [reflexivity | split; [reflexivity | apply issued_app]]).
Qed.

Lemma source_absent_witness :
  (exists st', copy 1 ["nope"] ["d"] always (at_time tree_dirs 9)
                 = Fail ENOENT st' /\
     root st' = tree_dirs /\
     issued (at_time tree_dirs 9) st' = [CallStat ["nope"]]) /\
  (exists st', copySync false 1 ["nope"] ["d"] always (at_time tree_dirs 9)
                 = Fail ENOENT st' /\
     root st' = tree_dirs /\
     issued (at_time tree_dirs 9) st' = [CallStat ["nope"]]).
Proof.
  apply (@source_absent_fails_at_once false 0 ["nope"] ["d"] always
           (at_time tree_dirs 9) ENOENT).
  reflexivity.
Defined.

Lemma isDirectory_stats n : isDirectory (stats_of n) = is_dir n.
Proof. now destruct n. Qed.

Lemma isFile_dir n : is_dir n = true -> isFile (stats_of n) = false.
Proof. now destruct n. Qed.

(** C5.  A directory source over an existing destination file, with options
    that do not permit overwriting: both functions return normally after the
    two [stat] calls and the whole tree is left as it was. *)
Theorem directory_over_file_denied
    (b : bool) (fuel : nat) (src dest : path)
    (options : option CopyOptions) (st : state)
    (n : node) (c : string) (m' : Z) :
  resolve (root st) src = Ok n ->
  is_dir n = true ->
  resolve (root st) dest = Ok (File c m') ->
  denies options = true ->
  (exists st', copy (S fuel) src dest options st = Done tt st' /\
     root st' = root st /\ issued st st' = [CallStat src; CallStat dest]) /\
  (exists st', copySync b (S fuel) src dest options st = Done tt st' /\
     root st' = root st /\ issued st st' = [CallStat src; CallStat dest]).
Proof.
  intros Hs Hn Hd Ho. rewrite copy_step, copySync_step. unfold bind.
  rewrite (stat_found _ _ Hs).
  assert (Hd' : resolve (root (logged (CallStat src) st)) dest
                = Ok (File c m')) by exact Hd.
  destruct (stat_dest_found b _ _ Hd') as [-> ->].
  assert (Hf : overwrite_flag options (stats_of n)
                 (Some (stats_of (File c m'))) = false).
  { unfold overwrite_flag. unfold denies in Ho.
    destruct (options_overwrite options) as [[]|]; try discriminate;
      reflexivity. }
  cbv beta zeta. rewrite Hf, (isFile_dir _ Hn), isDirectory_stats, Hn.
  cbn [stats_of isFile st_kind].
  split; eexists; (split; [reflexivity | split; [reflexivity|]]).
  - unfold logged; simpl. rewrite <- app_assoc. apply issued_app.
  - unfold logged; simpl. rewrite <- app_assoc. apply issued_app.
Qed.

Lemma directory_over_file_denied_witness :
  (exists st', copy 1 ["d"] ["g"] never (at_time tree_mixed 9) = Done tt st' /\
     root st' = tree_mixed /\
     issued (at_time tree_mixed 9) st' = [CallStat ["d"]; CallStat ["g"]]) /\
  (exists st', copySync false 1 ["d"] ["g"] never (at_time tree_mixed 9)
                 = Done tt st' /\
     root st' = tree_mixed /\
     issued (at_time tree_mixed 9) st' = [CallStat ["d"]; CallStat ["g"]]).
Proof.
  apply (@directory_over_file_denied false 0 ["d"] ["g"] never
           (at_time tree_mixed 9)
           (Dir [("old.txt", File "old" 1); ("k", Dir [] 1)] 1) "gee" 3);
    reflexivity.
Defined.

(** With a regular file as source and a destination that resolves, the two
    functions take the same steps. *)
Lemma file_source_agree b fuel src dest options st c m n :
  resolve (root st) src = Ok (File c m) ->
  resolve (root st) dest = Ok n ->
  copySync b (S fuel) src dest options st = copy (S fuel) src dest options st.
Proof.
  intros Hs Hd. rewrite copy_step, copySync_step. unfold bind.
  rewrite (stat_found _ _ Hs).
  assert (Hd' : resolve (root (logged (CallStat src) st)) dest = Ok n)
    by exact Hd.
  destruct (stat_dest_found b _ _ Hd') as [-> ->]. reflexivity.
Qed.

Lemma copyFile_run st src dest r' :
  do_copyFile (clock st) src dest (root st) = Ok r' ->
  copyFile src dest st =
  Done tt (mkState r' (clock st) (log st ++ [CallCopyFile src dest])).
Proof. intros H. unfold copyFile, command. now rewrite H. Qed.

Lemma rm_run st dest r' :
  do_rm (clock st) dest (root st) = Ok r' ->
  rm_recursive dest st =
  Done tt (mkState r' (clock st) (log st ++ [CallRm dest])).
Proof. intros H. unfold rm_recursive, command. now rewrite H. Qed.

(** X23.  [copy] or [copySync] called on two regular files with ['newer']
    (the call itself, not a child of a directory copy): the call returns
    normally; [copyFile] is issued if and only if the source's modification
    time is strictly greater than the destination's; when it is, the
    destination then holds the source's bytes; when the times are equal or
    the source is older, the tree is left as it was. *)
Theorem newer_file_vs_file
    (b : bool) (fuel : nat) (src dest : path) (st : state)
    (c1 : string) (m1 : Z) (c2 : string) (m2 : Z) (run : M unit) :
  resolve (root st) src = Ok (File c1 m1) ->
  resolve (root st) dest = Ok (File c2 m2) ->
  run = copy (S fuel) src dest newer \/
  run = copySync b (S fuel) src dest newer ->
  exists st', run st = Done tt st' /\
    (In (CallCopyFile src dest) (issued st st') <-> (m1 > m2)%Z) /\
    ((m1 > m2)%Z -> resolve (root st') dest = Ok (File c1 (clock st))) /\
    ((m1 <= m2)%Z -> root st' = root st).
Proof.
  intros Hs Hd Hrun.
  assert (E : run st = copy (S fuel) src dest newer st).
  { destruct Hrun as [-> | ->]; [reflexivity|].
    eapply file_source_agree; eauto. }
  rewrite E; clear E Hrun run.
  rewrite copy_step. unfold bind. rewrite (stat_found _ _ Hs).
  assert (Hd' : resolve (root (logged (CallStat src) st)) dest
                = Ok (File c2 m2)) by exact Hd.
  destruct (stat_dest_found b _ _ Hd') as [-> _].
  cbv beta zeta.
  replace (overwrite_flag newer (stats_of (File c1 m1))
             (Some (stats_of (File c2 m2)))) with (m1 >? m2)%Z
    by (unfold overwrite_flag; simpl; now destruct (m1 >? m2)%Z).
  cbn [stats_of isFile isDirectory st_kind].
  destruct (m1 >? m2)%Z eqn:Egt.
  - (* the source is newer *)
    assert (Hgt : (m1 > m2)%Z) by (apply Z.gtb_lt in Egt; lia).
    assert (Hne : dest <> []).
    { intros ->. simpl in Hd. inversion Hd as [Hr]. rewrite Hr in Hs.
      destruct src; simpl in Hs; [|discriminate].
      inversion Hs; lia. }
    destruct (nonempty_path_split Hne) as [d [x ->]].
    destruct (resolve_parent _ _ _ Hd) as [es [md [Hpd Hx]]].
    destruct (@do_copyFile_spec (clock st) (root st) src c1 m1 d x es md
                Hs Hpd) as [r' [Hcp Hr']].
    { right; eauto. }
    unfold ret at 1.
    rewrite (@copyFile_run (logged (CallStat (d ++ [x]))
                              (logged (CallStat src) st)) src (d ++ [x]) r')
      by exact Hcp.
    eexists; split; [reflexivity|]. tidy_log.
    split; [|split].
    + split; [intros _; exact Hgt | intros _; simpl; auto].
    + intros _; exact Hr'.
    + intros; lia.
  - (* equal times, or the source is older *)
    assert (Hle : (m1 <= m2)%Z).
    { destruct (Z.gtb_spec m1 m2); [discriminate | lia]. }
    eexists; split; [reflexivity|]. tidy_log.
    split; [|split].
    + split; [|intros; lia].
      intros [H | [H | []]]; discriminate.
    + intros; lia.
    + intros _; reflexivity.
Qed.

Lemma newer_file_vs_file_witness :
  exists st', copy 1 ["f"] ["g"] newer (at_time tree_mixed 9) = Done tt st' /\
    (In (CallCopyFile ["f"] ["g"]) (issued (at_time tree_mixed 9) st')
       <-> (7 > 3)%Z) /\
    ((7 > 3)%Z -> resolve (root st') ["g"] = Ok (File "new" 9)) /\
    ((7 <= 3)%Z -> root st' = tree_mixed).
Proof.
  apply (@newer_file_vs_file false 0 ["f"] ["g"] (at_time tree_mixed 9)
           "new" 7 "gee" 3 (copy 1 ["f"] ["g"] newer));
    [reflexivity | reflexivity | left; reflexivity].
Defined.

(** X24.  [copy] or [copySync] called with ['always'] on a regular file and
    an existing directory that does not contain the file (the call itself,
    not a child of a directory copy): the directory is removed with
    everything below it, and only then, on a tree where the destination no
    longer exists, the file is copied; afterwards the destination is a
    regular file with the source's bytes and nothing resolves below it. *)
Theorem file_replaces_directory
    (b : bool) (fuel : nat) (src dest : path) (st : state)
    (c : string) (m : Z) (n : node) (run : M unit) :
  resolve (root st) src = Ok (File c m) ->
  resolve (root st) dest = Ok n ->
  is_dir n = true ->
  below dest src = false ->
  run = copy (S fuel) src dest always \/
  run = copySync b (S fuel) src dest always ->
  exists st' r1,
    run st = Done tt st' /\
    issued st st' =
      [CallStat src; CallStat dest; CallRm dest; CallCopyFile src dest] /\
    do_rm (clock st) dest (root st) = Ok r1 /\
    resolve r1 dest = Err ENOENT /\
    do_copyFile (clock st) src dest r1 = Ok (root st') /\
    resolve (root st') dest = Ok (File c (clock st)) /\
    forall q, q <> [] -> resolve (root st') (dest ++ q) = Err ENOTDIR.
Proof.
  intros Hs Hd Hn Hout Hrun.
  assert (E : run st = copy (S fuel) src dest always st).
  { destruct Hrun as [-> | ->]; [reflexivity|].
    eapply file_source_agree; eauto. }
  rewrite E; clear E Hrun run.
  assert (Hne : dest <> []) by (intros ->; discriminate).
  destruct (nonempty_path_split Hne) as [d [x Edest]].
  rewrite Edest in Hd, Hout.
  destruct (do_rm_spec (clock st) _ _ _ Hd)
    as [r1 [es0 [m0 [Hrm [Hpd [Hpd1 [Hgone Hframe]]]]]]].
  assert (Hs1 : resolve r1 src = Ok (File c m)).
  { rewrite Hframe; [exact Hs | exact Hout |].
    eapply file_not_above; eauto. }
  destruct (@do_copyFile_spec (clock st) r1 src c m d x
              (aremove x es0) (clock st) Hs1 Hpd1) as [r2 [Hcp Hr2]].
  { left. now rewrite alookup_aremove, String.eqb_refl. }
  rewrite <- Edest in *. clear Edest.
  rewrite copy_step. unfold bind. rewrite (stat_found _ _ Hs).
  assert (Hd' : resolve (root (logged (CallStat src) st)) dest
                = Ok n) by exact Hd.
  destruct (stat_dest_found b _ _ Hd') as [-> _].
  cbv beta zeta.
  replace (overwrite_flag always (stats_of (File c m))
             (Some (stats_of n))) with true by reflexivity.
  rewrite isDirectory_stats, Hn.
  cbn [stats_of isFile st_kind].
  rewrite (@rm_run (logged (CallStat dest) (logged (CallStat src) st))
             dest r1) by exact Hrm.
  erewrite copyFile_run by exact Hcp.
  exists (mkState r2 (clock st)
            (log st ++ [CallStat src; CallStat dest; CallRm dest;
                        CallCopyFile src dest])), r1.
  split.
  { unfold logged; cbn [root clock log].
    repeat rewrite <- app_assoc. reflexivity. }
  split; [apply issued_app'|].
  repeat split; try assumption.
  intros q Hq. cbn [root]. rewrite resolve_app, Hr2.
  now apply resolve_below_leaf.
Qed.

Lemma file_replaces_directory_witness :
  exists st' r1,
    copy 1 ["f"] ["d"] always (at_time tree_mixed 9) = Done tt st' /\
    issued (at_time tree_mixed 9) st' =
      [CallStat ["f"]; CallStat ["d"]; CallRm ["d"];
       CallCopyFile ["f"] ["d"]] /\
    do_rm 9 ["d"] tree_mixed = Ok r1 /\
    resolve r1 ["d"] = Err ENOENT /\
    do_copyFile 9 ["f"] ["d"] r1 = Ok (root st') /\
    resolve (root st') ["d"] = Ok (File "new" 9) /\
    forall q, q <> [] -> resolve (root st') (["d"] ++ q) = Err ENOTDIR.
Proof.
  apply (@file_replaces_directory false 0 ["f"] ["d"] (at_time tree_mixed 9)
           "new" 7 (Dir [("old.txt", File "old" 1); ("k", Dir [] 1)] 1)
           (copy 1 ["f"] ["d"] always));
    [reflexivity | reflexivity | reflexivity | reflexivity
    | left; reflexivity].
Defined.

(** C4 fails on the code.  Source file [d/f], destination the existing
    directory [d], policy ['always']: lines 34-38 remove the destination
    without looking at where the source lies, so removing [d] removes the
    source; [copyFile] then fails with [ENOENT], the call fails, and nothing
    is left at the destination: neither the file that was to replace the
    directory nor the source. *)
Lemma file_inside_destination_lost :
  resolve tree_inside ["d"; "f"] = Ok (File "x" 1) /\
  resolve tree_inside ["d"]
    = Ok (Dir [("f", File "x" 1); ("g", File "y" 1)] 1) /\
  copy 1 ["d"; "f"] ["d"] always (at_time tree_inside 9)
    = Fail ENOENT
        (mkState (Dir [] 9) 9
           [CallStat ["d"; "f"]; CallStat ["d"]; CallRm ["d"];
            CallCopyFile ["d"; "f"] ["d"]]) /\
  ~ (exists st',
       copy 1 ["d"; "f"] ["d"] always (at_time tree_inside 9) = Done tt st' /\
       resolve (root st') ["d"] = Ok (File "x" 9)).
Proof.
  repeat split.
  intros [st' [H _]]. vm_compute in H. discriminate.
Qed.

(** The tree-copy scenario of the specification: the destination is absent,
    no options are given, and the source tree arrives whole. *)
Example copy_to_absent_destination :
  exists st',
    copy 3 ["s"] ["t"] None (at_time tree_dirs 9) = Done tt st' /\
    resolve (root st') ["t"; "a.txt"] = Ok (File "new" 9) /\
    resolve (root st') ["t"; "sub"; "b.txt"] = Ok (File "yo" 9) /\
    copySync false 3 ["s"] ["t"] None (at_time tree_dirs 9) = Done tt st'.
Proof.
  eexists. split; [vm_compute; reflexivity|]. repeat split; reflexivity.
Qed.

(** ** What the recursion does with the options *)

(** When source and destination are both directories the options are never
    looked at: line 57 calls [copy] on the children without them. *)
Lemma options_unused_between_directories
    (fuel : nat) (src dest : path) (options : option CopyOptions)
    (st : state) (es : entries_t) (m : Z) (es' : entries_t) (m' : Z) :
  resolve (root st) src = Ok (Dir es m) ->
  resolve (root st) dest = Ok (Dir es' m') ->
  copy fuel src dest options st = copy fuel src dest None st.
Proof.
  intros Hs Hd. destruct fuel as [|fuel]; [reflexivity|].
  rewrite !copy_step. unfold bind. rewrite (stat_found _ _ Hs).
  assert (Hd' : resolve (root (logged (CallStat src) st)) dest
                = Ok (Dir es' m')) by exact Hd.
  destruct (stat_dest_found false _ _ Hd') as [-> _].
  reflexivity.
Qed.

(** C1 fails on the code.  Source directory [s] with [a.txt = "new"],
    destination directory [d] with [a.txt = "old"], policy ['always']: both
    functions return normally, [d/a.txt] still holds ["old"], and no
    [copyFile] onto it was issued, because the children are copied without
    the options.  The child that was absent, [d/sub/b.txt], is copied. *)
Theorem always_is_lost_below_a_directory :
  (exists st',
     copy 3 ["s"] ["d"] always (at_time tree_dirs 9) = Done tt st' /\
     resolve (root st') ["s"; "a.txt"] = Ok (File "new" 5) /\
     resolve (root st') ["d"; "a.txt"] = Ok (File "old" 1) /\
     resolve (root st') ["d"; "sub"; "b.txt"] = Ok (File "yo" 9) /\
     ~ In (CallCopyFile ["s"; "a.txt"] ["d"; "a.txt"]) (log st')) /\
  (exists st',
     copySync false 3 ["s"] ["d"] always (at_time tree_dirs 9) = Done tt st' /\
     resolve (root st') ["s"; "a.txt"] = Ok (File "new" 5) /\
     resolve (root st') ["d"; "a.txt"] = Ok (File "old" 1) /\
     resolve (root st') ["d"; "sub"; "b.txt"] = Ok (File "yo" 9) /\
     ~ In (CallCopyFile ["s"; "a.txt"] ["d"; "a.txt"]) (log st')).
Proof.
  split; eexists; (split; [vm_compute; reflexivity|]);
    (repeat split; try reflexivity);
    cbn [log]; intros H; repeat (destruct H as [H | H]; [discriminate|]);
    exact H.
Qed.

(** C2 fails on the code.  Source directory [s] with [a.txt] modified at
    time 5, destination directory [d] with [a.txt] modified at time 1, policy
    ['newer']: the file-vs-file task for [a.txt] is a child of the directory
    copy, and the children are copied without the options, so the policy is
    never evaluated for it.  Both functions return normally, [d/a.txt] still
    holds ["old"] with its time 1 although the source is newer, and no
    [copyFile] onto it was issued. *)
Theorem newer_is_lost_below_a_directory :
  resolve tree_dirs ["s"; "a.txt"] = Ok (File "new" 5) /\
  resolve tree_dirs ["d"; "a.txt"] = Ok (File "old" 1) /\
  mtime_gt (stats_of (File "new" 5)) (Some (stats_of (File "old" 1))) = true /\
  (exists st',
     copy 3 ["s"] ["d"] newer (at_time tree_dirs 9) = Done tt st' /\
     resolve (root st') ["s"; "a.txt"] = Ok (File "new" 5) /\
     resolve (root st') ["d"; "a.txt"] = Ok (File "old" 1) /\
     ~ In (CallCopyFile ["s"; "a.txt"] ["d"; "a.txt"]) (log st')) /\
  (exists st',
     copySync false 3 ["s"] ["d"] newer (at_time tree_dirs 9) = Done tt st' /\
     resolve (root st') ["s"; "a.txt"] = Ok (File "new" 5) /\
     resolve (root st') ["d"; "a.txt"] = Ok (File "old" 1) /\
     ~ In (CallCopyFile ["s"; "a.txt"] ["d"; "a.txt"]) (log st')).
Proof.
  split; [reflexivity|]. split; [reflexivity|]. split; [reflexivity|].
  split; eexists; (split; [vm_compute; reflexivity|]);
    (repeat split; try reflexivity);
    cbn [log]; intros H; repeat (destruct H as [H | H]; [discriminate|]);
    exact H.
Qed.

(** ** The two functions side by side *)

Lemma keeps_ret {A} (a : A) : keeps_plain (ret a).
Proof. intros s a' s' Hs H. inversion H; now subst. Qed.

Lemma keeps_bind {A B} (m : M A) (k : A -> M B) :
  keeps_plain m -> (forall a, keeps_plain (k a)) -> keeps_plain (bind m k).
Proof.
  intros Hm Hk s b s' Hs H. unfold bind in H.
  destruct (m s) as [a s1 | |] eqn:E; try discriminate.
  eapply Hk; [|exact H]. eapply Hm; eauto.
Qed.

Lemma keeps_query {A} c (f : node -> result A) : keeps_plain (query c f).
Proof.
  intros s a s' Hs H. unfold query in H.
  destruct (f (root s)); inversion H; now subst.
Qed.

Lemma keeps_command c (f : Z -> node -> result node) :
  (forall now r r', plain r = true -> f now r = Ok r' -> plain r' = true) ->
  keeps_plain (command c f).
Proof.
  intros Hf s a s' Hs H. unfold command in H.
  destruct (f (clock s) (root s)) as [r'|] eqn:E; inversion H; subst.
  simpl. eauto.
Qed.

Lemma keeps_stat_catch_null p : keeps_plain (stat_catch_null p).
Proof.
  intros s a s' Hs H. unfold stat_catch_null, stat, query in H.
  destruct (do_stat p (root s)); inversion H; now subst.
Qed.

Lemma keeps_for_each {A} (f : A -> M unit) (l : list A) :
  (forall x, keeps_plain (f x)) -> keeps_plain (for_each l f).
Proof.
  intros Hf. induction l as [|x l IH]; simpl.
  - apply keeps_ret.
  - apply keeps_bind; [apply Hf | intros _; exact IH].
Qed.

Lemma keeps_rm p : keeps_plain (rm_recursive p).
Proof. apply keeps_command. intros; eapply plain_do_rm; eauto. Qed.

Lemma keeps_unlink p : keeps_plain (unlink p).
Proof. apply keeps_command. intros; eapply plain_do_unlink; eauto. Qed.

Lemma keeps_mkdir p : keeps_plain (mkdir_recursive p).
Proof. apply keeps_command. intros; eapply plain_do_mkdirp; eauto. Qed.

Lemma keeps_copyFile src dest : keeps_plain (copyFile src dest).
Proof. apply keeps_command. intros; eapply plain_do_copyFile; eauto. Qed.

Lemma keeps_timeout {A} : keeps_plain (@timeout A).
Proof. intros s a s' _ H. discriminate. Qed.

Create HintDb plain_db.
#[local] Hint Resolve keeps_ret keeps_query keeps_stat_catch_null keeps_rm
  keeps_unlink keeps_mkdir keeps_copyFile keeps_timeout : plain_db.

(** [copy] leaves a tree of regular files and directories such a tree. *)
Lemma copy_keeps_plain fuel : forall src dest options,
  keeps_plain (copy fuel src dest options).
Proof.
  induction fuel as [|fuel IH]; intros src dest options;
    [apply keeps_timeout|].
  rewrite copy_step.
  apply keeps_bind; [apply keeps_query | intros srcStat].
  apply keeps_bind; [apply keeps_stat_catch_null | intros destStat].
  cbv zeta.
  assert (Hcont : keeps_plain
    (mkdir_recursive dest ;;
     files <- readdir src ;;
     for_each files (fun file =>
       copy fuel (join src file) (join dest file) None))).
  { apply keeps_bind; [apply keeps_mkdir | intros _].
    apply keeps_bind; [apply keeps_query | intros files].
    apply keeps_for_each. intros file. apply IH. }
  destruct (isFile srcStat).
  - destruct destStat as [d|]; [|apply keeps_copyFile].
    destruct (overwrite_flag options srcStat (Some d)); [|apply keeps_ret].
    apply keeps_bind; [|intros _; apply keeps_copyFile].
    destruct (isDirectory d); auto with plain_db.
  - destruct (isDirectory srcStat); [|apply keeps_ret].
    destruct (match destStat with Some d => isFile d | None => false end);
      [|exact Hcont].
    destruct (overwrite_flag options srcStat destStat); [|apply keeps_ret].
    apply keeps_bind; [apply keeps_unlink | intros _; exact Hcont].
Qed.

Lemma bind_run {A B} (m : M A) (k : A -> M B) s :
  bind m k s =
  match m s with
  | Done a s' => k a s'
  | Fail e s' => Fail e s'
  | Timeout => Timeout
  end.
Proof. reflexivity. Qed.

Lemma agree_refl {A} (a : outcome A) : agree a a.
Proof. now left. Qed.

Lemma agrees_refl {A} (m : M A) : agrees m m.
Proof. intros s _. apply agree_refl. Qed.

Lemma agrees_bind {A B} (m : M A) (k1 k2 : A -> M B) :
  keeps_plain m -> (forall a, agrees (k1 a) (k2 a)) ->
  agrees (bind m k1) (bind m k2).
Proof.
  intros Hm Hk s Hs. unfold bind.
  destruct (m s) as [a s1 | e s1 |] eqn:E; try apply agree_refl.
  apply Hk. eapply Hm; eauto.
Qed.

Lemma agrees_for_each {A} (f g : A -> M unit) (l : list A) :
  (forall x, keeps_plain (f x)) -> (forall x, agrees (f x) (g x)) ->
  agrees (for_each l f) (for_each l g).
Proof.
  intros Hk Hfg. induction l as [|x l IH]; simpl; [apply agrees_refl|].
  intros s Hs. unfold bind.
  destruct (Hfg x s Hs) as [E | (e & s1 & s2 & E1 & E2 & Hr)].
  - rewrite <- E. destruct (f x s) as [[] s1 | e s1 |] eqn:Ef;
      try apply agree_refl.
    apply IH. eapply Hk; eauto.
  - rewrite E1, E2. right. now exists e, s1, s2.
Qed.

(** What follows the two [stat] calls agrees, once the children do. *)
Lemma rest_agrees b fuel src dest options srcStat destStat :
  (forall src dest options,
     agrees (copy fuel src dest options) (copySync b fuel src dest options)) ->
  agrees
    (let overwrite := overwrite_flag options srcStat destStat in
     if isFile srcStat then
       match destStat with
       | Some d =>
           if overwrite then
             (if isDirectory d then rm_recursive dest else ret tt) ;;
             copyFile src dest
           else ret tt
       | None => copyFile src dest
       end
     else if isDirectory srcStat then
       let is_file_dest :=
         match destStat with Some d => isFile d | None => false end in
       let continue :=
         mkdir_recursive dest ;;
         files <- readdir src ;;
         for_each files (fun file =>
           copy fuel (join src file) (join dest file) None) in
       if is_file_dest then
         if overwrite then unlink dest ;; continue else ret tt
       else continue
     else ret tt)
    (let overwrite := overwrite_flag options srcStat destStat in
     if isFile srcStat then
       match destStat with
       | Some d =>
           if overwrite then
             (if isDirectory d then rm_recursive dest else ret tt) ;;
             copyFile src dest
           else ret tt
       | None => copyFile src dest
       end
     else if isDirectory srcStat then
       let is_file_dest :=
         match destStat with Some d => isFile d | None => false end in
       let continue :=
         mkdir_recursive dest ;;
         files <- readdir src ;;
         for_each files (fun file =>
           copySync b fuel (join src file) (join dest file) None) in
       if is_file_dest then
         if overwrite then unlink dest ;; continue else ret tt
       else continue
     else ret tt).
Proof.
  intros IH. cbv zeta.
  destruct (isFile srcStat); [apply agrees_refl|].
  destruct (isDirectory srcStat); [|apply agrees_refl].
  assert (Hcont : agrees
    (mkdir_recursive dest ;;
     files <- readdir src ;;
     for_each files (fun file =>
       copy fuel (join src file) (join dest file) None))
    (mkdir_recursive dest ;;
     files <- readdir src ;;
     for_each files (fun file =>
       copySync b fuel (join src file) (join dest file) None))).
  { apply agrees_bind; [apply keeps_mkdir | intros _].
    apply agrees_bind; [apply keeps_query | intros files].
    apply agrees_for_each; intros file; [apply copy_keeps_plain | apply IH]. }
  destruct (match destStat with Some d => isFile d | None => false end);
    [|exact Hcont].
  destruct (overwrite_flag options srcStat destStat); [|apply agrees_refl].
  apply agrees_bind; [apply keeps_unlink | intros _; exact Hcont].
Qed.

(** On a tree of regular files and directories [copy] and [copySync] agree,
    whichever errors [statSync] throws: on every source, destination and
    options they leave the same tree and both return, or both fail with the
    same error code.  Where [copySync] throws at [statSync], [copy] fails at
    the [copyFile] or [mkdir] that follows. *)
Lemma copySync_agrees_with_copy b fuel : forall src dest options,
  agrees (copy fuel src dest options) (copySync b fuel src dest options).
Proof.
  induction fuel as [|fuel IH]; intros src dest options s Hs;
    [apply agree_refl|].
  rewrite copy_step, copySync_step.
  rewrite (bind_run (stat src)), (bind_run (stat src)).
  destruct (resolve (root s) src) as [n|e] eqn:Hsrc.
  2:{ rewrite (stat_missing _ _ Hsrc). apply agree_refl. }
  rewrite (stat_found _ _ Hsrc).
  set (s1 := logged (CallStat src) s).
  assert (Hs1 : plain (root s1) = true) by exact Hs.
  rewrite (bind_run (stat_catch_null dest)),
          (bind_run (statSync_noThrow b dest)).
  destruct (resolve (root s1) dest) as [n'|e'] eqn:Hdest.
  { destruct (stat_dest_found b _ _ Hdest) as [-> ->].
    apply (rest_agrees b fuel src dest options (stats_of n)
             (Some (stats_of n')) IH). exact Hs1. }
  unfold stat_catch_null, statSync_noThrow.
  rewrite (stat_missing _ _ Hdest).
  set (s2 := logged (CallStat dest) s1).
  destruct (no_entry b e') eqn:Hne.
  { apply (rest_agrees b fuel src dest options (stats_of n) None IH).
    exact Hs1. }
  assert (He' : e' <> ENOENT) by (intros ->; discriminate).
  pose proof (plain_resolve _ _ Hs Hsrc) as Hn.
  right. cbv zeta.
  destruct n as [c m | es m | m | m]; try discriminate;
    cbn [stats_of isFile isDirectory st_kind].
  - exists e', (logged (CallCopyFile src dest) s2), s2.
    repeat split. unfold copyFile, command.
    assert (Hcp : do_copyFile (clock s2) src dest (root s2) = Err e')
      by exact (@do_copyFile_refused (clock s2) _ _ _ _ _ _ Hsrc Hdest He').
    now rewrite Hcp.
  - exists e', (logged (CallMkdir dest) s2), s2.
    repeat split. unfold bind, mkdir_recursive, command.
    assert (Hmk : do_mkdirp (clock s2) dest (root s2) = Err e')
      by exact (@do_mkdirp_refused (clock s2) _ _ _ Hdest He').
    now rewrite Hmk.
  - exists e', (logged (CallMkdir dest) s2), s2.
    repeat split. unfold bind, mkdir_recursive, command.
    assert (Hmk : do_mkdirp (clock s2) dest (root s2) = Err e')
      by exact (@do_mkdirp_refused (clock s2) _ _ _ Hdest He').
    now rewrite Hmk.
Qed.

(** C7 fails on the code.  Source: the device node [dev]; destination:
    [locked/x], below a directory that may not be searched, so that [stat]
    of the destination fails with [EACCES].  [copy] turns the failed [stat]
    into [null], finds the source neither file nor directory and resolves;
    [copySync] throws the [EACCES] of [statSync], whatever the platform makes
    of [ENOTDIR]. *)
Theorem copySync_throws_where_copy_resolves :
  copy 1 ["dev"] ["locked"; "x"] None (at_time tree_mixed 9)
    = Done tt (mkState tree_mixed 9
                 [CallStat ["dev"]; CallStat ["locked"; "x"]]) /\
  forall b,
    copySync b 1 ["dev"] ["locked"; "x"] None (at_time tree_mixed 9)
    = Fail EACCES (mkState tree_mixed 9
                     [CallStat ["dev"]; CallStat ["locked"; "x"]]).
Proof. split; [reflexivity | intros []; reflexivity]. Qed.

End CopySpec.

(* ================================================================== *)
(** * Properties of [collectFiles] *)
(* ================================================================== *)

Module CollectSpec.
Import FS FSNotations Collect Scenario FSFacts.

(** Induction over a tree: a directory inherits from all its entries. *)
Lemma node_tree_ind (P : node -> Prop) :
  (forall c m, P (File c m)) ->
  (forall m, P (Special m)) ->
  (forall m, P (Locked m)) ->
  (forall es m, Forall (fun e => P (snd e)) es -> P (Dir es m)) ->
  forall n, P n.
Proof.
  intros HF HS HL HD.
  fix IH 1. intros [c m | es m | m | m];
    [apply HF | | apply HS | apply HL].
  apply HD. induction es as [|[x c] es IHes]; constructor.
  - simpl. apply IH.
  - exact IHes.
Qed.

(** ** The functions on a tree, entry by entry *)

Lemma files_under_dir dir es m :
  files_under dir (Dir es m) =
  flat_map (fun e =>
    if is_dir (snd e) then files_under (join dir (fst e)) (snd e)
    else [join dir (fst e)]) es.
Proof.
  simpl. induction es as [|[x c] es IH]; simpl; [reflexivity|].
  now rewrite IH.
Qed.

Lemma dirs_under_dir dir es m :
  dirs_under dir (Dir es m) =
  dir :: flat_map (fun e => dirs_under (join dir (fst e)) (snd e)) es.
Proof.
  simpl. f_equal. induction es as [|[x c] es IH]; simpl; [reflexivity|].
  now rewrite IH.
Qed.

Lemma count_files_dir es m :
  count_files (Dir es m) = list_sum (map (fun e => count_files (snd e)) es).
Proof.
  simpl. induction es as [|[x c] es IH]; simpl; [reflexivity|].
  now rewrite IH.
Qed.

Lemma count_dirs_dir es m :
  count_dirs (Dir es m) =
  S (list_sum (map (fun e => count_dirs (snd e)) es)).
Proof.
  simpl. f_equal. induction es as [|[x c] es IH]; simpl; [reflexivity|].
  now rewrite IH.
Qed.

Lemma depth_dir es m e :
  In e es -> depth (snd e) < depth (Dir es m).
Proof.
  simpl. induction es as [|[x c] es IH]; intros H; [destruct H|].
  destruct H as [<- | H]; simpl.
  - lia.
  - specialize (IH H). lia.
Qed.

Lemma well_formed_dir es m :
  well_formed (Dir es m) = true ->
  distinct (map fst es) = true /\
  forall e, In e es -> well_formed (snd e) = true.
Proof.
  simpl. intros H. apply andb_prop in H as [H1 H2]. split; [exact H1|].
  clear H1. induction es as [|[x c] es IH]; intros e He; [destruct He|].
  apply andb_prop in H2 as [Hc Hes].
  destruct He as [<- | He]; [exact Hc | now apply IH].
Qed.

Lemma name_in_false x l :
  name_in x l = false -> forall y, In y l -> String.eqb x y = false.
Proof.
  induction l as [|z l IH]; intros H y Hy; [destruct Hy|].
  simpl in H. apply orb_false_elim in H as [H1 H2].
  destruct Hy as [<- | Hy]; [exact H1 | now apply IH].
Qed.

(** In a directory without repeated names, looking a name up finds the entry
    that carries it. *)
Lemma alookup_distinct es x c :
  distinct (map fst es) = true -> In (x, c) es -> alookup x es = Some c.
Proof.
  induction es as [|[y n] es IH]; intros Hd Hin; [destruct Hin|].
  simpl in Hd. apply andb_prop in Hd as [Hy Hes].
  apply negb_true_iff in Hy.
  destruct Hin as [E | Hin].
  - inversion E; subst. simpl. now rewrite String.eqb_refl.
  - simpl. destruct (String.eqb x y) eqn:Exy.
    + apply String.eqb_eq in Exy; subst y. exfalso.
      assert (K := name_in_false _ _ Hy x (in_map fst _ _ Hin)).
      rewrite String.eqb_refl in K. discriminate.
    + now apply IH.
Qed.

Lemma collect_step fuel filter dir entries :
  collect (S fuel) filter dir entries =
  (dirEntries <- readdir_types dir ;;
   for_each_acc dirEntries entries (fun entry entries =>
     let entryPath := join dir (fst entry) in
     if snd entry then collect fuel filter entryPath entries
     else if accepts filter entryPath then ret (entries ++ [entryPath])
     else ret entries)).
Proof. reflexivity. Qed.

Lemma readdir_types_run st dir es m :
  resolve (root st) dir = Ok (Dir es m) ->
  readdir_types dir st =
  Done (map (fun e => (fst e, is_dir (snd e))) es)
       (logged (CallReaddir dir) st).
Proof.
  intros H. unfold readdir_types, query, do_readdir_types. now rewrite H.
Qed.

Lemma dirs_under_leaf dir c : is_dir c = false -> dirs_under dir c = [].
Proof. now destruct c. Qed.

(** With fuel for the depth of the tree, [collect] appends to [entries] the
    accepted files of the tree and reads each of its directories once. *)
Lemma collect_spec filter : forall fuel dir n st acc,
  resolve (root st) dir = Ok n ->
  is_dir n = true -> well_formed n = true -> depth n <= fuel ->
  collect fuel filter dir acc st =
  Done (acc ++ List.filter (accepts filter) (files_under dir n))
       (mkState (root st) (clock st)
          (log st ++ map CallReaddir (dirs_under dir n))).
Proof.
  induction fuel as [|fuel IH]; intros dir n st acc Hr Hdir Hwf Hdepth.
  - destruct n; simpl in *; try discriminate; lia.
  - destruct n as [| es m | |]; try discriminate.
    destruct (well_formed_dir _ _ Hwf) as [Hnames Hsub].
    rewrite collect_step. unfold bind at 1.
    rewrite (readdir_types_run _ _ Hr).
    rewrite files_under_dir, dirs_under_dir.
    set (body := fun (entry : string * bool) (entries : list path) =>
      let entryPath := join dir (fst entry) in
      if snd entry then collect fuel filter entryPath entries
      else if accepts filter entryPath then ret (entries ++ [entryPath])
      else ret entries).
    assert (Inner : forall es2 acc' st',
      root st' = root st -> incl es2 es ->
      for_each_acc (map (fun e => (fst e, is_dir (snd e))) es2) acc' body st'
      = Done
          (acc' ++ List.filter (accepts filter)
             (flat_map (fun e =>
                if is_dir (snd e)
                then files_under (join dir (fst e)) (snd e)
                else [join dir (fst e)]) es2))
          (mkState (root st') (clock st')
             (log st' ++ map CallReaddir
                (flat_map (fun e => dirs_under (join dir (fst e)) (snd e))
                   es2)))).
    { induction es2 as [|[x c] es2 IHes]; intros acc' st' Hroot Hincl.
      - simpl. rewrite !app_nil_r. now destruct st'.
      - assert (Hin : In (x, c) es) by (apply Hincl; now left).
        assert (Hrest : incl es2 es)
          by (intros e He; apply Hincl; now right).
        cbn [map for_each_acc fst snd flat_map]. unfold bind at 1.
        unfold body at 1. cbn [fst snd]. cbv zeta.
        destruct (is_dir c) eqn:Ec.
        + rewrite (IH (join dir x) c st' acc').
          * rewrite IHes by (cbn [root]; assumption).
            cbn [root clock log].
            rewrite filter_app, map_app, !app_assoc. reflexivity.
          * rewrite Hroot. unfold join. rewrite resolve_app, Hr. simpl.
            now rewrite (alookup_distinct _ _ _ Hnames Hin).
          * exact Ec.
          * exact (Hsub _ Hin).
          * pose proof (depth_dir es m _ Hin) as Hlt. simpl snd in Hlt. lia.
        + rewrite (dirs_under_leaf _ _ Ec). cbn [app].
          destruct (accepts filter (join dir x)) eqn:Ea.
          * unfold ret at 1. rewrite IHes by assumption.
            cbn [List.filter app]. rewrite Ea.
            rewrite <- app_assoc. reflexivity.
          * unfold ret at 1. rewrite IHes by assumption.
            cbn [List.filter app]. rewrite Ea. reflexivity. }
    rewrite Inner; [| reflexivity | apply incl_refl].
    unfold logged; cbn [root clock log map].
    rewrite <- app_assoc. reflexivity.
Qed.

(** The files listed are as many as the tree has. *)
Lemma files_under_length : forall n dir,
  is_dir n = true -> List.length (files_under dir n) = count_files n.
Proof.
  induction n as [| | | es m IH] using node_tree_ind; intros dir Hd;
    try discriminate; try reflexivity.
  rewrite files_under_dir, count_files_dir. clear Hd.
  induction es as [|[x c] es IHes]; [reflexivity|].
  inversion IH as [|? ? Hc Hes]; subst.
  cbn [flat_map map list_sum fold_right fst snd] in *. rewrite length_app.
  rewrite (IHes Hes). f_equal.
  destruct (is_dir c) eqn:Ec; [now apply Hc|].
  destruct c; simpl in *; try discriminate; reflexivity.
Qed.

Lemma dirs_under_length : forall n dir,
  List.length (dirs_under dir n) = count_dirs n.
Proof.
  induction n as [| | | es m IH] using node_tree_ind; intros dir;
    try reflexivity.
  rewrite dirs_under_dir, count_dirs_dir. cbn [List.length]. f_equal.
  induction es as [|[x c] es IHes]; [reflexivity|].
  inversion IH as [|? ? Hc Hes]; subst.
  cbn [flat_map map list_sum fold_right fst snd] in *. rewrite length_app.
  now rewrite (IHes Hes), Hc.
Qed.

(** Every path listed resolves, inside the tree, to something that is not a
    directory. *)
Lemma files_under_not_dirs : forall n dir p,
  well_formed n = true -> In p (files_under dir n) ->
  exists q c, p = dir ++ q /\ resolve n q = Ok c /\ is_dir c = false.
Proof.
  induction n as [| | | es m IH] using node_tree_ind; intros dir p Hwf Hin;
    try (destruct Hin).
  destruct (well_formed_dir _ _ Hwf) as [Hnames Hsub].
  rewrite files_under_dir in Hin. apply in_flat_map in Hin as [[x c] [He Hp]].
  cbn [fst snd] in Hp.
  rewrite Forall_forall in IH.
  pose proof (alookup_distinct _ _ _ Hnames He) as Hx.
  destruct (is_dir c) eqn:Ec.
  - destruct (IH _ He (join dir x) p (Hsub _ He) Hp) as [q [c' [-> [Hq Hc']]]].
    exists (x :: q), c'. unfold join. rewrite <- app_assoc.
    repeat split; [| exact Hc']. simpl. now rewrite Hx.
  - destruct Hp as [<- | []]. exists [x], c.
    repeat split; [| exact Ec]. simpl. now rewrite Hx.
Qed.

Lemma filter_accepts_none (l : list path) :
  List.filter (accepts None) l = l.
Proof. induction l as [|p l IH]; simpl; [reflexivity | now rewrite IH]. Qed.

(** C6.  For a well-formed tree at [dir] with [count_files] entries that are
    not directories and [count_dirs] directories, and fuel for its depth:
    without a filter [collectFiles] returns the tree's file paths, exactly
    [count_files] of them; with a filter [f] it returns those of the tree's
    file paths, each joined from [dir] down, for which [f] holds, and no
    other; none of the paths returned resolves to a directory; and whatever
    the filter says, [readdir] is issued once for each of the [count_dirs]
    directories and the tree is left as it was. *)
Theorem collectFiles_lists_the_files
    (st : state) (dir : path) (n : node) (fuel : nat)
    (filter : option FileFilter) :
  resolve (root st) dir = Ok n ->
  is_dir n = true ->
  well_formed n = true ->
  depth n <= fuel ->
  exists st' l,
    collectFiles fuel dir filter st = Done l st' /\
    l = match filter with
        | Some f => List.filter f (files_under dir n)
        | None => files_under dir n
        end /\
    List.length (files_under dir n) = count_files n /\
    (filter = None -> List.length l = count_files n) /\
    Forall (fun p => exists c, resolve (root st) p = Ok c /\ is_dir c = false)
      l /\
    root st' = root st /\
    issued st st' = map CallReaddir (dirs_under dir n) /\
    List.length (issued st st') = count_dirs n.
Proof.
  intros Hr Hd Hwf Hfuel. unfold collectFiles.
  rewrite (collect_spec filter _ _ [] Hr Hd Hwf Hfuel). cbn [app].
  do 2 eexists. split; [reflexivity|].
  split.
  { destruct filter as [f|]; [reflexivity | apply filter_accepts_none]. }
  split; [now apply files_under_length|].
  split.
  { intros ->. rewrite filter_accepts_none. now apply files_under_length. }
  split.
  { apply Forall_forall. intros p Hp. apply filter_In in Hp as [Hp _].
    destruct (files_under_not_dirs _ _ _ Hwf Hp) as [q [c [-> [Hq Hc]]]].
    exists c. split; [|exact Hc]. now rewrite resolve_app, Hr. }
  split; [reflexivity|].
  rewrite issued_app.
  split; [reflexivity|].
  rewrite length_map. apply dirs_under_length.
Qed.

Lemma collectFiles_witness :
  (exists st' l,
     collectFiles 2 ["s"] None (at_time tree_dirs 9) = Done l st' /\
     l = [["s"; "a.txt"]; ["s"; "sub"; "b.txt"]] /\
     List.length
       (files_under ["s"]
          (Dir [("a.txt", File "new" 5);
                ("sub", Dir [("b.txt", File "yo" 1)] 1)] 5)) = 2 /\
     (@None FileFilter = None -> List.length l = 2) /\
     Forall (fun p => exists c, resolve tree_dirs p = Ok c /\ is_dir c = false)
       l /\
     root st' = tree_dirs /\
     issued (at_time tree_dirs 9) st' =
       map CallReaddir
         (dirs_under ["s"]
            (Dir [("a.txt", File "new" 5);
                  ("sub", Dir [("b.txt", File "yo" 1)] 1)] 5)) /\
     List.length (issued (at_time tree_dirs 9) st') = 2) /\
  (exists st' l,
     collectFiles 2 ["s"] (Some (fun p => Nat.eqb (List.length p) 3))
       (at_time tree_dirs 9) = Done l st' /\
     l = [["s"; "sub"; "b.txt"]] /\
     List.length
       (files_under ["s"]
          (Dir [("a.txt", File "new" 5);
                ("sub", Dir [("b.txt", File "yo" 1)] 1)] 5)) = 2 /\
     (Some (fun p : path => Nat.eqb (List.length p) 3) = None ->
      List.length l = 2) /\
     Forall (fun p => exists c, resolve tree_dirs p = Ok c /\ is_dir c = false)
       l /\
     root st' = tree_dirs /\
     issued (at_time tree_dirs 9) st' =
       map CallReaddir
         (dirs_under ["s"]
            (Dir [("a.txt", File "new" 5);
                  ("sub", Dir [("b.txt", File "yo" 1)] 1)] 5)) /\
     List.length (issued (at_time tree_dirs 9) st') = 2).
Proof.
  split.
  - apply (@collectFiles_lists_the_files (at_time tree_dirs 9) ["s"]
             (Dir [("a.txt", File "new" 5);
                   ("sub", Dir [("b.txt", File "yo" 1)] 1)] 5) 2 None);
      [reflexivity | reflexivity | reflexivity | simpl; lia].
  - apply (@collectFiles_lists_the_files (at_time tree_dirs 9) ["s"]
             (Dir [("a.txt", File "new" 5);
                   ("sub", Dir [("b.txt", File "yo" 1)] 1)] 5) 2
             (Some (fun p => Nat.eqb (List.length p) 3)));
      [reflexivity | reflexivity | reflexivity | simpl; lia].
Defined.

End CollectSpec.

(* ================================================================== *)
(** * Properties of the stream helpers *)
(* ================================================================== *)

Module StreamSpec.
Import Stream Scenario.

Lemma stored_cons om c l : stored om (c :: l) = stored om [c] ++ stored om l.
Proof.
  simpl. destruct om; [reflexivity|].
  now destruct (Nat.ltb 0 (chunk_length (to_buffer c))).
Qed.

Lemma stored_object l : stored true l = l.
Proof. induction l as [|c l IH]; simpl; [reflexivity | now rewrite IH]. Qed.

Lemma push_some_live r c :
  live r ->
  push (Some c) r =
  mkReadable (objectMode r) (input r)
    (buffer r ++ stored (objectMode r) [c]) false None false.
Proof.
  intros (He & Hx & Hd). destruct r as [om inp buf e x d]; simpl in *.
  subst e x d. unfold push, has_error; simpl.
  destruct om; simpl; [reflexivity|].
  destruct (Nat.ltb 0 (chunk_length (to_buffer c))); [reflexivity|].
  now rewrite app_nil_r.
Qed.

Lemma push_null_live r :
  live r ->
  push None r = mkReadable (objectMode r) (input r) (buffer r) true None false.
Proof.
  intros (He & Hx & Hd). destruct r as [om inp buf e x d]; simpl in *.
  now subst e x d.
Qed.

(** After [null], a pushable element destroys the stream with
    [ERR_STREAM_PUSH_AFTER_EOF]; anything else changes nothing. *)
Lemma push_after_end om inp buf l :
  fold_left (fun r element => push element r) l
    (mkReadable om inp buf true None false) =
  if existsb (pushable om) l
  then mkReadable om inp buf true (Some ERR_STREAM_PUSH_AFTER_EOF) true
  else mkReadable om inp buf true None false.
Proof.
  induction l as [|c l IH]; [reflexivity|].
  cbn [fold_left existsb].
  destruct (pushable om c) eqn:Ep.
  - cbn [orb].
    assert (E : push c (mkReadable om inp buf true None false) =
                mkReadable om inp buf true
                  (Some ERR_STREAM_PUSH_AFTER_EOF) true).
    { destruct c as [c|]; [|discriminate].
      unfold push, pushable in *; cbn [objectMode ended] in *.
      destruct om; [reflexivity|]. simpl in Ep. now rewrite Ep. }
    rewrite E. clear IH E Ep.
    induction l as [|c' l IH]; [reflexivity|].
    cbn [fold_left].
    assert (E : push c' (mkReadable om inp buf true
                           (Some ERR_STREAM_PUSH_AFTER_EOF) true) =
                mkReadable om inp buf true
                  (Some ERR_STREAM_PUSH_AFTER_EOF) true).
    { destruct c' as [c'|]; [|reflexivity].
      unfold push; cbn [objectMode ended].
      destruct (om || Nat.ltb 0
                  (chunk_length (if om then c' else to_buffer c')));
        reflexivity. }
    now rewrite E.
  - cbn [orb].
    assert (E : push c (mkReadable om inp buf true None false) =
                mkReadable om inp buf true None false).
    { destruct c as [c|]; [|reflexivity].
      unfold push, pushable in *; cbn [objectMode ended] in *.
      destruct om; [discriminate|]. simpl in Ep. now rewrite Ep. }
    now rewrite E.
Qed.

(** The body of [read()] on a live stream, for any array. *)
Lemma read_body_spec : forall (l : list ReadableChunk) (r : Readable),
  live r ->
  push None (fold_left (fun r element => push element r) l r) =
  mkReadable (objectMode r) (input r)
    (buffer r ++ stored (objectMode r) (null_free_prefix l)) true
    (if pushes_after_eof (objectMode r) l
     then Some ERR_STREAM_PUSH_AFTER_EOF else None)
    (pushes_after_eof (objectMode r) l).
Proof.
  induction l as [|[c|] l IH]; intros r Hr.
  - cbn [fold_left null_free_prefix stored]. rewrite push_null_live by exact Hr.
    now rewrite app_nil_r.
  - cbn [fold_left]. rewrite push_some_live by exact Hr.
    rewrite IH by (repeat split). cbn [objectMode input buffer].
    unfold pushes_after_eof. cbn [null_free_prefix after_first_null].
    rewrite (stored_cons _ c (null_free_prefix l)), app_assoc.
    reflexivity.
  - cbn [fold_left]. rewrite (push_null_live Hr).
    rewrite push_after_end. unfold pushes_after_eof.
    cbn [after_first_null null_free_prefix stored]. rewrite app_nil_r.
    destruct (existsb (pushable (objectMode r)) l); reflexivity.
Qed.

(** What [read()] leaves in a stream fresh from [arrayToStream]. *)
Lemma read_fresh input om :
  _read (arrayToStream input om) =
  mkReadable (mode_of input om) input
    (stored (mode_of input om) (null_free_prefix input)) true
    (if pushes_after_eof (mode_of input om) input
     then Some ERR_STREAM_PUSH_AFTER_EOF else None)
    (pushes_after_eof (mode_of input om) input).
Proof.
  unfold _read. rewrite read_body_spec by (repeat split). reflexivity.
Qed.

(** ** Consuming a stream with [for await] *)

Lemma null_free_prefix_length input :
  List.length (null_free_prefix input) <= List.length input.
Proof.
  induction input as [|[c|] l IH]; simpl; lia.
Qed.

(** An ended object-mode stream hands out what it holds, chunk by chunk, and
    the iteration then returns. *)
Lemma for_await_ended_object {S : Type} (body : chunk -> S -> S) inp :
  forall buf fuel s,
    List.length buf < fuel ->
    for_await fuel (mkReadable true inp buf true None false) body s =
    Some (Resolved (fold_left (fun s c => body c s) buf s)).
Proof.
  induction buf as [|c buf IH]; intros fuel s Hf;
    (destruct fuel as [|fuel]; [simpl in Hf; lia|]).
  - reflexivity.
  - cbn [for_await destroyed]. unfold read, has_error.
    cbn [ended destroyed errored buffer objectMode input orb fold_left].
    apply IH. simpl in Hf. lia.
Qed.

(** The first [read()] of a fresh stream runs the body of [read()]. *)
Lemma read_first input om :
  read (arrayToStream input om) =
  let r1 := _read (arrayToStream input om) in
  match buffer r1 with
  | [] => (None, r1)
  | c :: rest =>
      if objectMode r1 then
        (Some c, mkReadable (objectMode r1) (Stream.input r1) rest (ended r1)
                   (errored r1) (destroyed r1))
      else
        (Some (Buf (concat_bytes (c :: rest))),
         mkReadable (objectMode r1) (Stream.input r1) [] (ended r1)
           (errored r1) (destroyed r1))
  end.
Proof. reflexivity. Qed.

(** Iterating a fresh stream whose array has nothing pushable after its first
    [null]: the body sees what [emitted] says, then the iteration returns. *)
Lemma for_await_fresh_clean {S : Type} (body : chunk -> S -> S)
    input om fuel s :
  pushes_after_eof (mode_of input om) input = false ->
  List.length input < fuel ->
  for_await fuel (arrayToStream input om) body s =
  Some (Resolved (fold_left (fun s c => body c s)
                    (emitted (mode_of input om) (null_free_prefix input)) s)).
Proof.
  intros Hclean Hf. destruct fuel as [|fuel]; [lia|].
  cbn [for_await]. change (destroyed (arrayToStream input om)) with false.
  cbv iota. rewrite read_first, read_fresh, Hclean. cbv zeta.
  cbn [buffer objectMode Stream.input ended errored destroyed].
  pose proof (null_free_prefix_length input) as Hlen.
  unfold emitted. destruct (mode_of input om).
  - rewrite stored_object.
    destruct (null_free_prefix input) as [|c rest]; [reflexivity|].
    cbn [fold_left]. apply for_await_ended_object. simpl in Hlen. lia.
  - destruct (stored false (null_free_prefix input)) as [|c rest] eqn:Es;
      [reflexivity|].
    destruct fuel as [|fuel].
    { destruct input; simpl in *; [discriminate | lia]. }
    reflexivity.
Qed.

(** Iterating a fresh stream whose array has a pushable element after its
    first [null]: the iteration throws [ERR_STREAM_PUSH_AFTER_EOF]. *)
Lemma for_await_fresh_dirty {S : Type} (body : chunk -> S -> S)
    input om fuel s :
  pushes_after_eof (mode_of input om) input = true ->
  2 <= fuel ->
  for_await fuel (arrayToStream input om) body s =
  Some (Rejected ERR_STREAM_PUSH_AFTER_EOF).
Proof.
  intros Hdirty Hf. destruct fuel as [|[|fuel]]; try lia.
  cbn [for_await]. change (destroyed (arrayToStream input om)) with false.
  cbv iota. rewrite read_first, read_fresh, Hdirty. cbv zeta.
  cbn [buffer objectMode Stream.input ended errored destroyed].
  destruct (stored (mode_of input om) (null_free_prefix input));
    [reflexivity|].
  destruct (mode_of input om); reflexivity.
Qed.

Lemma fold_left_snoc (l acc : list chunk) :
  fold_left (fun output chunk => output ++ [chunk]) l acc = acc ++ l.
Proof.
  revert acc; induction l as [|c l IH]; intros acc; simpl.
  - now rewrite app_nil_r.
  - now rewrite IH, <- app_assoc.
Qed.

Lemma null_free_prefix_all (l : list chunk) :
  null_free_prefix (map Some l) = l.
Proof. induction l as [|c l IH]; simpl; [reflexivity | now rewrite IH]. Qed.

Lemma after_first_null_all (l : list chunk) :
  after_first_null (map Some l) = [].
Proof. induction l as [|c l IH]; simpl; [reflexivity | exact IH]. Qed.

(** C9, as the code has it.  With fuel for the array, the stream of
    [arrayToStream] stores for emission the longest null-free prefix and
    nothing else (in object mode as given; otherwise as non-empty Buffers).
    When nothing pushable follows the first [null], [streamToArray] collects
    that prefix (a single Buffer outside object mode) and the stream ends;
    when something does, the stream is destroyed with
    [ERR_STREAM_PUSH_AFTER_EOF] and [streamToArray] rejects. *)
Theorem arrayToStream_emits_null_free_prefix
    (input : list ReadableChunk) (om : option bool) (fuel : nat) :
  List.length input < fuel ->
  2 <= fuel ->
  let mode := mode_of input om in
  buffer (_read (arrayToStream input om))
    = stored mode (null_free_prefix input) /\
  ended (_read (arrayToStream input om)) = true /\
  destroyed (_read (arrayToStream input om)) = pushes_after_eof mode input /\
  streamToArray fuel (arrayToStream input om) =
    Some (if pushes_after_eof mode input
          then Rejected ERR_STREAM_PUSH_AFTER_EOF
          else Resolved (emitted mode (null_free_prefix input))).
Proof.
  intros Hf H2 mode. rewrite read_fresh. fold mode.
  repeat split. unfold streamToArray.
  destruct (pushes_after_eof mode input) eqn:E.
  - now apply for_await_fresh_dirty.
  - rewrite for_await_fresh_clean by assumption.
    now rewrite fold_left_snoc.
Qed.

Lemma arrayToStream_emits_witness :
  buffer (_read (arrayToStream [Some (Str "a"); None; Some (Str "b")]
                   (Some true)))
    = stored true [Str "a"] /\
  ended (_read (arrayToStream [Some (Str "a"); None; Some (Str "b")]
                  (Some true))) = true /\
  destroyed (_read (arrayToStream [Some (Str "a"); None; Some (Str "b")]
                      (Some true))) = true /\
  streamToArray 4 (arrayToStream [Some (Str "a"); None; Some (Str "b")]
                     (Some true))
    = Some (Rejected ERR_STREAM_PUSH_AFTER_EOF).
Proof.
  apply (@arrayToStream_emits_null_free_prefix
           [Some (Str "a"); None; Some (Str "b")] (Some true) 4);
    simpl; lia.
Defined.

(** C9 as stated fails: for [["a", null, "b"]] the stream does not end after
    the prefix; no amount of fuel makes [streamToArray] resolve. *)
Lemma push_after_null_never_ends :
  ~ (exists fuel l,
       streamToArray fuel
         (arrayToStream [Some (Str "a"); None; Some (Str "b")] (Some true))
       = Some (Resolved l)).
Proof.
  intros [fuel [l H]]. destruct fuel as [|[|fuel]]; discriminate.
Qed.

(** C10, as the code has it.  In object mode (asked for, or guessed from a
    first element that is a Buffer or Uint8Array) the round trip returns the
    array of non-null chunks it was given. *)
Theorem round_trip_in_object_mode
    (l : list chunk) (om : option bool) (fuel : nat) :
  mode_of (map Some l) om = true ->
  List.length l < fuel ->
  streamToArray fuel (arrayToStream (map Some l) om) = Some (Resolved l).
Proof.
  intros Hm Hf. unfold streamToArray.
  rewrite for_await_fresh_clean.
  - rewrite Hm, null_free_prefix_all. unfold emitted.
    now rewrite fold_left_snoc.
  - unfold pushes_after_eof. now rewrite after_first_null_all.
  - now rewrite length_map.
Qed.

Lemma round_trip_witness :
  streamToArray 3 (arrayToStream (map Some foo_bar) (Some true))
  = Some (Resolved foo_bar).
Proof.
  apply (@round_trip_in_object_mode foo_bar (Some true) 3);
    [reflexivity | simpl; lia].
Defined.

(** C10 as stated fails: an array of strings with [objectMode] left out is
    read back as one Buffer of the joined bytes, never as the strings. *)
Lemma round_trip_of_strings_fails :
  arrayToStream (map Some foo_bar) None
    = mkReadable false [Some (Str "foo"); Some (Str "bar")] [] false None
        false /\
  streamToArray 3 (arrayToStream (map Some foo_bar) None)
    = Some (Resolved [Buf (list_byte_of_string "foobar")]) /\
  ~ (exists fuel,
       streamToArray fuel (arrayToStream (map Some foo_bar) None)
       = Some (Resolved foo_bar)).
Proof.
  split; [reflexivity|]. split; [reflexivity|].
  intros [fuel H]. destruct fuel as [|[|[|fuel]]]; discriminate.
Qed.

(** ** [mergeStreams] *)

Lemma fold_write (l : list chunk) : forall p,
  finished p = false ->
  fold_left (fun p c => write c p) l p = mkPassThrough (written p ++ l) false.
Proof.
  induction l as [|c l IH]; intros p Hp; simpl.
  - rewrite app_nil_r. destruct p; simpl in *; now subst.
  - rewrite IH.
    + unfold write. rewrite Hp. simpl. now rewrite <- app_assoc.
    + unfold write. now rewrite Hp.
Qed.

(** The module's [mergeStreams] concatenates source by source and ends the
    merged stream after the last one: for sources fresh from [arrayToStream]
    that end normally, and at least one of them. *)
Lemma merge_loop_concatenates fuel total :
  forall (sources : list (list ReadableChunk * option bool)) ended merged,
    finished merged = false ->
    ended + List.length sources = total ->
    sources <> [] ->
    Forall (fun s =>
      pushes_after_eof (mode_of (fst s) (snd s)) (fst s) = false /\
      List.length (fst s) < fuel) sources ->
    merge_loop fuel (map (fun s => arrayToStream (fst s) (snd s)) sources)
      total ended merged =
    Some (Resolved
      (mkPassThrough
         (written merged ++
          flat_map (fun s => emitted (mode_of (fst s) (snd s))
                               (null_free_prefix (fst s))) sources)
         true)).
Proof.
  induction sources as [|[input om] rest IH];
    intros ended merged Hm Hcount Hne Hall; [congruence|].
  inversion Hall as [|? ? [Hclean Hfuel] Hrest]; subst.
  cbn [map merge_loop fst snd] in *.
  rewrite for_await_fresh_clean by assumption.
  rewrite fold_write by assumption.
  destruct rest as [|s rest].
  - cbn [List.length] in *.
    replace (Nat.eqb (ended + 1) (ended + 1)) with true
      by (symmetry; apply Nat.eqb_refl).
    cbn [map merge_loop flat_map end_ written]. now rewrite app_nil_r.
  - replace (Nat.eqb (ended + 1) (ended + List.length ((input, om) :: s :: rest)))
      with false
      by (symmetry; apply Nat.eqb_neq; cbn [List.length]; lia).
    rewrite IH; try assumption; try discriminate.
    + cbn [written flat_map fst snd]. now rewrite <- app_assoc.
    + reflexivity.
    + cbn [List.length]. lia.
Qed.

Lemma mergeStreams_concatenates fuel
    (sources : list (list ReadableChunk * option bool)) :
  sources <> [] ->
  Forall (fun s =>
    pushes_after_eof (mode_of (fst s) (snd s)) (fst s) = false /\
    List.length (fst s) < fuel) sources ->
  mergeStreams fuel (map (fun s => arrayToStream (fst s) (snd s)) sources) =
  Some (Resolved
    (mkPassThrough
       (flat_map (fun s => emitted (mode_of (fst s) (snd s))
                             (null_free_prefix (fst s))) sources)
       true)).
Proof.
  intros Hne Hall. unfold mergeStreams. rewrite length_map.
  now rewrite (@merge_loop_concatenates fuel (List.length sources)
                 sources 0 new_PassThrough).
Qed.

(** The [mergeStreams] of [src/index.ts] never ends its output. *)
Lemma pipe_all_never_ends arrival : forall queues output,
  finished output = false ->
  finished (Index.pipe_all arrival queues output) = false.
Proof.
  induction arrival as [|i arrival IH]; intros queues output H; simpl;
    [exact H|].
  destruct (nth_error queues i) as [[|c q]|]; try now apply IH.
  apply IH. unfold write. now rewrite H.
Qed.

(** C8 fails on the code.  For the two sources [["a"]] and [["b"]]: the
    [mergeStreams] beside [copy] yields ["a"], ["b"] and ends the merged
    stream; the one of [src/index.ts] never ends it, whatever the order of
    arrival and whatever the sources, and when the second source delivers
    first it yields ["b"] before ["a"]. *)
Theorem mergeStreams_implementations_differ :
  mergeStreams 3 [arrayToStream [Some (Str "a")] (Some true);
                  arrayToStream [Some (Str "b")] (Some true)]
    = Some (Resolved (mkPassThrough [Str "a"; Str "b"] true)) /\
  (forall arrival streams output,
     Index.mergeStreams arrival streams = Resolved output ->
     finished output = false) /\
  Index.mergeStreams [1; 0]
    [arrayToStream [Some (Str "a")] (Some true);
     arrayToStream [Some (Str "b")] (Some true)]
    = Resolved (mkPassThrough [Str "b"; Str "a"] false).
Proof.
  split; [reflexivity|]. split; [|reflexivity].
  intros arrival streams output H. unfold Index.mergeStreams in H.
  inversion H. now apply pipe_all_never_ends.
Qed.

(** ** [streamToBuffer] *)

(** Two loop bodies that commute with [h] give iterations that do. *)
Lemma for_await_fusion {S T : Type} (h : S -> T)
    (body1 : chunk -> S -> S) (body2 : chunk -> T -> T) :
  (forall c s, h (body1 c s) = body2 c (h s)) ->
  forall fuel r s,
    for_await fuel r body2 (h s) =
    option_map (settled_map h) (for_await fuel r body1 s).
Proof.
  intros Hh. induction fuel as [|fuel IH]; intros r s; [reflexivity|].
  cbn [for_await]. destruct (destroyed r); [reflexivity|].
  destruct (read r) as [[c|] r'].
  - rewrite <- Hh. apply IH.
  - destruct (errored r'); [reflexivity|]. now destruct (ended r').
Qed.

Lemma concat_bytes_app l l' :
  concat_bytes (l ++ l') = concat_bytes l ++ concat_bytes l'.
Proof.
  induction l as [|c l IH]; simpl; [reflexivity|].
  now rewrite IH, app_assoc.
Qed.

Lemma concat_bytes_to_buffer l :
  concat_bytes (map to_buffer l) = concat_bytes l.
Proof.
  induction l as [|c l IH]; simpl; [reflexivity|].
  rewrite IH. now destruct c.
Qed.

Lemma concat_bytes_stored l : concat_bytes (stored false l) = concat_bytes l.
Proof.
  induction l as [|c l IH]; simpl; [reflexivity|].
  destruct (Nat.ltb 0 (chunk_length (to_buffer c))) eqn:E.
  - simpl. rewrite IH. now destruct c.
  - rewrite IH. apply Nat.ltb_ge in E.
    destruct c as [s | b | b]; simpl in *;
      [destruct (list_byte_of_string s) | destruct b | destruct b];
      simpl in *; try lia; reflexivity.
Qed.

Lemma concat_bytes_emitted om l :
  concat_bytes (emitted om l) = concat_bytes l.
Proof.
  unfold emitted. destruct om; [reflexivity|].
  rewrite <- (concat_bytes_stored l).
  destruct (stored false l) as [|c rest]; [reflexivity|].
  cbn [concat_bytes]. now rewrite app_nil_r.
Qed.

(** X1.  For every stream state and fuel, [streamToBuffer] settles as
    [streamToArray] does, and when that resolves with the chunks [l] it
    resolves with the bytes of [l] joined in order. *)
Theorem streamToBuffer_joins_streamToArray (fuel : nat) (input : Readable) :
  streamToBuffer fuel input =
  option_map (settled_map concat_bytes) (streamToArray fuel input).
Proof.
  unfold streamToBuffer, streamToArray.
  assert (K := @for_await_fusion _ _ (map to_buffer)
                 (fun chunk output => output ++ [chunk])
                 (fun chunk output => output ++ [to_buffer chunk])
                 (fun c s => map_app to_buffer s [c]) fuel input []).
  cbn [map] in K. rewrite K.
  destruct (for_await fuel input (fun chunk output => output ++ [chunk]) [])
    as [[l | e |]|]; simpl; try reflexivity.
  now rewrite concat_bytes_to_buffer.
Qed.

(** X2.  With fuel for the array, [streamToBuffer] of the stream that
    [arrayToStream] returns resolves with the bytes of the longest null-free
    prefix of the array joined in order, in object mode and outside it alike;
    when a pushable element follows the first [null] it rejects with
    [ERR_STREAM_PUSH_AFTER_EOF]. *)
Theorem streamToBuffer_of_array
    (input : list ReadableChunk) (om : option bool) (fuel : nat) :
  List.length input < fuel ->
  2 <= fuel ->
  streamToBuffer fuel (arrayToStream input om) =
  Some (if pushes_after_eof (mode_of input om) input
        then Rejected ERR_STREAM_PUSH_AFTER_EOF
        else Resolved (concat_bytes (null_free_prefix input))).
Proof.
  intros Hf H2. unfold streamToBuffer.
  destruct (pushes_after_eof (mode_of input om) input) eqn:E.
  - now rewrite for_await_fresh_dirty.
  - rewrite for_await_fresh_clean by assumption.
    change (@nil chunk) with (map to_buffer []).
    assert (K : forall l acc,
      fold_left (fun s c => s ++ [to_buffer c]) l (map to_buffer acc)
      = map to_buffer (acc ++ l)).
    { induction l as [|c l IH]; intros acc; simpl.
      - now rewrite app_nil_r.
      - replace (acc ++ c :: l) with ((acc ++ [c]) ++ l)
          by now rewrite <- app_assoc.
        rewrite <- IH, map_app. reflexivity. }
    rewrite K. cbn [app].
    now rewrite concat_bytes_to_buffer, concat_bytes_emitted.
Qed.

Lemma streamToBuffer_of_array_witness :
  streamToBuffer 3 (arrayToStream (map Some foo_bar) None) =
  Some (if pushes_after_eof (mode_of (map Some foo_bar) None)
             (map Some foo_bar)
        then Rejected ERR_STREAM_PUSH_AFTER_EOF
        else Resolved (concat_bytes (null_free_prefix (map Some foo_bar)))).
Proof.
  apply (@streamToBuffer_of_array (map Some foo_bar) None 3); simpl; lia.
Defined.

(** ** More on [mergeStreams] *)

(** X3.  For sources fresh from [arrayToStream] that end normally, and fuel
    for each of them, [mergeStreams] resolves with a stream that holds what
    the sources emit, source after source in the order given; that stream is
    ended when at least one source was given, and never ended when none
    was. *)
Theorem mergeStreams_of_sources (fuel : nat)
    (sources : list (list ReadableChunk * option bool)) :
  Forall (fun s =>
    pushes_after_eof (mode_of (fst s) (snd s)) (fst s) = false /\
    List.length (fst s) < fuel) sources ->
  mergeStreams fuel (map (fun s => arrayToStream (fst s) (snd s)) sources) =
  Some (Resolved
    (mkPassThrough
       (flat_map (fun s => emitted (mode_of (fst s) (snd s))
                             (null_free_prefix (fst s))) sources)
       (match sources with [] => false | _ :: _ => true end))).
Proof.
  intros Hall. destruct sources as [|s sources]; [reflexivity|].
  unfold mergeStreams. rewrite length_map.
  rewrite (@merge_loop_concatenates fuel (List.length (s :: sources))
             (s :: sources) 0 new_PassThrough);
    try reflexivity; try assumption.
  discriminate.
Qed.

Lemma mergeStreams_of_sources_witness :
  mergeStreams 3
    (map (fun s => arrayToStream (fst s) (snd s))
       [([Some (Str "a"); Some (Str "b")], Some true);
        ([Some (Str "c")], None)]) =
  Some (Resolved
    (mkPassThrough
       (flat_map (fun s => emitted (mode_of (fst s) (snd s))
                             (null_free_prefix (fst s)))
          [([Some (Str "a"); Some (Str "b")], Some true);
           ([Some (Str "c")], None)])
       true)).
Proof.
  apply (@mergeStreams_of_sources 3
           [([Some (Str "a"); Some (Str "b")], Some true);
            ([Some (Str "c")], None)]).
  repeat constructor; simpl; lia.
Defined.

(** X4.  When a source fails with a push after the end, [mergeStreams]
    rejects with that error, however many sources before it ended normally
    and whatever follows: no merged stream is returned. *)
Theorem mergeStreams_rejects_with_failing_source (fuel : nat)
    (before : list (list ReadableChunk * option bool))
    (failing : list ReadableChunk * option bool)
    (after : list Readable) :
  Forall (fun s =>
    pushes_after_eof (mode_of (fst s) (snd s)) (fst s) = false /\
    List.length (fst s) < fuel) before ->
  pushes_after_eof (mode_of (fst failing) (snd failing)) (fst failing)
    = true ->
  2 <= fuel ->
  mergeStreams fuel
    (map (fun s => arrayToStream (fst s) (snd s)) before ++
     arrayToStream (fst failing) (snd failing) :: after) =
  Some (Rejected ERR_STREAM_PUSH_AFTER_EOF).
Proof.
  intros Hbefore Hfail Hfuel. unfold mergeStreams.
  generalize (List.length
    (map (fun s => arrayToStream (fst s) (snd s)) before ++
     arrayToStream (fst failing) (snd failing) :: after)).
  generalize 0 as ended. generalize new_PassThrough as merged.
  induction before as [|[input om] before IH]; intros merged ended total.
  - cbn [map app merge_loop]. now rewrite for_await_fresh_dirty.
  - inversion Hbefore as [|? ? [Hclean Hlen] Hrest]; subst.
    cbn [map app merge_loop fst snd] in *.
    rewrite for_await_fresh_clean by assumption.
    now apply IH.
Qed.

Lemma mergeStreams_rejects_witness :
  mergeStreams 4
    (map (fun s => arrayToStream (fst s) (snd s))
       [([Some (Str "a")], Some true)] ++
     arrayToStream (fst ([None; Some (Str "b")], Some true))
       (snd ([None; Some (Str "b")], Some true))
     :: [arrayToStream [Some (Str "c")] (Some true)]) =
  Some (Rejected ERR_STREAM_PUSH_AFTER_EOF).
Proof.
  apply (@mergeStreams_rejects_with_failing_source 4
           [([Some (Str "a")], Some true)]
           ([None; Some (Str "b")], Some true)
           [arrayToStream [Some (Str "c")] (Some true)]);
    [repeat constructor; simpl; lia | reflexivity | lia].
Defined.

(** ** The [mergeStreams] of [src/index.ts] keeps every chunk *)

Lemma concat_set_nth (queues : list (list chunk)) : forall i c q,
  nth_error queues i = Some (c :: q) ->
  Permutation (List.concat queues) (c :: List.concat (Index.set_nth i q queues)).
Proof.
  induction queues as [|q0 queues IH]; intros i c q H.
  - destruct i; discriminate.
  - destruct i as [|i]; simpl in H.
    + inversion H; subst. reflexivity.
    + cbn [Index.set_nth List.concat].
      rewrite (IH i c q H). symmetry. apply Permutation_middle.
Qed.

Lemma pipe_all_pending arrival : forall queues output,
  finished output = false ->
  Permutation
    (written (Index.pipe_all arrival queues output) ++
     List.concat (Index.pending arrival queues))
    (written output ++ List.concat queues).
Proof.
  induction arrival as [|i arrival IH]; intros queues output Hout;
    [reflexivity|].
  cbn [Index.pipe_all Index.pending].
  destruct (nth_error queues i) as [[|c q]|] eqn:E; try now apply IH.
  rewrite IH by (unfold write; now rewrite Hout).
  unfold write. rewrite Hout. cbn [written].
  rewrite <- app_assoc. apply Permutation_app_head.
  cbn [app]. symmetry. now apply concat_set_nth.
Qed.

(** X5.  Whatever the order of arrival, the [mergeStreams] of
    [src/index.ts] neither invents, loses nor repeats a chunk: what has been
    written to its output, together with what the sources have yet to
    deliver after these arrivals, is a rearrangement of all the chunks of all
    the sources; once every source has delivered everything, the output holds
    exactly the chunks of the sources, rearranged. *)
Theorem index_mergeStreams_keeps_chunks
    (arrival : list nat) (streams : list Readable) :
  exists output,
    Index.mergeStreams arrival streams = Resolved output /\
    Permutation
      (written output ++
       List.concat (Index.pending arrival (map Index.delivered streams)))
      (List.concat (map Index.delivered streams)) /\
    (List.concat (Index.pending arrival (map Index.delivered streams)) = [] ->
     Permutation (written output)
       (List.concat (map Index.delivered streams))).
Proof.
  unfold Index.mergeStreams. eexists. split; [reflexivity|].
  assert (K := pipe_all_pending arrival (map Index.delivered streams)
                 new_PassThrough eq_refl).
  cbn [written new_PassThrough app] in K.
  split; [exact K|]. intros E. rewrite E, app_nil_r in K. exact K.
Qed.

(** ** [filterStream] *)

Lemma pipe_into_writes (chunks : list chunk) : forall t,
  t_ended t = false ->
  fold_left (fun t c => t_write c t) chunks t =
  mkTransform (t_objectMode t) (t_fn t)
    (t_readable t ++
     List.filter
       (fun c => t_objectMode t || Nat.ltb 0 (chunk_length c))
       (List.filter (t_fn t)
          (map (fun c => if t_objectMode t then c else to_buffer c) chunks)))
    false.
Proof.
  induction chunks as [|c chunks IH]; intros t Ht.
  - simpl. rewrite app_nil_r. destruct t; simpl in *; now subst.
  - cbn [fold_left map]. unfold t_write at 2. rewrite Ht.
    set (c1 := if t_objectMode t then c else to_buffer c).
    unfold transform. cbn [List.filter].
    destruct (t_fn t c1) eqn:Efn.
    + cbn [List.filter].
      destruct (t_objectMode t || Nat.ltb 0 (chunk_length c1)) eqn:Ekeep.
      * rewrite IH by exact Ht. cbn [t_objectMode t_fn t_readable].
        now rewrite <- app_assoc.
      * now rewrite IH.
    + now rewrite IH.
Qed.

Lemma filter_kept_in_object_mode (l : list chunk) :
  List.filter (fun _ => true) l = l.
Proof. induction l as [|c l IH]; simpl; [reflexivity | now rewrite IH]. Qed.

(** What the readable side of a fresh filter holds after the pipe. *)
Lemma pipe_into_filterStream
    (fn : StreamFilter) (objectMode : option bool) (chunks : list chunk) :
  t_readable (pipe_into chunks (filterStream fn objectMode)) =
  match objectMode with
  | Some false =>
      List.filter (fun c => Nat.ltb 0 (chunk_length c))
        (List.filter fn (map to_buffer chunks))
  | _ => List.filter fn chunks
  end.
Proof.
  unfold pipe_into, filterStream. rewrite pipe_into_writes by reflexivity.
  cbn [t_end t_readable t_objectMode t_fn app].
  destruct objectMode as [[]|]; cbn [orb].
  - rewrite map_id. apply filter_kept_in_object_mode.
  - reflexivity.
  - rewrite map_id. apply filter_kept_in_object_mode.
Qed.

(** X6.  A source that delivers [chunks] and ends, piped into
    [filterStream(fn)]: in object mode (the default) the transform emits
    exactly the chunks that [fn] accepts, in their order; outside object mode
    [fn] is asked about each chunk as a Buffer and the accepted Buffers that
    are not empty are emitted.  The transform is then ended. *)
Theorem filterStream_emits_the_accepted
    (fn : StreamFilter) (objectMode : option bool) (chunks : list chunk) :
  let t := pipe_into chunks (filterStream fn objectMode) in
  t_ended t = true /\
  t_readable t =
    match objectMode with
    | Some false =>
        List.filter (fun c => Nat.ltb 0 (chunk_length c))
          (List.filter fn (map to_buffer chunks))
    | _ => List.filter fn chunks
    end.
Proof.
  cbv zeta. split; [reflexivity | apply pipe_into_filterStream].
Qed.

Lemma filter_filter {A} (f g : A -> bool) (l : list A) :
  List.filter g (List.filter f l) = List.filter (fun x => f x && g x) l.
Proof.
  induction l as [|x l IH]; simpl; [reflexivity|].
  destruct (f x); simpl; [destruct (g x); now rewrite IH | exact IH].
Qed.

(** X7.  Two object-mode filters in a row pass exactly the chunks that both
    accept, and the order of the two filters does not matter for what comes
    out. *)
Theorem filterStream_twice
    (f g : StreamFilter) (chunks : list chunk) :
  let through (first second : StreamFilter) :=
    t_readable
      (pipe_into (t_readable (pipe_into chunks (filterStream first None)))
         (filterStream second None)) in
  through f g = List.filter (fun c => f c && g c) chunks /\
  through f g = through g f.
Proof.
  cbv zeta.
  assert (K : forall first second,
    t_readable
      (pipe_into (t_readable (pipe_into chunks (filterStream first None)))
         (filterStream second None))
    = List.filter (fun c => first c && second c) chunks).
  { intros first second.
    rewrite (pipe_into_filterStream first None chunks).
    rewrite (pipe_into_filterStream second None (List.filter first chunks)).
    apply filter_filter. }
  split; [apply K|]. rewrite !K.
  apply filter_ext. intros c. apply andb_comm.
Qed.

End StreamSpec.

(* ================================================================== *)
(** * What [copy] and [copySync] touch, and what they copy *)
(* ================================================================== *)

Module CopyFrame.
Import FS FSNotations Copy Collect Scenario FSFacts CopySpec CollectSpec.

(** ** Paths *)

Lemma below_prefix d q : below d (d ++ q) = true.
Proof.
  induction d as [|x d IH]; simpl; [reflexivity|].
  now rewrite String.eqb_refl.
Qed.

Lemma below_trans a b c :
  below a b = true -> below b c = true -> below a c = true.
Proof.
  intros Hab Hbc. apply below_inv in Hab as [q ->].
  apply below_inv in Hbc as [q' ->]. rewrite <- app_assoc.
  apply below_prefix.
Qed.

(** A prefix of [d ++ r] is a prefix of [d] or lies at or below [d]. *)
Lemma below_app_cases q : forall d r,
  below q (d ++ r) = true -> below q d = true \/ below d q = true.
Proof.
  induction q as [|x q IH]; intros d r H; [now left|].
  destruct d as [|y d]; [now right|].
  simpl in *. apply andb_prop in H as [Hxy H].
  rewrite Hxy. apply String.eqb_eq in Hxy; subst y.
  rewrite String.eqb_refl. simpl. eapply IH; eauto.
Qed.

(** What is apart from a path is apart from everything below it. *)
Lemma apart_below dest t q :
  below dest t = true -> apart dest q = true -> apart t q = true.
Proof.
  unfold apart. intros Ht H. apply andb_prop in H as [H1 H2].
  apply negb_true_iff in H1, H2.
  apply andb_true_intro; split; apply negb_true_iff.
  - destruct (below t q) eqn:E; [|reflexivity].
    now rewrite (below_trans _ _ _ Ht E) in H1.
  - destruct (below q t) eqn:E; [|reflexivity].
    apply below_inv in Ht as [r ->].
    destruct (below_app_cases _ _ _ E) as [K | K]; congruence.
Qed.

Lemma apart_parent d x q :
  apart (d ++ [x]) q = true ->
  below (d ++ [x]) q = false /\ below q d = false.
Proof.
  unfold apart. intros H. apply andb_prop in H as [H1 H2].
  apply negb_true_iff in H1, H2. split; [exact H1|].
  destruct (below q d) eqn:E; [|reflexivity].
  now rewrite (below_trans _ _ _ E (below_prefix d [x])) in H2.
Qed.

Lemma apart_sym a b : apart a b = apart b a.
Proof. unfold apart. apply andb_comm. Qed.

Lemma below_fork d x y p p' :
  String.eqb x y = false -> below (d ++ x :: p) (d ++ y :: p') = false.
Proof.
  intros Hxy. induction d as [|z d IH]; simpl.
  - now rewrite Hxy.
  - rewrite String.eqb_refl. exact IH.
Qed.

(** Two different names of one directory are apart, with all below them. *)
Lemma apart_siblings d x y q :
  String.eqb x y = false -> apart (d ++ [x]) (d ++ y :: q) = true.
Proof.
  intros Hxy. unfold apart.
  rewrite (below_fork d x y [] q Hxy).
  rewrite (below_fork d y x q []); [reflexivity|].
  now rewrite String.eqb_sym.
Qed.

(** ** The calls leave the rest of the tree alone *)

Lemma split_last_inv p d x : split_last p = Some (d, x) -> p = d ++ [x].
Proof.
  revert d; induction p as [|y p IH]; intros d; simpl; [discriminate|].
  destruct p as [|z p].
  - intros H; inversion H; reflexivity.
  - destruct (split_last (z :: p)) as [[d' l]|] eqn:E; [|discriminate].
    intros H; inversion H; subst. simpl. f_equal. now apply IH.
Qed.

Lemma unlink_local now x :
  local_to x (fun es _ =>
    match alookup x es with
    | None => Err ENOENT
    | Some n =>
        if is_dir n then Err EISDIR else Ok (Dir (aremove x es) now)
    end).
Proof.
  intros es m n' H. destruct (alookup x es) as [n|]; [|discriminate].
  destruct (is_dir n); [discriminate|].
  inversion H; subst. do 2 eexists; split; [reflexivity|].
  intros y Hy. now rewrite alookup_aremove, Hy.
Qed.

Lemma copyFile_local c now x :
  local_to x (fun es m =>
    match alookup x es with
    | None => Ok (Dir (es ++ [(x, File c now)]) now)
    | Some (File _ _) => Ok (Dir (areplace x (File c now) es) m)
    | Some (Dir _ _) | Some (Locked _) => Err EISDIR
    | Some (Special _) => Ok (Dir es m)
    end).
Proof.
  intros es m n' H.
  destruct (alookup x es) as [[| | |]|]; inversion H; subst;
    do 2 eexists; (split; [reflexivity|]); intros y Hy.
  - now rewrite alookup_areplace, Hy.
  - reflexivity.
  - rewrite alookup_app. destruct (alookup y es); [reflexivity|].
    simpl. now rewrite String.eqb_sym, Hy.
Qed.

Lemma do_rm_apart now t r r' q :
  do_rm now t r = Ok r' -> apart t q = true -> resolve r' q = resolve r q.
Proof.
  unfold do_rm. destruct (split_last t) as [[d x]|] eqn:E; [|discriminate].
  apply split_last_inv in E; subst t. intros H Hq.
  destruct (apart_parent _ _ _ Hq).
  eapply update_dir_frame; eauto using rm_local.
Qed.

Lemma do_unlink_apart now t r r' q :
  do_unlink now t r = Ok r' -> apart t q = true -> resolve r' q = resolve r q.
Proof.
  unfold do_unlink. destruct (split_last t) as [[d x]|] eqn:E; [|discriminate].
  apply split_last_inv in E; subst t. intros H Hq.
  destruct (apart_parent _ _ _ Hq).
  eapply update_dir_frame; eauto using unlink_local.
Qed.

Lemma do_copyFile_apart now src t r r' q :
  do_copyFile now src t r = Ok r' -> apart t q = true ->
  resolve r' q = resolve r q.
Proof.
  unfold do_copyFile.
  destruct (resolve r src) as [[c m | | |]|]; try discriminate.
  destruct (split_last t) as [[d x]|] eqn:E; [|discriminate].
  apply split_last_inv in E; subst t. intros H Hq.
  destruct (apart_parent _ _ _ Hq).
  eapply update_dir_frame; eauto using copyFile_local.
Qed.

Lemma resolve_mkchain_apart now t : forall q,
  apart t q = true -> resolve (mkchain now t) q = Err ENOENT.
Proof.
  induction t as [|z t IH]; intros q Hq; unfold apart in Hq;
    [simpl in Hq; discriminate|].
  destruct q as [|w q]; [simpl in Hq; discriminate|].
  simpl in *.
  destruct (String.eqb w z) eqn:Ewz; [|reflexivity].
  apply String.eqb_eq in Ewz; subst w.
  rewrite String.eqb_refl in Hq. simpl in Hq. now apply IH.
Qed.

Lemma do_mkdirp_apart now t : forall r r' q,
  do_mkdirp now t r = Ok r' -> apart t q = true -> resolve r' q = resolve r q.
Proof.
  induction t as [|x t IH]; intros r r' q H Hq.
  - unfold apart in Hq. simpl in Hq. discriminate.
  - destruct q as [|y q]; [unfold apart in Hq; simpl in Hq; discriminate|].
    destruct r as [| es m | |]; simpl in H; try discriminate.
    assert (Hq' : String.eqb x y = true -> apart t q = true).
    { intros E. unfold apart in *. simpl in Hq.
      apply String.eqb_eq in E; subst y.
      now rewrite String.eqb_refl in Hq. }
    destruct (alookup x es) as [c|] eqn:Ex.
    + destruct (do_mkdirp now t c) as [c'|] eqn:Ec; [|discriminate].
      inversion H; subst r'. simpl. rewrite alookup_areplace.
      destruct (String.eqb x y) eqn:Exy; [|reflexivity].
      pose proof (Hq' eq_refl) as Ha.
      apply String.eqb_eq in Exy; subst y. rewrite Ex.
      exact (IH c c' q Ec Ha).
    + inversion H; subst r'. simpl. rewrite alookup_app.
      destruct (alookup y es) eqn:Ey; [reflexivity|]. simpl.
      rewrite String.eqb_sym.
      destruct (String.eqb x y) eqn:Exy; [|reflexivity].
      apply resolve_mkchain_apart. exact (Hq' eq_refl).
Qed.

(** ** Computations that leave the rest of the tree alone *)

Lemma la_ret {A} dest (a : A) : leaves_apart dest (ret a).
Proof. intros s s' H q _. inversion H; now subst. Qed.

Lemma la_timeout {A} dest : leaves_apart dest (@timeout A).
Proof. intros s s' H. discriminate. Qed.

Lemma la_bind {A B} dest (m : M A) (k : A -> M B) :
  leaves_apart dest m -> (forall a, leaves_apart dest (k a)) ->
  leaves_apart dest (bind m k).
Proof.
  intros Hm Hk s s' H q Hq. unfold bind in H.
  destruct (m s) as [a s1 | e s1 |] eqn:E.
  - rewrite (Hk a s1 s' H q Hq). apply (Hm s s1); [now rewrite E | exact Hq].
  - apply (Hm s s'); [now rewrite E | exact Hq].
  - discriminate.
Qed.

Lemma la_query {A} dest c (f : node -> result A) :
  leaves_apart dest (query c f).
Proof.
  intros s s' H q _. unfold query in H.
  destruct (f (root s)); inversion H; now subst.
Qed.

Lemma la_command dest c (f : Z -> node -> result node) :
  (forall now r r' q, f now r = Ok r' -> apart dest q = true ->
     resolve r' q = resolve r q) ->
  leaves_apart dest (command c f).
Proof.
  intros Hf s s' H q Hq. unfold command in H.
  destruct (f (clock s) (root s)) as [r'|] eqn:E; inversion H; subst.
  - simpl. eauto.
  - reflexivity.
Qed.

Lemma la_for_each {A} dest (f : A -> M unit) (l : list A) :
  (forall x, leaves_apart dest (f x)) -> leaves_apart dest (for_each l f).
Proof.
  intros Hf. induction l as [|x l IH]; simpl.
  - apply la_ret.
  - apply la_bind; [apply Hf | intros _; exact IH].
Qed.

Lemma la_weaken {A} dest t (m : M A) :
  below dest t = true -> leaves_apart t m -> leaves_apart dest m.
Proof.
  intros Ht Hm s s' H q Hq. apply (Hm s s' H). eapply apart_below; eauto.
Qed.

Lemma la_rm dest : leaves_apart dest (rm_recursive dest).
Proof. apply la_command. intros; eapply do_rm_apart; eauto. Qed.

Lemma la_unlink dest : leaves_apart dest (unlink dest).
Proof. apply la_command. intros; eapply do_unlink_apart; eauto. Qed.

Lemma la_mkdir dest : leaves_apart dest (mkdir_recursive dest).
Proof. apply la_command. intros; eapply do_mkdirp_apart; eauto. Qed.

Lemma la_copyFile src dest : leaves_apart dest (copyFile src dest).
Proof. apply la_command. intros; eapply do_copyFile_apart; eauto. Qed.

(** ** Computations whose calls are all allowed *)

Lemma co_ret {A} P (a : A) : calls_only P (ret a).
Proof.
  intros s s' H. inversion H; subst. exists []. now rewrite app_nil_r.
Qed.

Lemma co_timeout {A} P : calls_only P (@timeout A).
Proof. intros s s' H. discriminate. Qed.

Lemma co_bind {A B} P (m : M A) (k : A -> M B) :
  calls_only P m -> (forall a, calls_only P (k a)) ->
  calls_only P (bind m k).
Proof.
  intros Hm Hk s s' H. unfold bind in H.
  destruct (m s) as [a s1 | e s1 |] eqn:E.
  - destruct (Hm s s1) as [l1 [E1 P1]]; [now rewrite E|].
    destruct (Hk a s1 s' H) as [l2 [E2 P2]].
    exists (l1 ++ l2). rewrite E2, E1, <- app_assoc. split; [reflexivity|].
    now rewrite forallb_app, P1, P2.
  - apply (Hm s s'). now rewrite E.
  - discriminate.
Qed.

Lemma co_query {A} (P : fs_call -> bool) c (f : node -> result A) :
  P c = true -> calls_only P (query c f).
Proof.
  intros Hc s s' H. unfold query in H. exists [c].
  destruct (f (root s)); inversion H; subst; simpl; now rewrite Hc.
Qed.

Lemma co_command (P : fs_call -> bool) c (f : Z -> node -> result node) :
  P c = true -> calls_only P (command c f).
Proof.
  intros Hc s s' H. unfold command in H. exists [c].
  destruct (f (clock s) (root s)); inversion H; subst; simpl; now rewrite Hc.
Qed.

Lemma co_for_each {A} P (f : A -> M unit) (l : list A) :
  (forall x, calls_only P (f x)) -> calls_only P (for_each l f).
Proof.
  intros Hf. induction l as [|x l IH]; simpl.
  - apply co_ret.
  - apply co_bind; [apply Hf | intros _; exact IH].
Qed.

Lemma co_weaken {A} (P Q : fs_call -> bool) (m : M A) :
  (forall c, P c = true -> Q c = true) -> calls_only P m -> calls_only Q m.
Proof.
  intros HPQ Hm s s' H. destruct (Hm s s' H) as [l [E Hl]].
  exists l. split; [exact E|].
  rewrite forallb_forall in *. auto.
Qed.

Lemma below_self d : below d d = true.
Proof. rewrite <- (app_nil_r d) at 2. apply below_prefix. Qed.

Lemma below_join d x p : below (join d x) p = true -> below d p = true.
Proof. apply below_trans, below_prefix. Qed.

Lemma within_child src dest file c :
  within (join src file) (join dest file) c = true -> within src dest c = true.
Proof.
  destruct c; simpl; intros H;
    repeat match goal with
    | H : _ || _ = true |- _ => apply orb_prop in H as [H | H]
    | H : _ && _ = true |- _ => apply andb_prop in H as [? H]
    | H : below (join _ _) _ = true |- _ => apply below_join in H
    end;
    repeat match goal with
    | H : below _ _ = true |- _ => rewrite H
    end; auto using orb_true_r.
Qed.

(** ** Facts for copying a tree *)

Lemma resolve_mkchain now p : resolve (mkchain now p) p = Ok (Dir [] now).
Proof.
  induction p as [|x p IH]; simpl; [reflexivity|].
  now rewrite String.eqb_refl.
Qed.

(** [mkdir -p] of a path that does not exist creates an empty directory
    there. *)
Lemma do_mkdirp_fresh now p : forall r,
  resolve r p = Err ENOENT ->
  exists r', do_mkdirp now p r = Ok r' /\ resolve r' p = Ok (Dir [] now).
Proof.
  induction p as [|x p IH]; intros r H; [discriminate|].
  destruct r as [| es m | |]; simpl in *; try discriminate.
  destruct (alookup x es) as [c|] eqn:Ex.
  - destruct (IH c H) as [c' [-> Hc']]. eexists; split; [reflexivity|].
    simpl. now rewrite alookup_areplace, String.eqb_refl, Ex.
  - eexists; split; [reflexivity|]. simpl.
    rewrite alookup_app, Ex. simpl. rewrite String.eqb_refl.
    apply resolve_mkchain.
Qed.

Lemma name_in_app x l l' :
  name_in x (l ++ l') = name_in x l || name_in x l'.
Proof.
  induction l as [|y l IH]; simpl; [reflexivity|].
  now rewrite IH, orb_assoc.
Qed.

Lemma distinct_middle l1 : forall y l2,
  distinct (l1 ++ y :: l2) = true ->
  name_in y l1 = false /\ forall z, In z l1 -> String.eqb y z = false.
Proof.
  induction l1 as [|a l1 IH]; intros y l2 H.
  - split; [reflexivity | intros z []].
  - simpl in H. apply andb_prop in H as [Ha H].
    apply negb_true_iff in Ha. rewrite name_in_app in Ha.
    apply orb_false_elim in Ha as [_ Ha]. simpl in Ha.
    apply orb_false_elim in Ha as [Hay _].
    destruct (IH y l2 H) as [Hy Hz].
    assert (Hya : String.eqb y a = false) by now rewrite String.eqb_sym.
    split.
    + simpl. now rewrite Hya, Hy.
    + intros z [<- | Hin]; auto.
Qed.

Lemma alookup_some_in y es c : alookup y es = Some c -> In (y, c) es.
Proof.
  induction es as [|[z n] es IH]; simpl; [discriminate|].
  destruct (String.eqb y z) eqn:E.
  - apply String.eqb_eq in E; subst z. intros H; inversion H; now left.
  - intros H. right. now apply IH.
Qed.

Lemma alookup_none_name_in y es :
  alookup y es = None -> name_in y (map fst es) = false.
Proof.
  induction es as [|[z n] es IH]; simpl; [reflexivity|].
  destruct (String.eqb y z); [discriminate|]. exact IH.
Qed.

Lemma below_join_join src dest y :
  below (join src y) (join dest y) = true -> below src dest = true.
Proof.
  unfold join. intros H. apply below_inv in H as [q H].
  induction q as [|z q' _] using rev_ind.
  - rewrite app_nil_r in H. apply app_inj_tail in H as [-> _].
    apply below_self.
  - rewrite !app_assoc in H. apply app_inj_tail in H as [-> _].
    rewrite <- app_assoc. apply below_prefix.
Qed.

Lemma plain_child es m e :
  plain (Dir es m) = true -> In e es -> plain (snd e) = true.
Proof.
  rewrite plain_dir, forallb_forall. auto.
Qed.

(** A node of a plain, well-formed tree is a regular file or a directory. *)
Lemma file_or_dir n :
  plain n = true -> well_formed n = true ->
  (exists c m, n = File c m) \/ (exists es m, n = Dir es m).
Proof.
  destruct n as [c m | es m | m | m]; try discriminate; eauto.
Qed.

(** Unlinking the regular file [d/x]: the entry is gone. *)
Lemma do_unlink_spec now r d x c m :
  resolve r (d ++ [x]) = Ok (File c m) ->
  exists r',
    do_unlink now (d ++ [x]) r = Ok r' /\
    resolve r' (d ++ [x]) = Err ENOENT.
Proof.
  intros H. destruct (resolve_parent _ _ _ H) as [es [md [Hd Hx]]].
  unfold do_unlink. rewrite split_last_app.
  destruct (@update_dir_at d
              (fun es _ =>
                 match alookup x es with
                 | None => Err ENOENT
                 | Some n =>
                     if is_dir n then Err EISDIR
                     else Ok (Dir (aremove x es) now)
                 end) r es md (Dir (aremove x es) now) Hd)
    as [r' [Hu Hr']].
  { now rewrite Hx. }
  exists r'. split; [exact Hu|].
  rewrite resolve_app, Hr'. simpl.
  now rewrite alookup_aremove, String.eqb_refl.
Qed.

(** ** Calls that only add *)

Lemma keeps_entries_refl r : keeps_entries r r.
Proof.
  intros p. destruct (resolve r p) as [[c m | es m | m | m] | e]; eauto.
Qed.

Lemma keeps_entries_trans r1 r2 r3 :
  keeps_entries r1 r2 -> keeps_entries r2 r3 -> keeps_entries r1 r3.
Proof.
  intros H12 H23 p. specialize (H12 p). specialize (H23 p).
  destruct (resolve r1 p) as [[c m | es m | m | m] | e]; auto.
  - now rewrite H12 in H23.
  - destruct H12 as [es2 [m2 H12]]. now rewrite H12 in H23.
Qed.

Lemma keeps_entries_dir es m es' m' :
  (forall y n, alookup y es = Some n ->
     exists n', alookup y es' = Some n' /\ keeps_entries n n') ->
  keeps_entries (Dir es m) (Dir es' m').
Proof.
  intros H [|y p]; simpl; [eauto|].
  destruct (alookup y es) as [n|] eqn:E; [|exact I].
  destruct (H y n E) as [n' [E' K]]. rewrite E'. exact (K p).
Qed.

Lemma keeps_entries_snoc es m x n m' :
  keeps_entries (Dir es m) (Dir (es ++ [(x, n)]) m').
Proof.
  apply keeps_entries_dir. intros y c E. exists c.
  split; [|apply keeps_entries_refl]. now rewrite alookup_app, E.
Qed.

Lemma keeps_entries_areplace es m x c c' :
  alookup x es = Some c -> keeps_entries c c' ->
  keeps_entries (Dir es m) (Dir (areplace x c' es) m).
Proof.
  intros Hx Hc. apply keeps_entries_dir. intros y n E.
  rewrite alookup_areplace. destruct (String.eqb x y) eqn:Exy.
  - apply String.eqb_eq in Exy; subst y. rewrite E.
    exists c'. split; [reflexivity|].
    rewrite Hx in E. inversion E; subst n. exact Hc.
  - exists n. split; [exact E | apply keeps_entries_refl].
Qed.

Lemma do_mkdirp_keeps now t : forall r r',
  do_mkdirp now t r = Ok r' -> keeps_entries r r'.
Proof.
  induction t as [|x t IH]; intros r r' H.
  - simpl in H. destruct (is_dir r); [|discriminate].
    inversion H; subst. apply keeps_entries_refl.
  - destruct r as [| es m | |]; simpl in H; try discriminate.
    destruct (alookup x es) as [c|] eqn:Ex.
    + destruct (do_mkdirp now t c) as [c'|] eqn:Ec; [|discriminate].
      inversion H; subst.
      apply keeps_entries_areplace with (c := c); [exact Ex | now apply IH].
    + inversion H; subst. apply keeps_entries_snoc.
Qed.

Lemma update_dir_keeps f d : forall r r',
  (forall es m n', resolve r d = Ok (Dir es m) -> f es m = Ok n' ->
     keeps_entries (Dir es m) n') ->
  update_dir d f r = Ok r' -> keeps_entries r r'.
Proof.
  induction d as [|x d IH]; intros r r' Hf H.
  - destruct r as [| es m | |]; simpl in H; try discriminate.
    now apply Hf.
  - destruct r as [| es m | |]; simpl in H; try discriminate.
    destruct (alookup x es) as [c|] eqn:Ex; [|discriminate].
    destruct (update_dir d f c) as [c'|] eqn:Ec; [|discriminate].
    inversion H; subst.
    apply keeps_entries_areplace with (c := c); [exact Ex|].
    apply IH; [|exact Ec]. intros es0 m0 n' Hr. apply Hf.
    simpl. now rewrite Ex.
Qed.

(** [copyFile] to a destination that does not resolve can only add. *)
Lemma do_copyFile_keeps now src dest r r' e :
  resolve r dest = Err e ->
  do_copyFile now src dest r = Ok r' -> keeps_entries r r'.
Proof.
  intros Hd H. unfold do_copyFile in H.
  destruct (resolve r src) as [[c m | | |] |]; try discriminate.
  destruct (split_last dest) as [[d x]|] eqn:Es; [|discriminate].
  apply split_last_inv in Es; subst dest.
  refine (@update_dir_keeps _ d r r' _ H). intros es m0 n' Hr Hf.
  rewrite resolve_app, Hr in Hd. simpl in Hd.
  destruct (alookup x es); [discriminate|].
  inversion Hf; subst. apply keeps_entries_snoc.
Qed.

Lemma pv_ret {A} (a : A) : preserving (ret a).
Proof. intros s s' H. inversion H; subst. apply keeps_entries_refl. Qed.

Lemma pv_timeout {A} : preserving (@timeout A).
Proof. intros s s' H. discriminate. Qed.

Lemma pv_bind {A B} (m : M A) (k : A -> M B) :
  preserving m -> (forall a, preserving (k a)) -> preserving (bind m k).
Proof.
  intros Hm Hk s s' H. unfold bind in H.
  destruct (m s) as [a s1 | e s1 |] eqn:E.
  - apply keeps_entries_trans with (r2 := root s1);
      [apply Hm; now rewrite E | now apply (Hk a)].
  - apply Hm. now rewrite E.
  - discriminate.
Qed.

Lemma pv_query {A} c (f : node -> result A) : preserving (query c f).
Proof.
  intros s s' H. unfold query in H.
  destruct (f (root s)); inversion H; subst; apply keeps_entries_refl.
Qed.

Lemma pv_for_each {A} (f : A -> M unit) (l : list A) :
  (forall x, preserving (f x)) -> preserving (for_each l f).
Proof.
  intros Hf. induction l as [|x l IH]; simpl.
  - apply pv_ret.
  - apply pv_bind; [apply Hf | intros _; exact IH].
Qed.

Lemma pv_mkdir dest : preserving (mkdir_recursive dest).
Proof.
  intros s s' H. unfold mkdir_recursive, command in H.
  destruct (do_mkdirp (clock s) dest (root s)) as [r'|e] eqn:E;
    inversion H; subst; cbn [root].
  - exact (do_mkdirp_keeps _ _ _ E).
  - apply keeps_entries_refl.
Qed.

Lemma denies_flag options srcStat destStat :
  denies options = true -> overwrite_flag options srcStat destStat = false.
Proof.
  unfold overwrite_flag, denies.
  destruct (options_overwrite options) as [[]|]; intros H;
    try discriminate; reflexivity.
Qed.

(** ** Any function of the shape of [copy] *)

Section Copier.

Variable statDest : path -> M (option Stats).
Variable cp : nat -> path -> path -> option CopyOptions -> M unit.

Hypothesis cp_zero : forall src dest options, cp 0 src dest options = timeout.
Hypothesis cp_step : forall fuel src dest options,
  cp (S fuel) src dest options = copy_body statDest (cp fuel) src dest options.
Hypothesis statDest_logs : forall p s,
  exists r, statDest p s = r /\ final r = Some (logged (CallStat p) s).
Hypothesis statDest_found : forall p s n,
  resolve (root s) p = Ok n ->
  statDest p s = Done (Some (stats_of n)) (logged (CallStat p) s).
Hypothesis statDest_absent : forall p s,
  resolve (root s) p = Err ENOENT ->
  statDest p s = Done None (logged (CallStat p) s).

Lemma la_statDest dest p : leaves_apart dest (statDest p).
Proof.
  intros s s' H q _. destruct (statDest_logs p s) as [r [E F]].
  rewrite E, F in H. inversion H; now subst.
Qed.

Lemma co_statDest (P : fs_call -> bool) p :
  P (CallStat p) = true -> calls_only P (statDest p).
Proof.
  intros HP s s' H. destruct (statDest_logs p s) as [r [E F]].
  rewrite E, F in H. inversion H; subst. exists [CallStat p].
  simpl. now rewrite HP.
Qed.

(** However it ends, the function leaves what is apart from [dest] as it
    was. *)
Lemma cp_leaves_apart fuel : forall src dest options,
  leaves_apart dest (cp fuel src dest options).
Proof.
  induction fuel as [|fuel IH]; intros src dest options.
  - rewrite cp_zero. apply la_timeout.
  - rewrite cp_step. unfold copy_body.
    apply la_bind; [apply la_query | intros srcStat].
    apply la_bind; [apply la_statDest | intros destStat].
    cbv zeta.
    assert (Hcont : leaves_apart dest
      (bind (mkdir_recursive dest) (fun _ =>
       bind (readdir src) (fun files =>
       for_each files (fun file =>
         cp fuel (join src file) (join dest file) None))))).
    { apply la_bind; [apply la_mkdir | intros _].
      apply la_bind; [apply la_query | intros files].
      apply la_for_each. intros file.
      apply la_weaken with (t := join dest file);
        [apply below_prefix | apply IH]. }
    destruct (isFile srcStat).
    + destruct destStat as [d|]; [|apply la_copyFile].
      destruct (overwrite_flag options srcStat (Some d)); [|apply la_ret].
      apply la_bind; [|intros _; apply la_copyFile].
      destruct (isDirectory d); [apply la_rm | apply la_ret].
    + destruct (isDirectory srcStat); [|apply la_ret].
      destruct (match destStat with Some d => isFile d | None => false end);
        [|exact Hcont].
      destruct (overwrite_flag options srcStat destStat); [|apply la_ret].
      apply la_bind; [apply la_unlink | intros _; exact Hcont].
Qed.

(** However it ends, the function has read only at or below its two paths
    and written only at or below [dest]. *)
Lemma cp_calls_within fuel : forall src dest options,
  calls_only (within src dest) (cp fuel src dest options).
Proof.
  induction fuel as [|fuel IH]; intros src dest options.
  - rewrite cp_zero. apply co_timeout.
  - rewrite cp_step. unfold copy_body.
    assert (Hs : below src src = true) by apply below_self.
    assert (Hd : below dest dest = true) by apply below_self.
    apply co_bind;
      [apply co_query; simpl; now rewrite Hs | intros srcStat].
    apply co_bind;
      [apply co_statDest; simpl; now rewrite Hd, orb_true_r
      | intros destStat].
    cbv zeta.
    assert (Hcp : calls_only (within src dest) (copyFile src dest))
      by (apply co_command; simpl; now rewrite Hs, Hd).
    assert (Hcont : calls_only (within src dest)
      (bind (mkdir_recursive dest) (fun _ =>
       bind (readdir src) (fun files =>
       for_each files (fun file =>
         cp fuel (join src file) (join dest file) None))))).
    { apply co_bind; [apply co_command; exact Hd | intros _].
      apply co_bind;
        [apply co_query; simpl; now rewrite Hs | intros files].
      apply co_for_each. intros file.
      apply co_weaken with (P := within (join src file) (join dest file));
        [apply within_child | apply IH]. }
    destruct (isFile srcStat).
    + destruct destStat as [d|]; [|exact Hcp].
      destruct (overwrite_flag options srcStat (Some d)); [|apply co_ret].
      apply co_bind; [|intros _; exact Hcp].
      destruct (isDirectory d);
        [apply co_command; exact Hd | apply co_ret].
    + destruct (isDirectory srcStat); [|apply co_ret].
      destruct (match destStat with Some d => isFile d | None => false end);
        [|exact Hcont].
      destruct (overwrite_flag options srcStat destStat); [|apply co_ret].
      apply co_bind; [apply co_command; exact Hd | intros _; exact Hcont].
Qed.

Lemma mirrors_frame r r' p n :
  (forall q, resolve r' (p ++ q) = resolve r (p ++ q)) ->
  mirrors r p n -> mirrors r' p n.
Proof.
  intros H M q. specialize (M q). rewrite H. exact M.
Qed.

(** The lines after the checks of a directory source: the destination is
    created with its missing parents, and the children are copied into it. *)
Lemma cp_continue fuel (IH : copies_trees fuel (cp fuel)) :
  forall src dest st nes nm,
  resolve (root st) src = Ok (Dir nes nm) ->
  plain (Dir nes nm) = true -> well_formed (Dir nes nm) = true ->
  depth (Dir nes nm) < S fuel ->
  resolve (root st) dest = Err ENOENT ->
  apart dest src = true ->
  exists st',
    FS.bind (mkdir_recursive dest) (fun _ =>
      FS.bind (readdir src) (fun files =>
        for_each files (fun file =>
          cp fuel (join src file) (join dest file) None))) st
    = Done tt st' /\
    mirrors (root st') dest (Dir nes nm).
Proof.
  intros src dest st nes nm Hsrc Hplain Hwf Hdepth Hd0 Hapart.
  assert (Hout : below src dest = false).
  { unfold apart in Hapart. apply andb_prop in Hapart as [_ H].
    now apply negb_true_iff in H. }
  destruct (well_formed_dir _ _ Hwf) as [Hnames Hsub].
  destruct (@do_mkdirp_fresh (clock st) dest (root st) Hd0)
    as [r1 [Hmk Hr1]].
  rewrite bind_run. unfold mkdir_recursive at 1, command at 1.
  rewrite Hmk.
  set (s3 := mkState r1 (clock st) (log st ++ [CallMkdir dest])).
  assert (Hsrc3 : resolve (root s3) src = Ok (Dir nes nm)).
  { cbn [root s3]. rewrite (do_mkdirp_apart _ _ _ _ Hmk Hapart).
    exact Hsrc. }
  rewrite bind_run. unfold readdir at 1, query at 1, do_readdir at 1.
  rewrite Hsrc3.
  set (s4 := logged (CallReaddir src) s3).
  pose (Inv := fun (es1 : entries_t) (s : state) =>
    resolve (root s) src = Ok (Dir nes nm) /\
    (exists des dm, resolve (root s) dest = Ok (Dir des dm)) /\
    (forall y c, In (y, c) es1 -> mirrors (root s) (dest ++ [y]) c) /\
    (forall y, name_in y (map fst es1) = false ->
       resolve (root s) (dest ++ [y]) = Err ENOENT)).
  assert (Loop : forall es2 es1 s,
    nes = es1 ++ es2 -> Inv es1 s ->
    exists s',
      for_each (map fst es2)
        (fun file => cp fuel (join src file) (join dest file) None) s
      = Done tt s' /\ Inv nes s').
  { induction es2 as [|[y c] es2 IHes]; intros es1 s Hnes HInv.
    - rewrite app_nil_r in Hnes. subst es1.
      exists s. split; [reflexivity | exact HInv].
    - destruct HInv as (I1 & (des & dm & I2) & I3 & I4).
      assert (Hyc : In (y, c) nes)
        by (rewrite Hnes; apply in_or_app; right; now left).
      assert (Hdist := Hnames). rewrite Hnes, map_app in Hdist.
      cbn [map fst] in Hdist.
      destruct (distinct_middle _ _ _ Hdist) as [Hy1 Hy2].
      assert (Hplain_c : plain c = true)
        by exact (plain_child _ _ (y, c) Hplain Hyc).
      assert (Hwf_c : well_formed c = true) by exact (Hsub (y, c) Hyc).
      assert (Hdepth_c : depth c < fuel).
      { pose proof (depth_dir nes nm _ Hyc) as K. simpl snd in K. lia. }
      assert (Hsrc_c : resolve (root s) (join src y) = Ok c).
      { unfold join. rewrite resolve_app, I1. simpl.
        now rewrite (alookup_distinct _ _ _ Hnames Hyc). }
      assert (Hx_c : alookup y des = None).
      { pose proof (I4 y Hy1) as K. rewrite resolve_app, I2 in K.
        simpl in K. destruct (alookup y des); [discriminate|reflexivity]. }
      assert (Hout_c : below (join src y) (join dest y) = false).
      { destruct (below (join src y) (join dest y)) eqn:E; [|reflexivity].
        apply below_join_join in E. congruence. }
      destruct (IH (join src y) (join dest y) None s c dest y des dm
                  Hsrc_c Hplain_c Hwf_c Hdepth_c eq_refl I2 Hx_c Hout_c)
        as [s' [Hrun Hmir]].
      assert (F : forall q, apart (join dest y) q = true ->
                    resolve (root s') q = resolve (root s) q).
      { apply (@cp_leaves_apart fuel (join src y) (join dest y) None s s').
        now rewrite Hrun. }
      assert (HInv' : Inv (es1 ++ [(y, c)]) s').
      { repeat split.
        - rewrite F; [exact I1|].
          apply apart_below with (dest := dest);
            [apply below_prefix | exact Hapart].
        - pose proof (Hmir []) as K. simpl in K.
          unfold join in K. rewrite app_nil_r in K.
          destruct (file_or_dir _ Hplain_c Hwf_c)
            as [[c0 [m1 ->]] | [es0 [m1 ->]]].
          + destruct K as [m2 K].
            destruct (resolve_parent _ _ _ K) as [des' [dm' [K' _]]].
            eauto.
          + destruct K as [es2' [m2 K]].
            destruct (resolve_parent _ _ _ K) as [des' [dm' [K' _]]].
            eauto.
        - intros y' c' Hin'. apply in_app_or in Hin' as [Hin' | Hin'].
          + apply mirrors_frame with (r := root s); [|now apply I3].
            intros q. apply F. rewrite <- app_assoc. cbn [app].
            apply apart_siblings. apply Hy2.
            change y' with (fst (y', c')). now apply in_map.
          + destruct Hin' as [E | []]. inversion E; subst. exact Hmir.
        - intros z Hz. rewrite map_app, name_in_app in Hz.
          apply orb_false_elim in Hz as [Hz1 Hz2]. simpl in Hz2.
          rewrite orb_false_r in Hz2.
          rewrite F; [now apply I4|].
          change (dest ++ [z]) with (dest ++ z :: []).
          apply apart_siblings. now rewrite String.eqb_sym. }
      destruct (IHes (es1 ++ [(y, c)]) s') as [s'' [Hrest HInv'']];
        [now rewrite <- app_assoc | exact HInv' |].
      exists s''. split; [|exact HInv''].
      cbn [map fst for_each]. rewrite bind_run, Hrun. exact Hrest. }
  destruct (Loop nes [] s4 eq_refl) as [s' [Hrun (J1 & (des & dm & J2) & J3 & J4)]].
  { repeat split.
    - exact Hsrc3.
    - exists [], (clock st). exact Hr1.
    - intros y c [].
    - intros y _. cbn [root s4 s3 logged].
      now rewrite resolve_app, Hr1. }
  exists s'. split; [exact Hrun|].
  intros q. destruct q as [|y q].
  + simpl. rewrite app_nil_r. eauto.
  + simpl. destruct (alookup y nes) as [c|] eqn:Ey.
    * pose proof (J3 y c (alookup_some_in _ _ Ey) q) as K.
      rewrite <- app_assoc in K. exact K.
    * change (dest ++ y :: q) with (dest ++ [y] ++ q).
      rewrite app_assoc, resolve_app.
      now rewrite (J4 y (alookup_none_name_in _ _ Ey)).
Qed.

(** A plain, well-formed tree copied to a name that its directory does not
    have yet, outside the source: the function returns and the destination
    mirrors the source. *)
Lemma cp_mirrors fuel : copies_trees fuel (cp fuel).
Proof.
  induction fuel as [|fuel IH];
    intros src dest options st n d x es m Hsrc Hplain Hwf Hdepth
           Edest Hd Hx Hout; [lia|].
  assert (Hd0 : resolve (root st) dest = Err ENOENT).
  { subst dest. rewrite resolve_app, Hd. simpl. now rewrite Hx. }
  assert (Hin : below dest src = false).
  { destruct (below dest src) eqn:E; [|reflexivity].
    apply below_inv in E as [q ->].
    rewrite resolve_app, Hd0 in Hsrc. discriminate. }
  assert (Hapart : apart dest src = true)
    by (unfold apart; now rewrite Hin, Hout).
  rewrite cp_step. unfold copy_body.
  rewrite (bind_run (stat src)), (stat_found _ _ Hsrc).
  set (s1 := logged (CallStat src) st).
  rewrite (bind_run (statDest dest)), (statDest_absent dest s1 Hd0).
  set (s2 := logged (CallStat dest) s1).
  cbv zeta.
  destruct (file_or_dir _ Hplain Hwf) as [[c [m0 ->]] | [nes [nm ->]]].
  - (* a regular file *)
    cbn [stats_of isFile st_kind]. subst dest.
    destruct (@do_copyFile_spec (clock s2) (root s2) src c m0 d x es m
                Hsrc Hd (or_introl Hx)) as [r' [Hcp Hr']].
    rewrite (@copyFile_run s2 src (d ++ [x]) r' Hcp).
    eexists; split; [reflexivity|]. cbn [root].
    intros q. destruct q as [|y q].
    + simpl. rewrite app_nil_r. eauto.
    + rewrite resolve_app, Hr'. reflexivity.
  - (* a directory *)
    cbn [stats_of isFile isDirectory st_kind].
    exact (@cp_continue fuel IH src dest s2 nes nm
             Hsrc Hplain Hwf Hdepth Hd0 Hapart).
Qed.


(** A directory copied over a regular file when [overwrite] is set: the file
    is unlinked and the directory takes its place. *)
Lemma cp_directory_replaces_file fuel src dest options st nes nm c m :
  resolve (root st) src = Ok (Dir nes nm) ->
  plain (Dir nes nm) = true -> well_formed (Dir nes nm) = true ->
  depth (Dir nes nm) < fuel ->
  resolve (root st) dest = Ok (File c m) ->
  below src dest = false ->
  overwrite_flag options (stats_of (Dir nes nm)) (Some (stats_of (File c m)))
  = true ->
  exists st',
    cp fuel src dest options st = Done tt st' /\
    mirrors (root st') dest (Dir nes nm) /\
    In (CallUnlink dest) (issued st st').
Proof.
  intros Hsrc Hplain Hwf Hdepth Hd Hout Ho.
  destruct fuel as [|fuel]; [lia|].
  assert (Hin : below dest src = false).
  { apply (file_not_above _ _ _ Hd Hsrc). reflexivity. }
  assert (Hapart : apart dest src = true)
    by (unfold apart; now rewrite Hin, Hout).
  assert (Hdne : dest <> []).
  { intros ->. simpl in Hd. inversion Hd as [Hr]. rewrite Hr in Hsrc.
    destruct src; discriminate. }
  destruct (nonempty_path_split Hdne) as [d [x ->]].
  destruct (@do_unlink_spec (clock st) (root st) d x c m Hd)
    as [r1 [Hun Hr1]].
  rewrite cp_step. unfold copy_body.
  rewrite (bind_run (stat src)), (stat_found _ _ Hsrc).
  set (s1 := logged (CallStat src) st).
  rewrite (bind_run (statDest (d ++ [x]))).
  rewrite (statDest_found (d ++ [x]) s1 Hd).
  set (s2 := logged (CallStat (d ++ [x])) s1).
  cbv zeta. rewrite Ho. cbn [stats_of isFile isDirectory st_kind].
  rewrite bind_run. unfold unlink at 1, command at 1.
  cbn [clock root s2 s1 logged]. rewrite Hun.
  set (s3 := mkState r1 _ _).
  assert (Hsrc3 : resolve (root s3) src = Ok (Dir nes nm)).
  { cbn [root s3]. rewrite (do_unlink_apart _ _ _ _ Hun Hapart).
    exact Hsrc. }
  destruct (@cp_continue fuel (@cp_mirrors fuel) src (d ++ [x]) s3 nes nm
              Hsrc3 Hplain Hwf Hdepth Hr1 Hapart) as [st' [Hrun Hmir]].
  exists st'. split; [exact Hrun | split; [exact Hmir|]].
  assert (Kf : final
            (FS.bind (mkdir_recursive (d ++ [x])) (fun _ =>
               FS.bind (readdir src) (fun files =>
                 for_each files (fun file =>
                   cp fuel (join src file) (join (d ++ [x]) file) None)))
               s3) = Some st') by now rewrite Hrun.
  assert (Kc : calls_only (fun _ => true)
            (FS.bind (mkdir_recursive (d ++ [x])) (fun _ =>
               FS.bind (readdir src) (fun files =>
                 for_each files (fun file =>
                   cp fuel (join src file) (join (d ++ [x]) file) None))))).
  { apply co_bind; [now apply co_command|]. intros _.
    apply co_bind; [now apply co_query|]. intros files.
    apply co_for_each. intros file.
    apply co_weaken with (P := within (join src file) (join (d ++ [x]) file));
      [reflexivity | apply cp_calls_within]. }
  destruct (Kc s3 st' Kf) as [l [Hl _]].
  unfold issued. rewrite Hl. subst s3 s2 s1. unfold logged. cbn [log].
  repeat rewrite <- app_assoc. rewrite skipn_app, Nat.sub_diag.
  rewrite skipn_all. cbn [app skipn]. right; right; now left.
Qed.

(** Without leave to overwrite, the function only adds. *)
Lemma cp_preserving fuel : forall src dest options,
  denies options = true -> preserving (cp fuel src dest options).
Proof.
  induction fuel as [|fuel IH]; intros src dest options Ho.
  - rewrite cp_zero. apply pv_timeout.
  - assert (Hcont : preserving
      (bind (mkdir_recursive dest) (fun _ =>
       bind (readdir src) (fun files =>
       for_each files (fun file =>
         cp fuel (join src file) (join dest file) None))))).
    { apply pv_bind; [apply pv_mkdir | intros _].
      apply pv_bind; [apply pv_query | intros files].
      apply pv_for_each. intros file. now apply IH. }
    intros s s' H. rewrite cp_step in H. unfold copy_body in H.
    rewrite (bind_run (stat src)) in H.
    unfold stat at 1, query at 1 in H.
    destruct (do_stat src (root s)) as [srcStat|e].
    2:{ inversion H; subst. apply keeps_entries_refl. }
    set (s1 := logged (CallStat src) s) in H.
    rewrite (bind_run (statDest dest)) in H.
    destruct (statDest_logs dest s1) as [o [E F]].
    destruct (statDest dest s1) as [destStat s2 | e s2 |] eqn:Ed;
      subst o; simpl in F; [| |discriminate].
    2:{ inversion F; subst s2. inversion H; subst.
        apply keeps_entries_refl. }
    inversion F; subst s2. clear F.
    cbv zeta in H. rewrite (denies_flag _ _ _ Ho) in H.
    destruct (isFile srcStat).
    + destruct destStat as [d|].
      { inversion H; subst. apply keeps_entries_refl. }
      destruct (resolve (root s1) dest) as [n'|e] eqn:Hd.
      { rewrite (statDest_found dest s1 Hd) in Ed. discriminate. }
      unfold copyFile, command in H. cbn [root clock logged] in H.
      destruct (do_copyFile (clock s1) src dest (root s1)) as [r'|e']
        eqn:Ec; inversion H; subst; cbn [root].
      * exact (do_copyFile_keeps _ _ _ _ Hd Ec).
      * apply keeps_entries_refl.
    + destruct (isDirectory srcStat).
      2:{ inversion H; subst. apply keeps_entries_refl. }
      destruct (match destStat with Some d => isFile d | None => false end).
      { inversion H; subst. apply keeps_entries_refl. }
      exact (Hcont _ _ H).
Qed.

End Copier.

(** ** [copy] and [copySync] are of that shape *)

Lemma stat_catch_null_logs p s :
  exists r, stat_catch_null p s = r /\ final r = Some (logged (CallStat p) s).
Proof.
  eexists; split; [reflexivity|].
  unfold stat_catch_null, stat, query. now destruct (do_stat p (root s)).
Qed.

Lemma statSync_noThrow_logs b p s :
  exists r,
    statSync_noThrow b p s = r /\ final r = Some (logged (CallStat p) s).
Proof.
  eexists; split; [reflexivity|].
  unfold statSync_noThrow, stat, query.
  destruct (do_stat p (root s)) as [a|e]; [reflexivity|].
  now destruct (no_entry b e).
Qed.

Lemma stat_catch_null_found p s n :
  resolve (root s) p = Ok n ->
  stat_catch_null p s = Done (Some (stats_of n)) (logged (CallStat p) s).
Proof. intros H. now destruct (stat_dest_found false _ _ H). Qed.

Lemma statSync_noThrow_found b p s n :
  resolve (root s) p = Ok n ->
  statSync_noThrow b p s = Done (Some (stats_of n)) (logged (CallStat p) s).
Proof. intros H. now destruct (stat_dest_found b _ _ H). Qed.

Lemma stat_catch_null_absent p s :
  resolve (root s) p = Err ENOENT ->
  stat_catch_null p s = Done None (logged (CallStat p) s).
Proof.
  intros H. unfold stat_catch_null. now rewrite (stat_missing _ _ H).
Qed.

Lemma statSync_noThrow_absent b p s :
  resolve (root s) p = Err ENOENT ->
  statSync_noThrow b p s = Done None (logged (CallStat p) s).
Proof.
  intros H. unfold statSync_noThrow. now rewrite (stat_missing _ _ H).
Qed.

Lemma copy_leaves_apart fuel src dest options :
  leaves_apart dest (copy fuel src dest options).
Proof.
  apply (@cp_leaves_apart stat_catch_null copy).
  - reflexivity.
  - reflexivity.
  - exact stat_catch_null_logs.
Qed.

Lemma copySync_leaves_apart b fuel src dest options :
  leaves_apart dest (copySync b fuel src dest options).
Proof.
  apply (@cp_leaves_apart (statSync_noThrow b) (copySync b)).
  - reflexivity.
  - reflexivity.
  - exact (statSync_noThrow_logs b).
Qed.

Lemma copy_calls_within fuel src dest options :
  calls_only (within src dest) (copy fuel src dest options).
Proof.
  apply (@cp_calls_within stat_catch_null copy).
  - reflexivity.
  - reflexivity.
  - exact stat_catch_null_logs.
Qed.

Lemma copySync_calls_within b fuel src dest options :
  calls_only (within src dest) (copySync b fuel src dest options).
Proof.
  apply (@cp_calls_within (statSync_noThrow b) (copySync b)).
  - reflexivity.
  - reflexivity.
  - exact (statSync_noThrow_logs b).
Qed.

(** X8.  Whatever [copy] or [copySync] does and however it ends (returning
    or failing half-way), every path that is neither at or below the
    destination nor on the way to it resolves afterwards as it did before:
    the source, in particular, is only read. *)
Theorem copy_leaves_the_rest_alone
    (b : bool) (fuel : nat) (src dest : path) (options : option CopyOptions)
    (st st' : state) (run : M unit) (q : path) :
  run = copy fuel src dest options \/
  run = copySync b fuel src dest options ->
  final (run st) = Some st' ->
  apart dest q = true ->
  resolve (root st') q = resolve (root st) q.
Proof.
  intros [-> | ->] Hfin Hq.
  - exact (@copy_leaves_apart fuel src dest options st st' Hfin q Hq).
  - exact (@copySync_leaves_apart b fuel src dest options st st' Hfin q Hq).
Qed.

Lemma copy_leaves_the_rest_alone_witness :
  exists st',
    final (copy 3 ["s"] ["d"] always (at_time tree_dirs 9)) = Some st' /\
    resolve (root st') ["s"; "a.txt"] = resolve tree_dirs ["s"; "a.txt"].
Proof.
  eexists. split; [vm_compute; reflexivity|].
  apply (@copy_leaves_the_rest_alone false 3 ["s"] ["d"] always
           (at_time tree_dirs 9) _ (copy 3 ["s"] ["d"] always)
           ["s"; "a.txt"]);
    [left; reflexivity | vm_compute; reflexivity | reflexivity].
Defined.

(** X9.  Every file-system call [copy] or [copySync] issues, however it
    ends, stays within its two arguments: [stat] and [readdir] at or below
    the source or the destination, [copyFile] from below the source to below
    the destination, and [rm], [unlink] and [mkdir] at or below the
    destination only. *)
Theorem copy_calls_stay_within
    (b : bool) (fuel : nat) (src dest : path) (options : option CopyOptions)
    (st st' : state) (run : M unit) :
  run = copy fuel src dest options \/
  run = copySync b fuel src dest options ->
  final (run st) = Some st' ->
  exists calls,
    log st' = log st ++ calls /\ forallb (within src dest) calls = true.
Proof.
  intros [-> | ->] Hfin.
  - exact (@copy_calls_within fuel src dest options st st' Hfin).
  - exact (@copySync_calls_within b fuel src dest options st st' Hfin).
Qed.

Lemma copy_calls_stay_within_witness :
  exists st' calls,
    final (copySync false 3 ["s"] ["d"] always (at_time tree_dirs 9))
      = Some st' /\
    log st' = [] ++ calls /\ forallb (within ["s"] ["d"]) calls = true.
Proof.
  eexists.
  assert (H : final (copySync false 3 ["s"] ["d"] always
                       (at_time tree_dirs 9)) = Some _)
    by (vm_compute; reflexivity).
  destruct (@copy_calls_stay_within false 3 ["s"] ["d"] always
              (at_time tree_dirs 9) _
              (copySync false 3 ["s"] ["d"] always)
              (or_intror eq_refl) H) as [calls [H1 H2]].
  exists calls. split; [exact H | split; [exact H1 | exact H2]].
Defined.

(** X10.  A tree of regular files and directories (no name twice in a
    directory), copied by [copy] or [copySync] to a name that an existing
    directory does not have yet and that does not lie inside the source:
    with fuel for the depth of the tree the call returns, whatever the
    options; every file of the source is found under the destination with
    the same bytes, every directory as a directory, nothing else is there;
    and the source is as it was. *)
Theorem copy_of_a_tree_mirrors_it
    (b : bool) (fuel : nat) (src d : path) (x : string)
    (options : option CopyOptions) (st : state) (n : node)
    (es : entries_t) (m : Z) (run : M unit) :
  run = copy fuel src (d ++ [x]) options \/
  run = copySync b fuel src (d ++ [x]) options ->
  resolve (root st) src = Ok n ->
  plain n = true -> well_formed n = true -> depth n < fuel ->
  resolve (root st) d = Ok (Dir es m) -> alookup x es = None ->
  below src (d ++ [x]) = false ->
  exists st',
    run st = Done tt st' /\
    mirrors (root st') (d ++ [x]) n /\
    resolve (root st') src = Ok n.
Proof.
  intros Hrun Hsrc Hplain Hwf Hdepth Hd Hx Hout.
  assert (Hd0 : resolve (root st) (d ++ [x]) = Err ENOENT).
  { rewrite resolve_app, Hd. simpl. now rewrite Hx. }
  assert (Hin : below (d ++ [x]) src = false).
  { destruct (below (d ++ [x]) src) eqn:E; [|reflexivity].
    apply below_inv in E as [q ->].
    rewrite resolve_app, Hd0 in Hsrc. discriminate. }
  assert (Hapart : apart (d ++ [x]) src = true)
    by (unfold apart; now rewrite Hin, Hout).
  destruct Hrun as [-> | ->].
  - destruct (@cp_mirrors stat_catch_null copy
                (fun _ _ _ => eq_refl) (fun _ _ _ _ => eq_refl)
                stat_catch_null_logs
                stat_catch_null_absent
                fuel src (d ++ [x]) options st n d x es m
                Hsrc Hplain Hwf Hdepth eq_refl Hd Hx Hout)
      as [st' [Hdone Hmir]].
    exists st'. repeat split; [exact Hdone | exact Hmir |].
    rewrite <- Hsrc.
    apply (@copy_leaves_apart fuel src (d ++ [x]) options st st');
      [now rewrite Hdone | exact Hapart].
  - destruct (@cp_mirrors (statSync_noThrow b) (copySync b)
                (fun _ _ _ => eq_refl) (fun _ _ _ _ => eq_refl)
                (statSync_noThrow_logs b)
                (statSync_noThrow_absent b)
                fuel src (d ++ [x]) options st n d x es m
                Hsrc Hplain Hwf Hdepth eq_refl Hd Hx Hout)
      as [st' [Hdone Hmir]].
    exists st'. repeat split; [exact Hdone | exact Hmir |].
    rewrite <- Hsrc.
    apply (@copySync_leaves_apart b fuel src (d ++ [x]) options st st');
      [now rewrite Hdone | exact Hapart].
Qed.

Lemma copy_of_a_tree_mirrors_it_witness :
  exists st',
    copy 3 ["s"] ([] ++ ["t"]) never (at_time tree_dirs 9) = Done tt st' /\
    mirrors (root st') ([] ++ ["t"])
      (Dir [("a.txt", File "new" 5);
            ("sub", Dir [("b.txt", File "yo" 1)] 1)] 5) /\
    resolve (root st') ["s"]
    = Ok (Dir [("a.txt", File "new" 5);
               ("sub", Dir [("b.txt", File "yo" 1)] 1)] 5).
Proof.
  apply (@copy_of_a_tree_mirrors_it false 3 ["s"] [] "t" never
           (at_time tree_dirs 9)
           (Dir [("a.txt", File "new" 5);
                 ("sub", Dir [("b.txt", File "yo" 1)] 1)] 5)
           [("s", Dir [("a.txt", File "new" 5);
                       ("sub", Dir [("b.txt", File "yo" 1)] 1)] 5);
            ("d", Dir [("a.txt", File "old" 1)] 1)] 0
           (copy 3 ["s"] ([] ++ ["t"]) never));
    [left; reflexivity | reflexivity | reflexivity | reflexivity
    | simpl; lia | reflexivity | reflexivity | reflexivity].
Defined.

(** ** Single invocations *)

Lemma update_dir_err f d : forall r e,
  resolve r d = Err e -> update_dir d f r = Err e.
Proof.
  induction d as [|y d IH]; intros r e H; [discriminate|].
  destruct r as [| es m | |]; simpl in *; try exact H.
  destruct (alookup y es) as [c|]; [|exact H].
  now rewrite (IH c e H).
Qed.

Lemma files_apart r p q c m c' m' :
  resolve r p = Ok (File c m) -> resolve r q = Ok (File c' m') ->
  p <> q -> apart q p = true.
Proof.
  intros Hp Hq Hne.
  assert (K : forall a b ca ma cb mb,
            resolve r a = Ok (File ca ma) -> resolve r b = Ok (File cb mb) ->
            a <> b -> below a b = false).
  { intros a b0 ca ma cb mb Ha Hb Hab.
    destruct (below a b0) eqn:E; [|reflexivity].
    apply below_inv in E as [t ->].
    rewrite resolve_app, Ha in Hb.
    destruct t as [|x t]; [|discriminate].
    rewrite app_nil_r in Hab. congruence. }
  unfold apart.
  rewrite (K q p _ _ _ _ Hq Hp (fun E => Hne (eq_sym E))).
  now rewrite (K p q _ _ _ _ Hp Hq Hne).
Qed.

(** X11.  On a tree of regular files and directories [copy] and [copySync]
    do the same, whichever errors [statSync] throws: for every source,
    destination and options they end alike in the same state, or both fail
    with the same error code and leave the same tree. *)
Theorem copy_and_copySync_agree_on_plain_trees
    (b : bool) (fuel : nat) (src dest : path) (options : option CopyOptions)
    (st : state) :
  plain (root st) = true ->
  copy fuel src dest options st = copySync b fuel src dest options st \/
  exists e s1 s2,
    copy fuel src dest options st = Fail e s1 /\
    copySync b fuel src dest options st = Fail e s2 /\
    root s1 = root s2.
Proof.
  intros H. exact (@copySync_agrees_with_copy b fuel src dest options st H).
Qed.

Lemma copy_and_copySync_agree_witness :
  copy 1 ["d"; "f"] ["d"; "g"; "x"] None (at_time tree_inside 9)
  = copySync false 1 ["d"; "f"] ["d"; "g"; "x"] None (at_time tree_inside 9)
  \/
  exists e s1 s2,
    copy 1 ["d"; "f"] ["d"; "g"; "x"] None (at_time tree_inside 9)
    = Fail e s1 /\
    copySync false 1 ["d"; "f"] ["d"; "g"; "x"] None (at_time tree_inside 9)
    = Fail e s2 /\
    root s1 = root s2.
Proof.
  apply (@copy_and_copySync_agree_on_plain_trees false 1 ["d"; "f"]
           ["d"; "g"; "x"] None (at_time tree_inside 9)).
  reflexivity.
Defined.

(** X12.  With a directory as source the options are looked at only when
    the destination is a regular file: over a directory, over a missing
    destination or over anything else, [copy] and [copySync] do with any
    options what they do without, because the children are copied without
    them. *)
Theorem directory_source_ignores_options
    (b : bool) (fuel : nat) (src dest : path) (options : option CopyOptions)
    (st : state) (es : entries_t) (m : Z) :
  resolve (root st) src = Ok (Dir es m) ->
  (forall c m', resolve (root st) dest <> Ok (File c m')) ->
  copy fuel src dest options st = copy fuel src dest None st /\
  copySync b fuel src dest options st = copySync b fuel src dest None st.
Proof.
  intros Hs Hd. destruct fuel as [|fuel]; [split; reflexivity|].
  rewrite !copy_step, !copySync_step.
  rewrite !(bind_run (stat src)), (stat_found _ _ Hs).
  set (s1 := logged (CallStat src) st).
  rewrite !(bind_run (stat_catch_null dest)),
          !(bind_run (statSync_noThrow b dest)).
  destruct (resolve (root s1) dest) as [n'|e] eqn:Hdest.
  - destruct (stat_dest_found b _ _ Hdest) as [-> ->]. cbv zeta.
    destruct n' as [c' m' | es' m' | m' | m'];
      [exfalso; exact (Hd c' m' Hdest) | | |]; split; reflexivity.
  - unfold stat_catch_null, statSync_noThrow.
    rewrite (stat_missing _ _ Hdest).
    destruct (no_entry b e); split; reflexivity.
Qed.

Lemma directory_source_ignores_options_witness :
  copy 3 ["s"] ["t"] always (at_time tree_dirs 9)
  = copy 3 ["s"] ["t"] None (at_time tree_dirs 9) /\
  copySync false 3 ["s"] ["t"] always (at_time tree_dirs 9)
  = copySync false 3 ["s"] ["t"] None (at_time tree_dirs 9).
Proof.
  apply (@directory_source_ignores_options false 3 ["s"] ["t"] always
           (at_time tree_dirs 9)
           [("a.txt", File "new" 5); ("sub", Dir [("b.txt", File "yo" 1)] 1)]
           5);
    [reflexivity | intros c m'; simpl; discriminate].
Defined.

(** X13.  A regular file copied to a destination whose directory does not
    exist: [copy] and [copySync] fail with [ENOENT] at [copyFile], after the
    two [stat] calls; no directory is created and the tree is as it was.
    (Only a directory source creates the missing directories.) *)
Theorem file_copy_needs_the_directory
    (b : bool) (fuel : nat) (src d : path) (x : string)
    (options : option CopyOptions) (st : state) (c : string) (m : Z)
    (run : M unit) :
  run = copy (S fuel) src (d ++ [x]) options \/
  run = copySync b (S fuel) src (d ++ [x]) options ->
  resolve (root st) src = Ok (File c m) ->
  resolve (root st) d = Err ENOENT ->
  exists st',
    run st = Fail ENOENT st' /\ root st' = root st /\
    issued st st'
    = [CallStat src; CallStat (d ++ [x]); CallCopyFile src (d ++ [x])].
Proof.
  intros Hrun Hs Hd.
  assert (Hd0 : resolve (root st) (d ++ [x]) = Err ENOENT)
    by (now rewrite resolve_app, Hd).
  assert (K : do_copyFile (clock st) src (d ++ [x]) (root st) = Err ENOENT).
  { unfold do_copyFile. rewrite Hs, split_last_app.
    now apply update_dir_err. }
  set (s1 := logged (CallStat src) st).
  set (s2 := logged (CallStat (d ++ [x])) s1).
  assert (E : run st = copyFile src (d ++ [x]) s2).
  { destruct Hrun as [-> | ->].
    - rewrite copy_step, (bind_run (stat src)), (stat_found _ _ Hs).
      rewrite (bind_run (stat_catch_null (d ++ [x]))).
      fold s1. rewrite (stat_catch_null_absent (d ++ [x]) s1 Hd0).
      reflexivity.
    - rewrite copySync_step, (bind_run (stat src)), (stat_found _ _ Hs).
      rewrite (bind_run (statSync_noThrow b (d ++ [x]))).
      fold s1. rewrite (statSync_noThrow_absent b (d ++ [x]) s1 Hd0).
      reflexivity. }
  rewrite E. subst s2 s1. unfold copyFile, command, logged.
  cbn [clock root log]. rewrite K.
  eexists. split; [reflexivity|]. split; [reflexivity|].
  tidy_log. reflexivity.
Qed.

Lemma file_copy_needs_the_directory_witness :
  exists st',
    copy 1 ["f"] (["nowhere"] ++ ["x"]) always (at_time tree_mixed 9)
    = Fail ENOENT st' /\
    root st' = tree_mixed /\
    issued (at_time tree_mixed 9) st'
    = [CallStat ["f"]; CallStat (["nowhere"] ++ ["x"]);
       CallCopyFile ["f"] (["nowhere"] ++ ["x"])].
Proof.
  apply (@file_copy_needs_the_directory false 0 ["f"] ["nowhere"] "x" always
           (at_time tree_mixed 9) "new" 7
           (copy 1 ["f"] (["nowhere"] ++ ["x"]) always));
    [left; reflexivity | reflexivity | reflexivity].
Defined.

(** X14.  A regular file over a destination that exists, whatever it is,
    when the options do not permit overwriting (none given, no [overwrite]
    field, ['never'] or [false]): [copy] and [copySync] return after the two
    [stat] calls and the tree is as it was. *)
Theorem file_over_existing_denied
    (b : bool) (fuel : nat) (src dest : path) (options : option CopyOptions)
    (st : state) (c : string) (m : Z) (n : node) (run : M unit) :
  run = copy (S fuel) src dest options \/
  run = copySync b (S fuel) src dest options ->
  resolve (root st) src = Ok (File c m) ->
  resolve (root st) dest = Ok n ->
  denies options = true ->
  exists st',
    run st = Done tt st' /\ root st' = root st /\
    issued st st' = [CallStat src; CallStat dest].
Proof.
  intros Hrun Hs Hd Ho.
  assert (E : run st = copy (S fuel) src dest options st).
  { destruct Hrun as [-> | ->]; [reflexivity|].
    eapply file_source_agree; eauto. }
  rewrite E; clear E Hrun run.
  rewrite copy_step, (bind_run (stat src)), (stat_found _ _ Hs).
  set (s1 := logged (CallStat src) st).
  rewrite (bind_run (stat_catch_null dest)).
  rewrite (@stat_catch_null_found dest s1 n Hd).
  cbv zeta. rewrite (denies_flag _ _ _ Ho).
  cbn [stats_of isFile st_kind].
  eexists. split; [reflexivity|]. split; [reflexivity|].
  subst s1. tidy_log. reflexivity.
Qed.

Lemma file_over_existing_denied_witness :
  exists st',
    copySync true 1 ["f"] ["d"] never (at_time tree_mixed 9) = Done tt st' /\
    root st' = tree_mixed /\
    issued (at_time tree_mixed 9) st' = [CallStat ["f"]; CallStat ["d"]].
Proof.
  apply (@file_over_existing_denied true 0 ["f"] ["d"] never
           (at_time tree_mixed 9) "new" 7
           (Dir [("old.txt", File "old" 1); ("k", Dir [] 1)] 1)
           (copySync true 1 ["f"] ["d"] never));
    [right; reflexivity | reflexivity | reflexivity | reflexivity].
Defined.

(** X15.  A regular file over another regular file when lines 24-28 set
    [overwrite] (['always'], [true], or ['newer'] with a newer source): [copy]
    and [copySync] issue one [copyFile] after the two [stat] calls and
    return; the destination then holds the source's bytes and the source is
    as it was. *)
Theorem file_over_file_permitted
    (b : bool) (fuel : nat) (src dest : path) (options : option CopyOptions)
    (st : state) (c : string) (m : Z) (c' : string) (m' : Z)
    (run : M unit) :
  run = copy (S fuel) src dest options \/
  run = copySync b (S fuel) src dest options ->
  resolve (root st) src = Ok (File c m) ->
  resolve (root st) dest = Ok (File c' m') ->
  src <> dest ->
  overwrite_flag options (stats_of (File c m)) (Some (stats_of (File c' m')))
  = true ->
  exists st',
    run st = Done tt st' /\
    resolve (root st') dest = Ok (File c (clock st)) /\
    resolve (root st') src = Ok (File c m) /\
    issued st st' = [CallStat src; CallStat dest; CallCopyFile src dest].
Proof.
  intros Hrun Hs Hd Hne Ho.
  assert (E : run st = copy (S fuel) src dest options st).
  { destruct Hrun as [-> | ->]; [reflexivity|].
    eapply file_source_agree; eauto. }
  rewrite E; clear E Hrun run.
  rewrite copy_step, (bind_run (stat src)), (stat_found _ _ Hs).
  set (s1 := logged (CallStat src) st).
  rewrite (bind_run (stat_catch_null dest)).
  rewrite (@stat_catch_null_found dest s1 _ Hd).
  cbv zeta. rewrite Ho.
  cbn [stats_of isFile isDirectory st_kind].
  set (s2 := logged (CallStat dest) s1).
  assert (Hdne : dest <> []).
  { intros ->. simpl in Hd. inversion Hd as [Hr]. rewrite Hr in Hs.
    destruct src; [congruence | discriminate]. }
  destruct (nonempty_path_split Hdne) as [d [x ->]].
  destruct (resolve_parent _ _ _ Hd) as [es [md [Hpd Hx]]].
  destruct (@do_copyFile_spec (clock st) (root st) src c m d x es md
              Hs Hpd) as [r' [Hcp Hr']].
  { right; eauto. }
  rewrite bind_run. unfold ret at 1.
  rewrite (@copyFile_run s2 src (d ++ [x]) r' Hcp).
  eexists. split; [reflexivity|]. cbn [root].
  split; [exact Hr' | split].
  - rewrite <- Hs.
    apply (@do_copyFile_apart _ _ _ _ _ src Hcp).
    exact (@files_apart (root st) src (d ++ [x]) c m c' m' Hs Hd Hne).
  - subst s2 s1. tidy_log. reflexivity.
Qed.

Lemma file_over_file_permitted_witness :
  exists st',
    copy 1 ["f"] ["g"] always (at_time tree_mixed 9) = Done tt st' /\
    resolve (root st') ["g"] = Ok (File "new" 9) /\
    resolve (root st') ["f"] = Ok (File "new" 7) /\
    issued (at_time tree_mixed 9) st'
    = [CallStat ["f"]; CallStat ["g"]; CallCopyFile ["f"] ["g"]].
Proof.
  apply (@file_over_file_permitted false 0 ["f"] ["g"] always
           (at_time tree_mixed 9) "new" 7 "gee" 3
           (copy 1 ["f"] ["g"] always));
    [left; reflexivity | reflexivity | reflexivity | discriminate
    | reflexivity].
Defined.

(** X16.  A source that is neither a regular file nor a directory (a device,
    a FIFO, a socket) is skipped by [copy] without a word: whatever the
    destination and the options, it returns after the two [stat] calls and
    the tree is as it was. *)
Theorem special_source_is_skipped
    (fuel : nat) (src dest : path) (options : option CopyOptions)
    (st : state) (m : Z) :
  resolve (root st) src = Ok (Special m) ->
  exists st',
    copy (S fuel) src dest options st = Done tt st' /\
    root st' = root st /\
    issued st st' = [CallStat src; CallStat dest].
Proof.
  intros Hs.
  rewrite copy_step, (bind_run (stat src)), (stat_found _ _ Hs).
  set (s1 := logged (CallStat src) st).
  rewrite (bind_run (stat_catch_null dest)).
  unfold stat_catch_null, stat, query.
  destruct (do_stat dest (root s1)) as [a|e];
    (eexists; split; [reflexivity|]; split; [reflexivity|];
     subst s1; tidy_log; reflexivity).
Qed.

Lemma special_source_is_skipped_witness :
  exists st',
    copy 1 ["dev"] ["locked"; "x"] always (at_time tree_mixed 9)
    = Done tt st' /\
    root st' = tree_mixed /\
    issued (at_time tree_mixed 9) st'
    = [CallStat ["dev"]; CallStat ["locked"; "x"]].
Proof.
  apply (@special_source_is_skipped 0 ["dev"] ["locked"; "x"] always
           (at_time tree_mixed 9) 2).
  reflexivity.
Defined.



(** X18.  A directory of regular files and directories copied over a regular
    file when lines 24-28 set [overwrite] (['always'], [true], or ['newer']
    with a newer source): [copy] and [copySync] unlink the file and return
    with the destination mirroring the source. *)
Theorem directory_replaces_file
    (b : bool) (fuel : nat) (src dest : path) (options : option CopyOptions)
    (st : state) (es : entries_t) (m : Z) (c : string) (m' : Z)
    (run : M unit) :
  run = copy fuel src dest options \/
  run = copySync b fuel src dest options ->
  resolve (root st) src = Ok (Dir es m) ->
  plain (Dir es m) = true -> well_formed (Dir es m) = true ->
  depth (Dir es m) < fuel ->
  resolve (root st) dest = Ok (File c m') ->
  below src dest = false ->
  overwrite_flag options (stats_of (Dir es m)) (Some (stats_of (File c m')))
  = true ->
  exists st',
    run st = Done tt st' /\
    mirrors (root st') dest (Dir es m) /\
    In (CallUnlink dest) (issued st st').
Proof.
  intros [-> | ->] Hsrc Hplain Hwf Hdepth Hd Hout Ho.
  - exact (@cp_directory_replaces_file stat_catch_null copy
             (fun _ _ _ => eq_refl) (fun _ _ _ _ => eq_refl)
             stat_catch_null_logs stat_catch_null_found
             stat_catch_null_absent
             fuel src dest options st es m c m'
             Hsrc Hplain Hwf Hdepth Hd Hout Ho).
  - exact (@cp_directory_replaces_file (statSync_noThrow b) (copySync b)
             (fun _ _ _ => eq_refl) (fun _ _ _ _ => eq_refl)
             (statSync_noThrow_logs b) (statSync_noThrow_found b)
             (statSync_noThrow_absent b)
             fuel src dest options st es m c m'
             Hsrc Hplain Hwf Hdepth Hd Hout Ho).
Qed.

Lemma directory_replaces_file_witness :
  exists st',
    copySync false 3 ["d"] ["g"] always (at_time tree_mixed 9)
    = Done tt st' /\
    mirrors (root st') ["g"]
      (Dir [("old.txt", File "old" 1); ("k", Dir [] 1)] 1) /\
    In (CallUnlink ["g"]) (issued (at_time tree_mixed 9) st').
Proof.
  apply (@directory_replaces_file false 3 ["d"] ["g"] always
           (at_time tree_mixed 9)
           [("old.txt", File "old" 1); ("k", Dir [] 1)] 1 "gee" 3
           (copySync false 3 ["d"] ["g"] always));
    [right; reflexivity | reflexivity | reflexivity | reflexivity
    | simpl; lia | reflexivity | reflexivity | reflexivity].
Defined.

(** X19.  When the options do not permit overwriting (none given, no
    [overwrite] field, ['never'] or [false]), [copy] and [copySync] only
    add: however the call ends, every regular file there was is still there
    with its bytes and its time, and every directory is still a directory. *)
Theorem copy_without_overwrite_only_adds
    (b : bool) (fuel : nat) (src dest : path) (options : option CopyOptions)
    (st st' : state) (run : M unit) :
  run = copy fuel src dest options \/
  run = copySync b fuel src dest options ->
  denies options = true ->
  final (run st) = Some st' ->
  (forall p c m, resolve (root st) p = Ok (File c m) ->
     resolve (root st') p = Ok (File c m)) /\
  (forall p es m, resolve (root st) p = Ok (Dir es m) ->
     exists es' m', resolve (root st') p = Ok (Dir es' m')).
Proof.
  intros Hrun Ho Hfin.
  assert (K : keeps_entries (root st) (root st')).
  { destruct Hrun as [-> | ->].
    - exact (@cp_preserving stat_catch_null copy
               (fun _ _ _ => eq_refl) (fun _ _ _ _ => eq_refl)
               stat_catch_null_logs stat_catch_null_found
               fuel src dest options Ho st st' Hfin).
    - exact (@cp_preserving (statSync_noThrow b) (copySync b)
               (fun _ _ _ => eq_refl) (fun _ _ _ _ => eq_refl)
               (statSync_noThrow_logs b) (statSync_noThrow_found b)
               fuel src dest options Ho st st' Hfin). }
  split.
  - intros p c m Hp. specialize (K p). now rewrite Hp in K.
  - intros p es m Hp. specialize (K p). now rewrite Hp in K.
Qed.

Lemma copy_without_overwrite_only_adds_witness :
  exists st',
    final (copy 3 ["s"] ["d"] never (at_time tree_dirs 9)) = Some st' /\
    (forall p c m, resolve tree_dirs p = Ok (File c m) ->
       resolve (root st') p = Ok (File c m)) /\
    (forall p es m, resolve tree_dirs p = Ok (Dir es m) ->
       exists es' m', resolve (root st') p = Ok (Dir es' m')).
Proof.
  eexists.
  assert (H : final (copy 3 ["s"] ["d"] never (at_time tree_dirs 9))
              = Some _) by (vm_compute; reflexivity).
  split; [exact H|].
  exact (@copy_without_overwrite_only_adds false 3 ["s"] ["d"] never
           (at_time tree_dirs 9) _ (copy 3 ["s"] ["d"] never)
           (or_introl eq_refl) eq_refl H).
Defined.

End CopyFrame.

(* ================================================================== *)
(** * [collectFiles]: what it reads, and how it fails *)
(* ================================================================== *)

Module CollectFacts.
Import FS FSNotations Collect Scenario FSFacts CollectSpec CopyFrame.

Lemma for_each_acc_reads {A B} (P : fs_call -> bool)
    (body : A -> B -> M B) (l : list A) :
  (forall x acc s s', final (body x acc s) = Some s' ->
     root s' = root s /\
     exists k, log s' = log s ++ k /\ forallb P k = true) ->
  forall acc s s', final (for_each_acc l acc body s) = Some s' ->
    root s' = root s /\
    exists k, log s' = log s ++ k /\ forallb P k = true.
Proof.
  intros Hbody. induction l as [|x l IH]; intros acc s s' H.
  - simpl in H. inversion H; subst. split; [reflexivity|].
    exists []. now rewrite app_nil_r.
  - cbn [for_each_acc] in H. unfold bind in H.
    destruct (body x acc s) as [acc1 s1 | e s1 |] eqn:E.
    + destruct (Hbody x acc s s1) as [R1 [k1 [L1 P1]]];
        [now rewrite E |].
      destruct (IH acc1 s1 s' H) as [R2 [k2 [L2 P2]]].
      split; [congruence|]. exists (k1 ++ k2).
      rewrite L2, L1, <- app_assoc, forallb_app, P1, P2. now split.
    + apply (Hbody x acc s s'). now rewrite E.
    + discriminate.
Qed.

Lemma collect_reads fuel : forall filter top dir entries s s',
  below top dir = true ->
  final (collect fuel filter dir entries s) = Some s' ->
  root s' = root s /\
  exists k, log s' = log s ++ k /\ forallb (reads_below top) k = true.
Proof.
  induction fuel as [|fuel IH]; intros filter top dir entries s s' Hdir H;
    [discriminate|].
  rewrite collect_step in H. unfold bind at 1 in H.
  unfold readdir_types, query in H.
  destruct (do_readdir_types dir (root s)) as [des|e].
  - apply (@for_each_acc_reads _ _ (reads_below top)) in H.
    + destruct H as [R [k [L Pk]]]. split; [exact R|].
      exists (CallReaddir dir :: k). split.
      * rewrite L. unfold logged. cbn [log]. now rewrite <- app_assoc.
      * simpl. now rewrite Hdir, Pk.
    + intros [x isd] acc s0 s1 H0. cbn [fst snd] in H0. cbv zeta in H0.
      destruct isd.
      * apply (IH filter top (join dir x) acc s0 s1); [|exact H0].
        apply below_trans with (b := dir); [exact Hdir|].
        apply below_prefix.
      * assert (E : s1 = s0)
          by (destruct (accepts filter (join dir x));
              simpl in H0; congruence).
        subst s1. split; [reflexivity|]. exists [].
        now rewrite app_nil_r.
  - simpl in H. inversion H; subst. split; [reflexivity|].
    exists [CallReaddir dir]. split; [reflexivity|].
    simpl. now rewrite Hdir.
Qed.

(** X20.  However [collectFiles] ends, with a list or with an error, it has
    left the tree as it was, and every call it issued is a [readdir] at or
    below the directory it was given. *)
Theorem collectFiles_only_reads
    (fuel : nat) (dir : path) (filter : option FileFilter) (st st' : state) :
  final (collectFiles fuel dir filter st) = Some st' ->
  root st' = root st /\
  exists calls,
    log st' = log st ++ calls /\ forallb (reads_below dir) calls = true.
Proof.
  intros H. apply (@collect_reads fuel filter dir dir [] st st');
    [apply below_self | exact H].
Qed.

Lemma collectFiles_only_reads_witness :
  exists st',
    final (collectFiles 2 ["d"] None (at_time tree_mixed 9)) = Some st' /\
    root st' = tree_mixed /\
    exists calls,
      log st' = [] ++ calls /\ forallb (reads_below ["d"]) calls = true.
Proof.
  eexists.
  assert (H : final (collectFiles 2 ["d"] None (at_time tree_mixed 9))
              = Some _) by (vm_compute; reflexivity).
  split; [exact H|].
  exact (@collectFiles_only_reads 2 ["d"] None (at_time tree_mixed 9) _ H).
Defined.

Lemma names_distinct_dir es m :
  names_distinct (Dir es m) = true ->
  distinct (map fst es) = true /\
  forall e, In e es -> names_distinct (snd e) = true.
Proof.
  simpl. intros H. apply andb_prop in H as [H1 H2]. split; [exact H1|].
  clear H1. induction es as [|[x c] es IH]; intros e He; [destruct He|].
  apply andb_prop in H2 as [Hc Hes].
  destruct He as [<- | He]; [exact Hc | now apply IH].
Qed.

Lemma unreadable_dir es m :
  unreadable (Dir es m) = existsb (fun e => unreadable (snd e)) es.
Proof.
  simpl. induction es as [|[x c] es IH]; simpl; [reflexivity|].
  now rewrite IH.
Qed.

Lemma readable_well_formed : forall n,
  names_distinct n = true -> unreadable n = false -> well_formed n = true.
Proof.
  induction n as [| | | es m IH] using node_tree_ind; intros Hn Hu;
    try reflexivity; try discriminate.
  destruct (names_distinct_dir _ _ Hn) as [Hnames Hsub].
  rewrite unreadable_dir in Hu.
  simpl. rewrite Hnames. simpl. clear Hn Hnames.
  induction es as [|[x c] es IHes]; [reflexivity|].
  simpl in Hu. apply orb_false_elim in Hu as [Hc Hes].
  inversion IH as [|? ? IHc IHrest]; subst.
  cbn [snd] in IHc.
  rewrite (IHc (Hsub (x, c) (or_introl eq_refl)) Hc). cbn [andb].
  apply IHes; [exact IHrest | exact Hes |].
  intros e He. apply Hsub. now right.
Qed.

Lemma collect_unreadable filter : forall fuel dir n st acc,
  resolve (root st) dir = Ok n ->
  is_dir n = true -> names_distinct n = true -> depth n < fuel ->
  unreadable n = true ->
  exists st',
    collect fuel filter dir acc st = Fail EACCES st' /\ root st' = root st.
Proof.
  induction fuel as [|fuel IH]; intros dir n st acc Hr Hdir Hn Hdepth Hu;
    [lia|].
  rewrite collect_step. unfold bind at 1.
  destruct n as [| es m | | m]; try discriminate.
  2:{ unfold readdir_types, query, do_readdir_types. rewrite Hr.
      eexists. split; reflexivity. }
  destruct (names_distinct_dir _ _ Hn) as [Hnames Hsub].
  rewrite (readdir_types_run _ _ Hr).
  rewrite unreadable_dir in Hu.
  set (body := fun (entry : string * bool) (entries : list path) =>
    let entryPath := join dir (fst entry) in
    if snd entry then collect fuel filter entryPath entries
    else if accepts filter entryPath then ret (entries ++ [entryPath])
    else ret entries).
  assert (Inner : forall es2 acc' st',
    root st' = root st -> incl es2 es ->
    existsb (fun e => unreadable (snd e)) es2 = true ->
    exists st'',
      for_each_acc (map (fun e => (fst e, is_dir (snd e))) es2) acc' body st'
      = Fail EACCES st'' /\ root st'' = root st).
  { induction es2 as [|[x c] es2 IHes]; intros acc' st' Hroot Hincl Hex;
      [discriminate|].
    assert (Hin : In (x, c) es) by (apply Hincl; now left).
    assert (Hrest : incl es2 es) by (intros e He; apply Hincl; now right).
    assert (Hrc : resolve (root st') (join dir x) = Ok c).
    { rewrite Hroot. unfold join. rewrite resolve_app, Hr. simpl.
      now rewrite (alookup_distinct _ _ _ Hnames Hin). }
    assert (Hdc : depth c < fuel).
    { pose proof (depth_dir es m _ Hin) as Hlt. simpl snd in Hlt. lia. }
    cbn [map for_each_acc fst snd]. unfold bind at 1.
    unfold body at 1. cbn [fst snd]. cbv zeta.
    cbn [existsb snd] in Hex.
    destruct (is_dir c) eqn:Ec.
    - destruct (unreadable c) eqn:Euc.
      + destruct (IH (join dir x) c st' acc' Hrc Ec (Hsub (x, c) Hin)
                    Hdc Euc) as [st'' [E R]].
        rewrite E. exists st''. split; [reflexivity | congruence].
      + rewrite (@collect_spec filter fuel (join dir x) c st' acc' Hrc Ec
                   (readable_well_formed c (Hsub (x, c) Hin) Euc)
                   (Nat.lt_le_incl _ _ Hdc)).
        apply IHes; [cbn [root]; exact Hroot | exact Hrest | exact Hex].
    - assert (Euc : unreadable c = false)
        by (destruct c; try reflexivity; discriminate).
      rewrite Euc in Hex.
      destruct (accepts filter (join dir x)); unfold ret at 1;
        apply IHes; assumption. }
  apply Inner; [reflexivity | apply incl_refl | exact Hu].
Qed.

(** X21.  One directory that cannot be read, anywhere below the directory
    given, makes the whole of [collectFiles] fail with the [EACCES] of that
    [readdir]: no list is returned, whatever had been collected before, and
    the tree is as it was. *)
Theorem collectFiles_fails_on_unreadable
    (st : state) (dir : path) (n : node) (fuel : nat)
    (filter : option FileFilter) :
  resolve (root st) dir = Ok n ->
  is_dir n = true ->
  names_distinct n = true ->
  depth n < fuel ->
  unreadable n = true ->
  exists st',
    collectFiles fuel dir filter st = Fail EACCES st' /\ root st' = root st.
Proof.
  intros Hr Hdir Hn Hdepth Hu. unfold collectFiles.
  exact (@collect_unreadable filter fuel dir n st [] Hr Hdir Hn Hdepth Hu).
Qed.

Lemma collectFiles_fails_on_unreadable_witness :
  exists st',
    collectFiles 4 [] None (at_time tree_mixed 9) = Fail EACCES st' /\
    root st' = tree_mixed.
Proof.
  apply (@collectFiles_fails_on_unreadable (at_time tree_mixed 9) []
           tree_mixed 4 None);
    [reflexivity | reflexivity | reflexivity | simpl; lia | reflexivity].
Defined.

(** X22.  [collectFiles] on a path that is not a directory fails at its
    first [readdir]: with the error of resolving the path when nothing is
    there ([ENOENT] for a missing entry), with [ENOTDIR] when it is a file.
    Nothing else is called. *)
Theorem collectFiles_needs_a_directory
    (st : state) (dir : path) (fuel : nat) (filter : option FileFilter)
    (e : errno) :
  resolve (root st) dir = Err e \/
  (exists n, resolve (root st) dir = Ok n /\ is_dir n = false /\
             e = ENOTDIR) ->
  collectFiles (S fuel) dir filter st
  = Fail e (logged (CallReaddir dir) st).
Proof.
  intros H. unfold collectFiles. rewrite collect_step. unfold bind at 1.
  unfold readdir_types, query, do_readdir_types.
  destruct H as [-> | [n [-> [Hn ->]]]]; [reflexivity|].
  destruct n; try discriminate; reflexivity.
Qed.

Lemma collectFiles_needs_a_directory_witness :
  collectFiles 1 ["f"] None (at_time tree_mixed 9)
  = Fail ENOTDIR (logged (CallReaddir ["f"]) (at_time tree_mixed 9)).
Proof.
  apply (@collectFiles_needs_a_directory (at_time tree_mixed 9) ["f"] 0 None
           ENOTDIR).
  right. exists (File "new" 7). repeat split; reflexivity.
Defined.

End CollectFacts.
